(** * Penpot MCP server: event store and HTTP session dispatcher

    A shallow embedding of [InMemoryEventStore] and of the request handlers
    installed by [PenpotMcpServer.setupHttpEndpoints], together with the
    properties of replay, eviction and session bookkeeping. *)

From Stdlib Require Import ZArith List String Ascii Bool Lia Permutation Sorted DecimalString.
From stdpp Require Import base gmap strings.
Import ListNotations.
Open Scope string_scope.

(** ** JavaScript runtime pieces used by the server *)

Module JS.

(** [String.prototype.split] with a one-character separator: the pieces
    between occurrences of the separator; never an empty array. *)
Fixpoint split (sep : ascii) (s : string) : list string :=
  match s with
  | EmptyString => [EmptyString]
  | String c rest =>
      if Ascii.eqb c sep then EmptyString :: split sep rest
      else match split sep rest with
           | piece :: pieces => String c piece :: pieces
           | [] => [String c EmptyString]
           end
  end.

(** Rendering of an integral [Number] inside a template literal. *)
Definition numberToString (n : Z) : string :=
  NilZero.string_of_int (Z.to_int n).

(** [a.localeCompare(b)]: negative, zero or positive.  The answer is the
    host's, the collation of the runtime's default locale, which the program
    does not choose; the model takes it as a parameter. *)
Class Collation : Type := localeCompare : string -> string -> Z.

(** What ECMA-262 asks of [localeCompare], a consistent comparison function:
    swapping the arguments swaps the sign, and "not behind" is transitive,
    so the strings fall into classes that are totally ordered. *)
Definition Consistent (collation : Collation) : Prop :=
  (forall a b : string, (localeCompare a b < 0)%Z <-> (0 < localeCompare b a)%Z) /\
  (forall a b c : string,
     (localeCompare a b <= 0)%Z -> (localeCompare b c <= 0)%Z ->
     (localeCompare a c <= 0)%Z).

(** Code-unit order, one consistent collation; the examples run under it, on
    identifiers that differ first in a decimal digit or a lower-case letter
    at the same position. *)
Definition codeUnits : Collation :=
  fun a b =>
    match String.compare a b with
    | Lt => (-1)%Z
    | Eq => 0%Z
    | Gt => 1%Z
    end.

(** [Array.prototype.sort(cmp)]: a stable sort; an element moves behind a
    later one only when the comparator answers a positive number. *)
Fixpoint insertSorted {A : Type} (cmp : A -> A -> Z) (x : A) (l : list A) : list A :=
  match l with
  | [] => [x]
  | y :: rest =>
      if (cmp x y <=? 0)%Z then x :: y :: rest
      else y :: insertSorted cmp x rest
  end.

Fixpoint sort {A : Type} (cmp : A -> A -> Z) (l : list A) : list A :=
  match l with
  | [] => []
  | x :: rest => insertSorted cmp x (sort cmp rest)
  end.

(** The comparator does not place [x] behind [y]. *)
Definition notAfter {A : Type} (cmp : A -> A -> Z) (x y : A) : Prop :=
  (cmp x y <= 0)%Z.

(** A [Map] with string keys: entries in insertion order, keys unique. *)
Definition OrderedMap (V : Type) : Type := list (string * V).

Fixpoint mapGet {V : Type} (k : string) (m : OrderedMap V) : option V :=
  match m with
  | [] => None
  | (k', v) :: rest => if String.eqb k' k then Some v else mapGet k rest
  end.

Definition mapHas {V : Type} (k : string) (m : OrderedMap V) : bool :=
  match mapGet k m with Some _ => true | None => false end.

(** [Map.prototype.set]: an existing key keeps its position. *)
Fixpoint mapSet {V : Type} (k : string) (v : V) (m : OrderedMap V) : OrderedMap V :=
  match m with
  | [] => [(k, v)]
  | (k', v') :: rest =>
      if String.eqb k' k then (k, v) :: rest
      else (k', v') :: mapSet k v rest
  end.

Fixpoint mapDelete {V : Type} (k : string) (m : OrderedMap V) : OrderedMap V :=
  match m with
  | [] => []
  | (k', v') :: rest =>
      if String.eqb k' k then rest
      else (k', v') :: mapDelete k rest
  end.

Definition keys {V : Type} (m : OrderedMap V) : list string := List.map fst m.

(** [s.includes(c)] for a one-character [c]. *)
Fixpoint includes (c : ascii) (s : string) : bool :=
  match s with
  | EmptyString => false
  | String d rest => Ascii.eqb d c || includes c rest
  end.

(** The characters of [s] in front of the first [c] (all of [s] when [c] does
    not occur). *)
Fixpoint upTo (c : ascii) (s : string) : string :=
  match s with
  | EmptyString => EmptyString
  | String d rest => if Ascii.eqb d c then EmptyString else String d (upTo c rest)
  end.

(** Each string is strictly below the next one, code unit by code unit. *)
Fixpoint increasing (l : list string) : bool :=
  match l with
  | a :: (b :: _) as rest => String.ltb a b && increasing rest
  | _ => true
  end.

Definition hasKey {V : Type} (k : string) (m : OrderedMap V) : bool :=
  existsb (String.eqb k) (keys m).

(** Property names every plain object inherits from [Object.prototype]; each
    of them reads as a truthy value (a function, or the prototype itself). *)
Definition objectPrototypeKeys : list string :=
  [ "constructor"; "__defineGetter__"; "__defineSetter__"; "hasOwnProperty";
    "__lookupGetter__"; "__lookupSetter__"; "isPrototypeOf";
    "propertyIsEnumerable"; "toString"; "valueOf"; "__proto__";
    "toLocaleString" ].

(** Result of reading [obj[key]] on a plain object used as a record. *)
Inductive Property (T : Type) : Type :=
  | Own (value : T)
  | Inherited (name : string)
  | Undefined.
Arguments Own {T} value.
Arguments Inherited {T} name.
Arguments Undefined {T}.

Definition objectGet {T : Type} (obj : gmap string T) (key : string) : Property T :=
  match obj !! key with
  | Some v => Own v
  | None =>
      if existsb (String.eqb key) objectPrototypeKeys then Inherited key
      else Undefined
  end.

Definition truthy {T : Type} (p : Property T) : bool :=
  match p with
  | Undefined => false
  | _ => true
  end.

(** Truthiness of a [string | undefined]. *)
Definition truthyString (s : option string) : bool :=
  match s with
  | Some v => negb (String.eqb v "")
  | None => false
  end.

End JS.

(** ** The in-memory event store *)

Module EventStore.
Import JS.

Section Store.
Context {Message : Type} {collation : Collation}.

Record StoredEvent : Type := mkEvent {
  streamId : string;
  message : Message;
  timestamp : Z
}.

(** The [events] field. *)
Definition Events : Type := OrderedMap StoredEvent.

Definition maxAge : Z := 3600000.
Definition maxEventsPerStream : nat := 1000.

(** The readings the host supplies during one [storeEvent]: [Date.now()] in
    [generateEventId], [Date.now()] for the timestamp, [Date.now()] in
    [cleanupOldEvents], and the base-36 suffix cut from [Math.random()]. *)
Record Host : Type := mkHost {
  idClock : Z;
  stampClock : Z;
  sweepClock : Z;
  randomSuffix : string
}.

Definition generateEventId (sid : string) (now : Z) (suffix : string) : string :=
  sid ++ "_" ++ numberToString now ++ "_" ++ suffix.

Definition getStreamIdFromEventId (eventId : string) : string :=
  let parts := split "_" eventId in
  if (0 <? List.length parts)%nat then nth 0 parts "" else "".

Definition expired (now : Z) (e : StoredEvent) : bool :=
  (now - timestamp e >? maxAge)%Z.

(** First loop of [cleanupOldEvents]: drops expired entries and counts the
    others per stream. *)
Fixpoint sweepAges (now : Z) (entries : Events) (counts : OrderedMap nat)
  : Events * OrderedMap nat :=
  match entries with
  | [] => ([], counts)
  | (eventId, e) :: rest =>
      if expired now e then sweepAges now rest counts
      else
        let count := match mapGet (streamId e) counts with
                     | Some c => c
                     | None => 0
                     end in
        let '(kept, counts') :=
          sweepAges now rest (mapSet (streamId e) (count + 1) counts) in
        ((eventId, e) :: kept, counts')
  end.

Definition byTimestamp (a b : string * StoredEvent) : Z :=
  (timestamp (snd a) - timestamp (snd b))%Z.

Definition ofStream (sid : string) (entry : string * StoredEvent) : bool :=
  String.eqb (streamId (snd entry)) sid.

(** [for (i = 0; i < toRemove; i++) events.delete(streamEvents[i][0])];
    reading past the end of [streamEvents] is a [TypeError]. *)
Fixpoint deleteOldest (toRemove : nat) (streamEvents events : Events) : option Events :=
  match toRemove with
  | O => Some events
  | S n =>
      match streamEvents with
      | [] => None
      | (eventId, _) :: rest => deleteOldest n rest (mapDelete eventId events)
      end
  end.

(** Body of the second loop of [cleanupOldEvents] for one counted stream. *)
Definition trimStream (events : Events) (sid : string) (count : nat) : option Events :=
  if (maxEventsPerStream <? count)%nat then
    let streamEvents := sort byTimestamp (List.filter (ofStream sid) events) in
    deleteOldest (count - maxEventsPerStream) streamEvents events
  else Some events.

Fixpoint trimStreams (counts : OrderedMap nat) (events : Events) : option Events :=
  match counts with
  | [] => Some events
  | (sid, count) :: rest =>
      match trimStream events sid count with
      | Some events' => trimStreams rest events'
      | None => None
      end
  end.

Definition cleanupOldEvents (now : Z) (events : Events) : option Events :=
  let '(kept, counts) := sweepAges now events [] in
  trimStreams counts kept.

Definition storeEvent (events : Events) (sid : string) (msg : Message) (h : Host)
  : option (Events * string) :=
  let eventId := generateEventId sid (idClock h) (randomSuffix h) in
  let events1 := mapSet eventId (mkEvent sid msg (stampClock h)) events in
  match cleanupOldEvents (sweepClock h) events1 with
  | Some events2 => Some (events2, eventId)
  | None => None
  end.

Definition getEventCount (events : Events) : nat := List.length events.

(** A sequence of [storeEvent] calls, each with its own host readings. *)
Fixpoint storeEvents (events : Events) (requests : list (string * Message * Host))
  : option Events :=
  match requests with
  | [] => Some events
  | (sid, msg, h) :: rest =>
      match storeEvent events sid msg h with
      | Some (events', _) => storeEvents events' rest
      | None => None
      end
  end.

Definition byEventId (a b : string * StoredEvent) : Z :=
  localeCompare (fst a) (fst b).

(** The loop of [replayEventsAfter]; the result lists the calls of [send]. *)
Fixpoint replayLoop (sid lastEventId : string) (entries : Events) (foundLastEvent : bool)
  : list (string * Message) :=
  match entries with
  | [] => []
  | (eventId, e) :: rest =>
      if negb (String.eqb (streamId e) sid) then
        replayLoop sid lastEventId rest foundLastEvent
      else if String.eqb eventId lastEventId then
        replayLoop sid lastEventId rest true
      else if foundLastEvent then
        (eventId, message e) :: replayLoop sid lastEventId rest foundLastEvent
      else replayLoop sid lastEventId rest foundLastEvent
  end.

(** Returns the resolved stream id and the calls of [send], in order. *)
Definition replayEventsAfter (events : Events) (lastEventId : string)
  : string * list (string * Message) :=
  if String.eqb lastEventId "" || negb (mapHas lastEventId events) then ("", [])
  else
    let sid := getStreamIdFromEventId lastEventId in
    if String.eqb sid "" then ("", [])
    else (sid, replayLoop sid lastEventId (sort byEventId events) false).

(** *** Vocabulary of the statements *)

(** The entries of one stream, in insertion order, and their number. *)
Definition streamEvents (sid : string) (events : Events) : Events :=
  List.filter (ofStream sid) events.

Definition countOf (sid : string) (events : Events) : nat :=
  List.length (streamEvents sid events).

(** The entries that are not older than the retention window at [now]. *)
Definition retained (now : Z) (events : Events) : Events :=
  List.filter (fun entry => negb (expired now (snd entry))) events.

(** The entries of a stream beyond the cap, oldest timestamp first. *)
Definition surplus (sid : string) (events : Events) : Events :=
  firstn (countOf sid events - maxEventsPerStream)
         (sort byTimestamp (streamEvents sid events)).

(** [events] without the surplus of stream [sid]. *)
Definition trimmed (sid : string) (events : Events) : Events :=
  List.filter (fun entry => negb (hasKey (fst entry) (surplus sid events))) events.

(** The entry a request adds to the store. *)
Definition entryOf (request : string * Message * Host) : string * StoredEvent :=
  (generateEventId (fst (fst request)) (idClock (snd request))
                   (randomSuffix (snd request)),
   mkEvent (fst (fst request)) (snd (fst request)) (stampClock (snd request))).

(** What [send] receives for an entry. *)
Definition delivery (entry : string * StoredEvent) : string * Message :=
  (fst entry, message (snd entry)).

(** Identifiers increase strictly along the list, in the order of the sort. *)
Definition idBefore (a b : string * StoredEvent) : Prop :=
  (byEventId a b < 0)%Z.

End Store.

Arguments StoredEvent : clear implicits.
Arguments Events : clear implicits.

End EventStore.

(** ** Request sequences used as examples *)

Module Scenario.

Definition epoch : Z := 1700000000000.

(** All three clock readings of a store fall into the same millisecond. *)
Definition hostAt (t : Z) : EventStore.Host := EventStore.mkHost t t t "r".

(** A thousand events of stream [a], one per millisecond, the last of them
    one hour after [epoch]. *)
Definition steady : list (string * nat * EventStore.Host) :=
  List.map (fun i => ("a", i, hostAt (epoch + 3599000 + Z.of_nat i))) (seq 1 1000).

(** One event of stream [b] at [epoch], then the thousand of stream [a]. *)
Definition burst : list (string * nat * EventStore.Host) :=
  ("b", 0, hostAt epoch) :: steady.

(** 998 events of stream [a], one per millisecond, the last of them one
    hour after [epoch]. *)
Definition tail : list (string * nat * EventStore.Host) :=
  List.map (fun i => ("a", i, hostAt (epoch + 3599000 + Z.of_nat i))) (seq 3 998).

(** Two events of stream [a] at [epoch] and one millisecond later, then the
    998. *)
Definition thin : list (string * nat * EventStore.Host) :=
  ("a", 1, hostAt epoch) :: ("a", 2, hostAt (epoch + 1)) :: tail.

End Scenario.

(** ** The session registry and the HTTP handlers *)

Module Server.
Import JS.

(** The 128 random bits behind [randomUUID()], printed in the 8-4-4-4-12
    layout. *)
Record UUID : Type := mkUUID { uuidBits : N }.

Definition hexDigit (n : N) : ascii :=
  nth (N.to_nat (n mod 16))
      [ "0"; "1"; "2"; "3"; "4"; "5"; "6"; "7";
        "8"; "9"; "a"; "b"; "c"; "d"; "e"; "f" ]%char "0"%char.

(** The [width] lowest hexadecimal digits of [n], most significant first. *)
Fixpoint hex (width : nat) (n : N) : string :=
  match width with
  | O => ""
  | S w => hex w (n / 16) ++ String (hexDigit n) ""
  end.

Definition uuidToString (u : UUID) : string :=
  let n := uuidBits u in
  hex 8 (N.shiftr n 96) ++ "-" ++ hex 4 (N.shiftr n 80) ++ "-"
    ++ hex 4 (N.shiftr n 64) ++ "-" ++ hex 4 (N.shiftr n 48) ++ "-" ++ hex 12 n.

(** Identity of an [InMemoryEventStore] instance. *)
Definition StoreRef : Type := nat.

Record StreamableTransport : Type := mkTransport {
  sessionIdOf : option string;
  eventStoreOf : StoreRef
}.

Record SseTransport : Type := mkSse { sseSessionId : string }.

(** [transports.streamable] and [transports.sse] are plain objects (their
    own properties are recorded), [eventStores] is a [Map]. *)
Record Registry : Type := mkRegistry {
  streamable : gmap string StreamableTransport;
  sse : gmap string SseTransport;
  eventStores : gmap string StoreRef;
  storesAllocated : nat
}.

Definition emptyRegistry : Registry := mkRegistry ∅ ∅ ∅ 0.

Inductive Body : Type :=
  | JsonRpcError (code : Z) (message : string) (nullId : bool)
  | JsonRpcTerminated
  | PlainText (text : string).

(** What reaches the client: a reply written by a handler, or the response
    head written by an SDK transport. *)
Inductive Response : Type :=
  | Reply (status : Z) (body : Body)
  | TransportReply.

(** Calls into the protocol engine and its transports. *)
Inductive Call : Type :=
  | Connect
  | HandleRequest (t : StreamableTransport)
  | HandlePostMessage (t : SseTransport)
  | Close (t : StreamableTransport).

Inductive Completion : Type := Returned | Threw.

(** State threaded through one handler: the registry, the responses written
    to [res], and the collaborator calls made. *)
Record Exchange : Type := mkExchange {
  registry : Registry;
  sent : list Response;
  calls : list Call
}.

Definition start (reg : Registry) : Exchange := mkExchange reg [] [].

Definition send (r : Response) (x : Exchange) : Exchange :=
  mkExchange (registry x) (sent x ++ [r]) (calls x).

Definition call (c : Call) (x : Exchange) : Exchange :=
  mkExchange (registry x) (sent x) (calls x ++ [c]).

Definition withRegistry (reg : Registry) (x : Exchange) : Exchange :=
  mkExchange reg (sent x) (calls x).

Definition headersSent (x : Exchange) : bool :=
  match sent x with [] => false | _ => true end.

(** How a call of [handleRequest], [handlePostMessage] or [connect] ends:
    whether it wrote the response head, and whether it threw. *)
Record EngineRun : Type := mkRun { writesHead : bool; faults : bool }.

(** The handshake of a fresh transport: the engine may accept the
    initialization, drawing the session id from [sessionIdGenerator] and
    invoking [onsessioninitialized] with it. *)
Record Handshake : Type := mkHandshake {
  initializedAs : option UUID;
  engine : EngineRun
}.

(** How [transport.onclose()] ends once it is wired to the engine: the
    handler registered at session creation runs, and the call may throw
    before or after it. *)
Inductive CloseRun : Type := Closes | FaultsBeforeHandler | FaultsAfterHandler.

Definition runEngine (run : EngineRun) (x : Exchange) : Exchange * Completion :=
  (if writesHead run then send TransportReply x else x,
   if faults run then Threw else Returned).

(** [new InMemoryEventStore()]. *)
Definition allocateStore (reg : Registry) : Registry :=
  mkRegistry (streamable reg) (sse reg) (eventStores reg) (S (storesAllocated reg)).

(** Body of [onsessioninitialized]. *)
Definition sessionInitialized (id : string) (t : StreamableTransport) (store : StoreRef)
    (reg : Registry) : Registry :=
  mkRegistry (<[id := t]> (streamable reg)) (sse reg)
             (<[id := store]> (eventStores reg)) (storesAllocated reg).

(** [delete this.transports.streamable[sid]; this.eventStores.delete(sid)]. *)
Definition deleteSession (sid : string) (reg : Registry) : Registry :=
  mkRegistry (delete sid (streamable reg)) (sse reg)
             (delete sid (eventStores reg)) (storesAllocated reg).

(** The [onclose] handler installed on a fresh transport. *)
Definition onclose (t : StreamableTransport) (reg : Registry) : Registry :=
  if truthyString (sessionIdOf t)
     && truthy (objectGet (streamable reg) (default "" (sessionIdOf t)))
  then deleteSession (default "" (sessionIdOf t)) reg
  else reg.

Definition sseOpened (id : string) (t : SseTransport) (reg : Registry) : Registry :=
  mkRegistry (streamable reg) (<[id := t]> (sse reg)) (eventStores reg)
             (storesAllocated reg).

Definition sseClosed (id : string) (reg : Registry) : Registry :=
  mkRegistry (streamable reg) (delete id (sse reg)) (eventStores reg)
             (storesAllocated reg).

Definition badRequestNoSession : Response :=
  Reply 400 (JsonRpcError (-32000) "Bad Request: No valid session ID provided" true).

Definition internalError : Response :=
  Reply 500 (JsonRpcError (-32603) "Internal server error" true).

(** The [catch] block of [POST /mcp]. *)
Definition catchPost (r : Exchange * Completion) : Exchange * Completion :=
  match r with
  | (x, Returned) => (x, Returned)
  | (x, Threw) =>
      (if headersSent x then x else send internalError x, Returned)
  end.

(** [transport.handleRequest] on the transport constructed for this request. *)
Definition handshake (hs : Handshake) (t : StreamableTransport) (x : Exchange)
  : Exchange * Completion :=
  let x1 :=
    match initializedAs hs with
    | Some u =>
        let id := uuidToString u in
        withRegistry
          (sessionInitialized id (mkTransport (Some id) (eventStoreOf t))
             (eventStoreOf t) (registry x)) x
    | None => x
    end in
  runEngine (engine hs) (call (HandleRequest t) x1).

Definition postMcp (reg : Registry) (sessionId : option string) (isInitialize : bool)
    (connectFaults : bool) (hs : Handshake) (run : EngineRun) : Exchange * Completion :=
  let key := default "" sessionId in
  catchPost
    (if truthyString sessionId && truthy (objectGet (streamable reg) key) then
       match objectGet (streamable reg) key with
       | Own t => runEngine run (call (HandleRequest t) (start reg))
       | _ => (start reg, Threw)
       end
     else if negb (truthyString sessionId) && isInitialize then
       let t := mkTransport None (storesAllocated reg) in
       let x := call Connect (start (allocateStore reg)) in
       if connectFaults then (x, Threw) else handshake hs t x
     else (send badRequestNoSession (start reg), Returned)).

Definition getMcp (reg : Registry) (sessionId : option string) (run : EngineRun)
  : Exchange * Completion :=
  let key := default "" sessionId in
  if negb (truthyString sessionId) || negb (truthy (objectGet (streamable reg) key)) then
    (send (Reply 400 (PlainText "Session ID required")) (start reg), Returned)
  else
    match objectGet (streamable reg) key with
    | Own t => runEngine run (call (HandleRequest t) (start reg))
    | _ => (start reg, Threw)
    end.

(** The [try] block of [DELETE /mcp], up to the response. *)
Definition terminate (key : string) (close : CloseRun) (x : Exchange)
  : Exchange * Completion :=
  match objectGet (streamable (registry x)) key with
  | Own t =>
      match close with
      | Closes =>
          (withRegistry (deleteSession key (onclose t (registry x))) (call (Close t) x),
           Returned)
      | FaultsBeforeHandler => (call (Close t) x, Threw)
      | FaultsAfterHandler =>
          (withRegistry (onclose t (registry x)) (call (Close t) x), Threw)
      end
  | _ => (withRegistry (deleteSession key (registry x)) x, Returned)
  end.

Definition deleteMcp (reg : Registry) (sessionId : option string) (close : CloseRun)
  : Exchange * Completion :=
  let key := default "" sessionId in
  if negb (truthyString sessionId) then
    (send (Reply 400 (JsonRpcError (-32000) "Bad Request: No session ID provided" false))
       (start reg), Returned)
  else if negb (truthy (objectGet (streamable reg) key)) then
    (send (Reply 404 (JsonRpcError (-32001) "Session not found" false)) (start reg),
     Returned)
  else
    match terminate key close (start reg) with
    | (x, Returned) => (send (Reply 200 JsonRpcTerminated) x, Returned)
    | (x, Threw) =>
        (send (Reply 500 (JsonRpcError (-32603)
                 "Internal server error during session termination" false)) x,
         Returned)
    end.

(** [GET /sse]; the transport draws its own session id on construction. *)
Definition getSse (reg : Registry) (u : UUID) (run : EngineRun) : Exchange * Completion :=
  let id := uuidToString u in
  runEngine run (call Connect (start (sseOpened id (mkSse id) reg))).

(** [req.query.sessionId] used as a property key: an absent parameter reads
    the property named "undefined". *)
Definition queryKey (sessionId : option string) : string :=
  match sessionId with Some s => s | None => "undefined" end.

Definition postMessages (reg : Registry) (sessionId : option string) (run : EngineRun)
  : Exchange * Completion :=
  match objectGet (sse reg) (queryKey sessionId) with
  | Own t => runEngine run (call (HandlePostMessage t) (start reg))
  | Inherited _ => (start reg, Threw)
  | Undefined =>
      (send (Reply 400 (PlainText "No transport found for sessionId")) (start reg),
       Returned)
  end.

(** The synchronous blocks that touch the registry; handlers interleave at
    their [await]s, between such blocks. *)
Inductive Step : Registry -> Registry -> Prop :=
  | StepAllocate reg :
      Step reg (allocateStore reg)
  | StepInitialized reg u store :
      Step reg (sessionInitialized (uuidToString u)
                  (mkTransport (Some (uuidToString u)) store) store reg)
  | StepClosed reg t :
      Step reg (onclose t reg)
  | StepDeleted reg sid :
      Step reg (deleteSession sid reg)
  | StepSseOpened reg u :
      Step reg (sseOpened (uuidToString u) (mkSse (uuidToString u)) reg)
  | StepSseClosed reg id :
      Step reg (sseClosed id reg).

Definition Reachable (reg : Registry) : Prop := rtc Step emptyRegistry reg.

(** The registry before and after one handler run to completion, or one
    close notification, for any request and any behaviour of the engine. *)
Inductive Handled : Registry -> Registry -> Prop :=
  | HandledPostMcp reg sessionId isInitialize connectFaults hs run :
      Handled reg
        (registry (fst (postMcp reg sessionId isInitialize connectFaults hs run)))
  | HandledGetMcp reg sessionId run :
      Handled reg (registry (fst (getMcp reg sessionId run)))
  | HandledDeleteMcp reg sessionId close :
      Handled reg (registry (fst (deleteMcp reg sessionId close)))
  | HandledGetSse reg u run :
      Handled reg (registry (fst (getSse reg u run)))
  | HandledPostMessages reg sessionId run :
      Handled reg (registry (fst (postMessages reg sessionId run)))
  | HandledTransportClosed reg t :
      Handled reg (onclose t reg)
  | HandledSseClosed reg id :
      Handled reg (sseClosed id reg).

(** A session id is registered on both sides or on neither. *)
Definition Paired (reg : Registry) : Prop :=
  forall sid : string,
    is_Some (streamable reg !! sid) <-> is_Some (eventStores reg !! sid).

End Server.

(** ** Sessions as the handlers build them *)

Module Sessions.
Import JS Server.

(** The registries the handlers and close notifications lead to. *)
Definition Served (reg : Registry) : Prop := rtc Handled emptyRegistry reg.

(** Every registered transport sits under its own session id, a printed
    UUID, next to the event store it was constructed with, and that store was
    allocated before. *)
Definition Owned (reg : Registry) : Prop :=
  forall (id : string) (t : StreamableTransport),
    streamable reg !! id = Some t ->
    (exists u, id = uuidToString u) /\
    sessionIdOf t = Some id /\
    eventStores reg !! id = Some (eventStoreOf t) /\
    eventStoreOf t < storesAllocated reg.

(** Every store reference in the registry was allocated. *)
Definition Allocated (reg : Registry) : Prop :=
  forall (id : string) (store : StoreRef),
    eventStores reg !! id = Some store -> store < storesAllocated reg.

(** No event store serves two sessions. *)
Definition Unshared (reg : Registry) : Prop :=
  forall (id1 id2 : string) (store : StoreRef),
    eventStores reg !! id1 = Some store ->
    eventStores reg !! id2 = Some store ->
    id1 = id2.

(** The distinct stream ids of a store, in order of first appearance. *)
Definition streamsOf {M : Type} (events : EventStore.Events M) : list string :=
  List.nodup String.string_dec
    (List.map (fun entry => EventStore.streamId (snd entry)) events).

End Sessions.

(** ** Initial instructions *)

Module Instructions.

(** What is left of [s] behind [pattern], when [s] starts with it. *)
Fixpoint startsWith (pattern s : string) : option string :=
  match pattern with
  | EmptyString => Some s
  | String c pattern' =>
      match s with
      | String d rest => if Ascii.eqb c d then startsWith pattern' rest else None
      | EmptyString => None
      end
  end.

(** The text before and behind the first occurrence of [pattern] in [s]
    (the position [indexOf] finds). *)
Fixpoint cut (pattern s : string) {struct s} : option (string * string) :=
  match startsWith pattern s with
  | Some rest => Some (EmptyString, rest)
  | None =>
      match s with
      | EmptyString => None
      | String c rest =>
          match cut pattern rest with
          | Some (before, behind) => Some (String c before, behind)
          | None => None
          end
      end
  end.

(** The replacement text of [String.prototype.replace] for a string pattern
    (no captures): [$$] is a dollar sign, [$&] the match, [$`] the text before
    it and [$'] the text behind it; any other dollar sign stands for itself. *)
Fixpoint getSubstitution (matched before behind replacement : string) : string :=
  match replacement with
  | EmptyString => EmptyString
  | String c tail =>
      if Ascii.eqb c "$" then
        match tail with
        | EmptyString => String c EmptyString
        | String d rest =>
            if Ascii.eqb d "$" then
              String "$" (getSubstitution matched before behind rest)
            else if Ascii.eqb d "&" then
              matched ++ getSubstitution matched before behind rest
            else if Ascii.eqb d "`" then
              before ++ getSubstitution matched before behind rest
            else if Ascii.eqb d "'" then
              behind ++ getSubstitution matched before behind rest
            else String c (getSubstitution matched before behind tail)
        end
      else String c (getSubstitution matched before behind tail)
  end.

(** [s.replace(pattern, replacement)] with a string pattern: the first
    occurrence only. *)
Definition replace (s pattern replacement : string) : string :=
  match cut pattern s with
  | Some (before, behind) =>
      before ++ getSubstitution pattern before behind replacement ++ behind
  | None => s
  end.

(** [items.join(sep)]. *)
Definition join (sep : string) (items : list string) : string :=
  String.concat sep items.

Definition placeholder : string := "$api_types".

(** [PenpotMcpServer.getInitialInstructions]; the configured text and the
    type names come from the configuration loader and the API documentation. *)
Definition getInitialInstructions (configured : string) (typeNames : list string)
  : string :=
  replace configured placeholder (join ", " typeNames).

End Instructions.

(** ** The plugin page *)

Module Plugin.

Inductive ReadyState : Type := CONNECTING | OPEN | CLOSING | CLOSED.

(** Values [JSON.parse] produces. *)
#[local] Unset Elimination Schemes.
Inductive Json : Type :=
  | JNull
  | JBool (b : bool)
  | JNumber (n : Z)
  | JString (s : string)
  | JArray (items : list Json)
  | JObject (fields : list (string * Json)).
#[local] Set Elimination Schemes.

(** An own property of a parsed object; of duplicate keys the last wins. *)
Fixpoint lastField (name : string) (fields : list (string * Json)) : option Json :=
  match fields with
  | [] => None
  | (k, v) :: rest =>
      match lastField name rest with
      | Some w => Some w
      | None => if String.eqb k name then Some v else None
      end
  end.

(** [message.type] on a parsed value: [None] when the read throws (on
    [null]), otherwise the value read, [undefined] being [Some None]. *)
Definition typeOf (message : Json) : option (option Json) :=
  match message with
  | JNull => None
  | JObject fields => Some (lastField "type" fields)
  | _ => Some None
  end.

Definition isString (text : string) (value : option Json) : bool :=
  match value with
  | Some (JString s) => String.eqb s text
  | _ => false
  end.

(** What the [message] listener of the window reads from [event.data]: the
    four properties, or nothing when the data is [null] or [undefined].  The
    theme only goes to [document.body.dataset.theme], which stores the string
    conversion of what is assigned; [theme] is that string (the text
    [undefined] when the property is absent). *)
Inductive WindowData : Type :=
  | Nullish
  | Data (source type : option Json) (theme : string) (response : option Json).

Inductive Frame : Type :=
  | Ping
  | TaskResponse (response : option Json).

Inductive Output : Type :=
  | Sent (socket : nat) (frame : Frame)
  | Posted (message : Json).

Record Status : Type := mkStatus { textContent : string; color : string }.

(** The module variables [ws], [pingInterval], [reconnectTimeout], the
    page they live in, and what the browser holds for them: the sockets
    constructed with their URL and ready state, the interval timers running
    and the timeouts pending. *)
Record Page : Type := mkPage {
  protocol : string;
  host : string;
  theme : string;
  statusElement : option Status;
  ws : option nat;
  pingInterval : option nat;
  reconnectTimeout : option nat;
  sockets : gmap nat (string * ReadyState);
  socketsCreated : nat;
  intervals : gset nat;
  timeouts : gset nat;
  timersCreated : nat
}.

Definition initial (protocol host : string) (themeParam : option string)
    (statusElement : option Status) : Page :=
  mkPage protocol host
    (match themeParam with Some t => t | None => "light" end)
    statusElement None None None ∅ 0 ∅ ∅ 0.

Definition setStatus (value : option Status) (p : Page) : Page :=
  mkPage (protocol p) (host p) (theme p) value (ws p) (pingInterval p)
    (reconnectTimeout p) (sockets p) (socketsCreated p) (intervals p) (timeouts p)
    (timersCreated p).

Definition setTheme (value : string) (p : Page) : Page :=
  mkPage (protocol p) (host p) value (statusElement p) (ws p) (pingInterval p)
    (reconnectTimeout p) (sockets p) (socketsCreated p) (intervals p) (timeouts p)
    (timersCreated p).

Definition setWs (value : option nat) (p : Page) : Page :=
  mkPage (protocol p) (host p) (theme p) (statusElement p) value (pingInterval p)
    (reconnectTimeout p) (sockets p) (socketsCreated p) (intervals p) (timeouts p)
    (timersCreated p).

Definition setSockets (value : gmap nat (string * ReadyState)) (created : nat)
    (p : Page) : Page :=
  mkPage (protocol p) (host p) (theme p) (statusElement p) (ws p) (pingInterval p)
    (reconnectTimeout p) value created (intervals p) (timeouts p) (timersCreated p).

Definition setPing (value : option nat) (running : gset nat) (created : nat)
    (p : Page) : Page :=
  mkPage (protocol p) (host p) (theme p) (statusElement p) (ws p) value
    (reconnectTimeout p) (sockets p) (socketsCreated p) running (timeouts p) created.

Definition setReconnect (value : option nat) (pending : gset nat) (created : nat)
    (p : Page) : Page :=
  mkPage (protocol p) (host p) (theme p) (statusElement p) (ws p) (pingInterval p)
    value (sockets p) (socketsCreated p) (intervals p) pending created.

(** Truthiness of a timer id. *)
Definition truthyTimer (timer : option nat) : bool :=
  match timer with
  | Some t => negb (Nat.eqb t 0)
  | None => false
  end.

Definition updateConnectionStatus (status : string) (isConnectedState : bool)
    (p : Page) : Page :=
  match statusElement p with
  | Some _ =>
      setStatus
        (Some (mkStatus status
                 (if isConnectedState then "var(--accent-primary)"
                  else "var(--error-700)"))) p
  | None => p
  end.

Definition stopPingInterval (p : Page) : Page :=
  if truthyTimer (pingInterval p) then
    setPing None (intervals p ∖ {[ default 0 (pingInterval p) ]}) (timersCreated p) p
  else p.

(** [setInterval] hands out the next timer id, a positive integer. *)
Definition startPingInterval (p : Page) : Page :=
  let p1 := stopPingInterval p in
  let timer := S (timersCreated p1) in
  setPing (Some timer) (intervals p1 ∪ {[ timer ]}) timer p1.

(** [ws && ws.readyState === WebSocket.OPEN]. *)
Definition isOpen (p : Page) : bool :=
  match ws p with
  | Some s =>
      match sockets p !! s with
      | Some (_, OPEN) => true
      | _ => false
      end
  | None => false
  end.

Definition sendIfOpen (frame : Frame) (p : Page) : list Output :=
  if isOpen p then [Sent (default 0 (ws p)) frame] else [].

Definition sendTaskResponse (response : option Json) (p : Page) : list Output :=
  sendIfOpen (TaskResponse response) p.

Definition wsUrl (p : Page) : string :=
  (if String.eqb (protocol p) "https:" then "wss:" else "ws:")
    ++ "//" ++ host p ++ "/ws".

(** [connectToMcpServer]; [constructThrows] tells whether [new WebSocket]
    throws. *)
Definition connectToMcpServer (constructThrows : bool) (p : Page) : Page :=
  if isOpen p then updateConnectionStatus "Already connected" true p
  else if constructThrows then updateConnectionStatus "Connection failed" false p
  else
    let s := socketsCreated p in
    updateConnectionStatus "Connecting..." false
      (setWs (Some s)
         (setSockets (<[ s := (wsUrl p, CONNECTING) ]> (sockets p)) (S s) p)).

Definition scheduleReconnect (p : Page) : Page :=
  let pending :=
    if truthyTimer (reconnectTimeout p)
    then timeouts p ∖ {[ default 0 (reconnectTimeout p) ]}
    else timeouts p in
  let timer := S (timersCreated p) in
  setReconnect (Some timer) (pending ∪ {[ timer ]}) timer p.

(** The browser moves a socket to another ready state. *)
Definition setReadyState (s : nat) (state : ReadyState) (p : Page) : Page :=
  match sockets p !! s with
  | Some (url, _) => setSockets (<[ s := (url, state) ]> (sockets p)) (socketsCreated p) p
  | None => p
  end.

Definition onopen (p : Page) : Page :=
  startPingInterval (updateConnectionStatus "Connected to MCP server" true p).

Definition onmessage (parsed : option Json) : list Output :=
  match parsed with
  | None => []
  | Some message =>
      match typeOf message with
      | None => []
      | Some type => if isString "pong" type then [] else [Posted message]
      end
  end.

Definition onclose (p : Page) : Page :=
  scheduleReconnect
    (setWs None
       (stopPingInterval
          (updateConnectionStatus "Disconnected - reconnecting..." false p))).

Definition onerror (p : Page) : Page :=
  updateConnectionStatus "Connection error" false p.

Definition onWindowMessage (data : WindowData) (p : Page) : Page * list Output :=
  match data with
  | Nullish => (p, [])
  | Data source type theme response =>
      if isString "penpot" source then (setTheme theme p, [])
      else if isString "task-response" type then (p, sendTaskResponse response p)
      else (p, [])
  end.

(** What the browser delivers to the page. *)
Inductive Event : Type :=
  | ClickConnect (constructThrows : bool)
  | SocketOpened (s : nat)
  | SocketMessage (s : nat) (parsed : option Json)
  | SocketClosed (s : nat)
  | SocketError (s : nat)
  | PingTick (timer : nat)
  | ReconnectFires (timer : nat) (constructThrows : bool)
  | WindowMessage (data : WindowData).

Definition stateOf (s : nat) (p : Page) : option ReadyState :=
  snd <$> sockets p !! s.

(** The events the browser can deliver in a page state: socket events for
    sockets in the matching ready state, timer events for live timers. *)
Definition enabled (p : Page) (ev : Event) : Prop :=
  match ev with
  | ClickConnect _ => True
  | SocketOpened s => stateOf s p = Some CONNECTING
  | SocketMessage s _ => stateOf s p = Some OPEN
  | SocketClosed s => is_Some (stateOf s p) /\ stateOf s p <> Some CLOSED
  | SocketError s => is_Some (stateOf s p)
  | PingTick timer => timer ∈ intervals p
  | ReconnectFires timer _ => timer ∈ timeouts p
  | WindowMessage _ => True
  end.

Definition step (p : Page) (ev : Event) : Page * list Output :=
  match ev with
  | ClickConnect constructThrows => (connectToMcpServer constructThrows p, [])
  | SocketOpened s => (onopen (setReadyState s OPEN p), [])
  | SocketMessage s parsed => (p, onmessage parsed)
  | SocketClosed s => (onclose (setReadyState s CLOSED p), [])
  | SocketError s => (onerror p, [])
  | PingTick timer => (p, sendIfOpen Ping p)
  | ReconnectFires timer constructThrows =>
      (connectToMcpServer constructThrows
         (setReconnect (reconnectTimeout p) (timeouts p ∖ {[ timer ]})
            (timersCreated p) p), [])
  | WindowMessage data => onWindowMessage data p
  end.

Inductive Reached (start : Page) : Page -> Prop :=
  | ReachedStart : Reached start start
  | ReachedStep p ev : Reached start p -> enabled p ev -> Reached start (fst (step p ev)).

(** No timer leaks: the running interval is the one in [pingInterval], a
    pending timeout is the one in [reconnectTimeout]. *)
Definition TimersTidy (p : Page) : Prop :=
  intervals p = (if truthyTimer (pingInterval p)
                 then {[ default 0 (pingInterval p) ]} else ∅) /\
  timeouts p ⊆ (if truthyTimer (reconnectTimeout p)
                then {[ default 0 (reconnectTimeout p) ]} else ∅).

End Plugin.

(** * Properties *)

(** ** Sorting *)

Section SortFacts.
Import JS.
Context {A : Type} (cmp : A -> A -> Z).

Local Abbreviation notAfter := (JS.notAfter cmp).

Hypothesis notAfter_total : forall x y, notAfter x y \/ notAfter y x.
Hypothesis notAfter_trans : forall x y z, notAfter x y -> notAfter y z -> notAfter x z.

Lemma insertSorted_perm (x : A) (l : list A) :
  Permutation (insertSorted cmp x l) (x :: l).
Proof.
  induction l as [|y l IH]; simpl.
  - apply Permutation_refl.
  - destruct (cmp x y <=? 0)%Z.
    + apply Permutation_refl.
    + rewrite IH. apply perm_swap.
Qed.

Lemma sort_perm (l : list A) : Permutation (sort cmp l) l.
Proof.
  induction l as [|x l IH]; simpl.
  - constructor.
  - rewrite insertSorted_perm. now constructor.
Qed.

Lemma insertSorted_head (x : A) (l : list A) :
  HdRel notAfter x l -> insertSorted cmp x l = x :: l.
Proof.
  intros H. destruct l as [|y l]; simpl; [reflexivity|].
  inversion H as [|? ? Hxy]; subst. unfold notAfter in Hxy.
  apply Z.leb_le in Hxy. now rewrite Hxy.
Qed.

Lemma insertSorted_sorted (x : A) (l : list A) :
  StronglySorted notAfter l -> StronglySorted notAfter (insertSorted cmp x l).
Proof.
  induction l as [|y l IH]; simpl; intros Hs.
  - constructor; constructor.
  - destruct (cmp x y <=? 0)%Z eqn:E.
    + apply Z.leb_le in E. constructor; [assumption|].
      constructor; [exact E|].
      inversion Hs as [|? ? _ Hall]; subst.
      eapply List.Forall_impl; [|exact Hall]. intros z Hz. eapply notAfter_trans; eauto.
    + apply Z.leb_gt in E.
      inversion Hs as [|? ? Hs' Hall]; subst.
      constructor; [now apply IH|].
      assert (Hyx : notAfter y x).
      { destruct (notAfter_total x y) as [H|H]; [unfold notAfter in H; lia|exact H]. }
      eapply Permutation_Forall; [symmetry; apply insertSorted_perm|].
      now constructor.
Qed.

Lemma sort_sorted (l : list A) : StronglySorted notAfter (sort cmp l).
Proof.
  induction l as [|x l IH]; simpl; [constructor|].
  now apply insertSorted_sorted.
Qed.

Lemma sort_already_sorted (l : list A) : Sorted notAfter l -> sort cmp l = l.
Proof.
  induction 1 as [|x l Hs IH Hd]; simpl; [reflexivity|].
  rewrite IH. now apply insertSorted_head.
Qed.

Lemma filter_insertSorted (p : A -> bool) (x : A) (l : list A) :
  StronglySorted notAfter l ->
  List.filter p (insertSorted cmp x l) =
  if p x then insertSorted cmp x (List.filter p l) else List.filter p l.
Proof.
  induction l as [|y l IH]; simpl; intros Hs.
  - destruct (p x); reflexivity.
  - inversion Hs as [|? ? Hs' Hall]; subst.
    destruct (cmp x y <=? 0)%Z eqn:E; simpl.
    + destruct (p x) eqn:Px; [|reflexivity].
      destruct (p y) eqn:Py; simpl.
      * now rewrite E.
      * symmetry. apply insertSorted_head.
        apply Z.leb_le in E.
        assert (Hall' : Forall (notAfter x) l).
        { eapply List.Forall_impl; [|exact Hall]. intros z Hz.
          eapply notAfter_trans; eauto. }
        clear - Hall'. induction l as [|z l IHl]; simpl; [constructor|].
        inversion Hall'; subst. destruct (p z); [now constructor|auto].
    + rewrite (IH Hs'). destruct (p y) eqn:Py; simpl.
      * destruct (p x); [|reflexivity]. now rewrite E.
      * reflexivity.
Qed.

(** A stable sort commutes with selecting a sub-sequence. *)
Lemma filter_sort (p : A -> bool) (l : list A) :
  List.filter p (sort cmp l) = sort cmp (List.filter p l).
Proof.
  induction l as [|x l IH]; simpl; [reflexivity|].
  rewrite filter_insertSorted by apply sort_sorted.
  rewrite IH. destruct (p x); reflexivity.
Qed.

End SortFacts.

(** ** Strings and identifiers *)

Section StringFacts.
Import JS.

Lemma ascii_compare_refl (c : ascii) : Ascii.compare c c = Eq.
Proof. unfold Ascii.compare. apply N.compare_refl. Qed.

Lemma string_compare_refl (s : string) : String.compare s s = Eq.
Proof.
  induction s as [|c s IH]; simpl; [reflexivity|].
  now rewrite ascii_compare_refl.
Qed.

Lemma string_compare_not_gt_trans (a b c : string) :
  String.compare a b <> Gt -> String.compare b c <> Gt -> String.compare a c <> Gt.
Proof.
  revert b c. induction a as [|x a IH]; intros [|y b] [|z c]; simpl;
    try congruence.
  unfold Ascii.compare.
  destruct (N.compare_spec (N_of_ascii x) (N_of_ascii y)) as [Exy|Lxy|Gxy];
    destruct (N.compare_spec (N_of_ascii y) (N_of_ascii z)) as [Eyz|Lyz|Gyz];
    try congruence; intros Hab Hbc.
  - rewrite Exy, Eyz, N.compare_refl. eapply IH; eauto.
  - rewrite Exy. apply N.compare_lt_iff in Lyz. now rewrite Lyz.
  - rewrite <- Eyz. apply N.compare_lt_iff in Lxy. now rewrite Lxy.
  - assert (H : (N_of_ascii x < N_of_ascii z)%N) by lia.
    apply N.compare_lt_iff in H. now rewrite H.
Qed.

Lemma codeUnits_consistent : Consistent codeUnits.
Proof.
  split.
  - intros a b. unfold localeCompare, codeUnits.
    rewrite (String.compare_antisym b a).
    destruct (String.compare a b); simpl; lia.
  - intros a b c. unfold localeCompare, codeUnits. intros Hab Hbc.
    pose proof (string_compare_not_gt_trans a b c) as T.
    destruct (String.compare a b), (String.compare b c), (String.compare a c);
      try lia; exfalso; apply T; congruence.
Qed.

Lemma byEventId_total {M : Type} {collation : Collation} :
  Consistent collation ->
  forall a b : string * EventStore.StoredEvent M,
    notAfter EventStore.byEventId a b \/ notAfter EventStore.byEventId b a.
Proof.
  intros [Hswap _] a b. unfold notAfter, EventStore.byEventId.
  pose proof (Hswap (fst b) (fst a)) as H. lia.
Qed.

Lemma byEventId_trans {M : Type} {collation : Collation} :
  Consistent collation ->
  forall a b c : string * EventStore.StoredEvent M,
    notAfter EventStore.byEventId a b -> notAfter EventStore.byEventId b c ->
    notAfter EventStore.byEventId a c.
Proof.
  intros [_ Htrans] a b c. unfold notAfter, EventStore.byEventId. apply Htrans.
Qed.

Lemma byTimestamp_total {M : Type} (a b : string * EventStore.StoredEvent M) :
  notAfter EventStore.byTimestamp a b \/ notAfter EventStore.byTimestamp b a.
Proof. unfold notAfter, EventStore.byTimestamp. lia. Qed.

Lemma byTimestamp_trans {M : Type} (a b c : string * EventStore.StoredEvent M) :
  notAfter EventStore.byTimestamp a b -> notAfter EventStore.byTimestamp b c ->
  notAfter EventStore.byTimestamp a c.
Proof. unfold notAfter, EventStore.byTimestamp. lia. Qed.

Lemma split_head (c : ascii) (s : string) :
  exists pieces, split c s = upTo c s :: pieces.
Proof.
  induction s as [|d s [pieces IH]]; simpl.
  - now exists [].
  - destruct (Ascii.eqb d c).
    + eauto.
    + rewrite IH. eauto.
Qed.

Lemma getStreamIdFromEventId_upTo (eventId : string) :
  EventStore.getStreamIdFromEventId eventId = upTo "_" eventId.
Proof.
  unfold EventStore.getStreamIdFromEventId.
  destruct (split_head "_" eventId) as [pieces ->]. reflexivity.
Qed.

Lemma append_cons (d : ascii) (s rest : string) :
  String d s ++ rest = String d (s ++ rest).
Proof. reflexivity. Qed.

Lemma append_empty (rest : string) : "" ++ rest = rest.
Proof. reflexivity. Qed.

Lemma upTo_append_clean (c : ascii) (s rest : string) :
  includes c s = false -> upTo c (s ++ String c rest) = s.
Proof.
  induction s as [|d s IH]; [rewrite append_empty|rewrite append_cons]; simpl.
  - now rewrite Ascii.eqb_refl.
  - destruct (Ascii.eqb d c); simpl; [discriminate|].
    intros H. now rewrite IH.
Qed.

Lemma upTo_append_early (c : ascii) (s rest : string) :
  includes c s = true -> upTo c (s ++ rest) = upTo c s.
Proof.
  induction s as [|d s IH]; [rewrite append_empty|rewrite append_cons]; simpl;
    [discriminate|].
  destruct (Ascii.eqb d c); simpl; [reflexivity|].
  intros H. now rewrite IH.
Qed.

Lemma upTo_clean (c : ascii) (s : string) : includes c (upTo c s) = false.
Proof.
  induction s as [|d s IH]; simpl; [reflexivity|].
  destruct (Ascii.eqb d c) eqn:E; simpl; [reflexivity|]. now rewrite E.
Qed.

Lemma prefix_append (s rest : string) : String.prefix s (s ++ rest) = true.
Proof.
  induction s as [|d s IH]; [rewrite append_empty|rewrite append_cons]; simpl.
  - now destruct rest.
  - destruct (ascii_dec d d); [exact IH|congruence].
Qed.

Lemma append_assoc (a b c : string) : (a ++ b) ++ c = a ++ (b ++ c).
Proof.
  induction a as [|d a IH]; [reflexivity|].
  rewrite !append_cons. now rewrite IH.
Qed.

End StringFacts.

Lemma event_id_stream (sid : string) (now : Z) (suffix : string) :
  JS.includes "_" sid = false ->
  EventStore.getStreamIdFromEventId (EventStore.generateEventId sid now suffix) = sid.
Proof.
  intros H. rewrite getStreamIdFromEventId_upTo. unfold EventStore.generateEventId.
  now apply (upTo_append_clean "_").
Qed.

(** C9.  An identifier made for a stream starts with the stream id and an
    underscore.  When the stream id has no underscore, the stream read back
    from the identifier is the stream id itself; when it has one, what is read
    back is the part of the stream id in front of its first underscore, which
    is not the stream id. *)
Theorem event_id_round_trip (sid : string) (now : Z) (suffix : string) :
  let eventId := EventStore.generateEventId sid now suffix in
  String.prefix (sid ++ "_") eventId = true /\
  (JS.includes "_" sid = false ->
     EventStore.getStreamIdFromEventId eventId = sid) /\
  (JS.includes "_" sid = true ->
     EventStore.getStreamIdFromEventId eventId = JS.upTo "_" sid /\
     JS.upTo "_" sid <> sid).
Proof.
  unfold EventStore.generateEventId. cbv zeta. split; [|split].
  - rewrite <- append_assoc. apply prefix_append.
  - apply event_id_stream.
  - intros H. rewrite getStreamIdFromEventId_upTo. split.
    + now apply upTo_append_early.
    + intros E. pose proof (upTo_clean "_" sid) as C. rewrite E in C. congruence.
Qed.

Lemma event_id_round_trip_witness :
  (JS.includes "_" "3f2a-77" = false /\
   EventStore.getStreamIdFromEventId
     (EventStore.generateEventId "3f2a-77" 1700000000000 "k3j2h1g0") = "3f2a-77") /\
  (JS.includes "_" "_GET_stream" = true /\
   EventStore.getStreamIdFromEventId
     (EventStore.generateEventId "_GET_stream" 1700000000000 "k3j2h1g0") = "").
Proof.
  split.
  - split; [reflexivity|].
    apply (proj1 (proj2 (event_id_round_trip "3f2a-77" 1700000000000 "k3j2h1g0"))).
    reflexivity.
  - split; [reflexivity|].
    apply (proj1 (proj2 (proj2
             (event_id_round_trip "_GET_stream" 1700000000000 "k3j2h1g0"))
             eq_refl)).
Defined.

(** ** Replay *)

Section ReplayFacts.
Import JS EventStore.
Context {M : Type} {collation : Collation}.
Implicit Types (events entries : Events M) (entry : string * StoredEvent M).

Lemma mapHas_In (k : string) (v : StoredEvent M) events :
  In (k, v) events -> mapHas k events = true.
Proof.
  unfold mapHas. induction events as [|[k' v'] rest IH]; simpl; [tauto|].
  intros [E|H].
  - inversion E; subst. now rewrite String.eqb_refl.
  - destruct (String.eqb k' k); [reflexivity|auto].
Qed.

Lemma keys_filter_NoDup (p : string * StoredEvent M -> bool) events :
  List.NoDup (keys events) -> List.NoDup (keys (List.filter p events)).
Proof.
  unfold keys. induction events as [|x rest IH]; simpl; intros H; [constructor|].
  apply NoDup_cons_iff in H as [Hx Hrest]. destruct (p x); simpl; auto.
  apply NoDup_cons_iff. split; auto.
  intros Hin. apply Hx. apply in_map_iff in Hin as [y [Ey Hy]].
  apply filter_In in Hy as [Hy _]. apply in_map_iff. eauto.
Qed.

Lemma replayLoop_filter (sid last : string) entries (found : bool) :
  replayLoop sid last entries found =
  replayLoop sid last (List.filter (ofStream sid) entries) found.
Proof.
  revert found. induction entries as [|[k e] rest IH]; intros found; simpl;
    [reflexivity|].
  unfold ofStream at 1. simpl.
  destruct (String.eqb (streamId e) sid) eqn:E; simpl.
  - rewrite E. simpl. destruct (String.eqb k last); [apply IH|].
    destruct found; [f_equal|]; apply IH.
  - apply IH.
Qed.

Lemma replayLoop_found (sid last : string) entries :
  Forall (fun entry => ofStream sid entry = true) entries ->
  ~ In last (keys entries) ->
  replayLoop sid last entries true = List.map delivery entries.
Proof.
  induction entries as [|[k e] rest IH]; simpl; intros Hall Hnot; [reflexivity|].
  inversion Hall as [|? ? Hx Hrest]; subst. unfold ofStream in Hx. simpl in Hx.
  rewrite Hx. simpl.
  destruct (String.eqb_spec k last) as [->|Hne]; [tauto|].
  unfold delivery at 1. simpl. f_equal. apply IH; tauto.
Qed.

Lemma replayLoop_at (sid : string) entries (k : nat) entry :
  Forall (fun entry => ofStream sid entry = true) entries ->
  List.NoDup (keys entries) ->
  nth_error entries k = Some entry ->
  replayLoop sid (fst entry) entries false = List.map delivery (skipn (S k) entries).
Proof.
  revert k. induction entries as [|[i e] rest IH]; intros k Hall Hnd Hk.
  - destruct k; discriminate.
  - inversion Hall as [|? ? Hx Hrest]; subst. unfold ofStream in Hx. simpl in Hx.
    simpl in Hnd. apply NoDup_cons_iff in Hnd as [Hi Hnd].
    destruct k as [|k]; simpl in Hk.
    + inversion Hk; subst. simpl. rewrite Hx, String.eqb_refl. simpl.
      now apply replayLoop_found.
    + simpl replayLoop. rewrite Hx. simpl negb. cbv iota.
      destruct (String.eqb_spec i (fst entry)) as [E|_].
      * exfalso. apply Hi. rewrite E. apply nth_error_In in Hk.
        unfold keys. apply in_map_iff. eauto.
      * change (skipn (S (S k)) ((i, e) :: rest)) with (skipn (S k) rest).
        now apply IH.
Qed.

Lemma replayLoop_from_store (sid last : string) entries (found : bool) (d : string * M) :
  In d (replayLoop sid last entries found) ->
  exists entry, In entry entries /\ d = delivery entry /\ fst entry <> last.
Proof.
  revert found. induction entries as [|[i e] rest IH]; intros found; simpl; [tauto|].
  destruct (negb (String.eqb (streamId e) sid)).
  - intros H. destruct (IH _ H) as [x [? ?]]. eauto.
  - destruct (String.eqb_spec i last) as [->|Hne].
    + intros H. destruct (IH _ H) as [x [? ?]]. eauto.
    + destruct found; simpl.
      * intros [<-|H]; [exists (i, e); auto|].
        destruct (IH _ H) as [x [? ?]]. eauto.
      * intros H. destruct (IH _ H) as [x [? ?]]. eauto.
Qed.

Lemma sorted_idBefore_notAfter entries :
  Sorted idBefore entries -> Sorted (notAfter byEventId) entries.
Proof.
  induction 1 as [|x l Hs IH Hd]; constructor; [assumption|].
  destruct Hd as [|y l Hxy]; constructor. unfold idBefore in Hxy.
  unfold notAfter. lia.
Qed.

Lemma generateEventId_nonempty (sid : string) (now : Z) (suffix : string) :
  generateEventId sid now suffix <> "".
Proof.
  unfold generateEventId. destruct sid; [rewrite append_empty|];
    rewrite append_cons; discriminate.
Qed.

End ReplayFacts.

(** C3.  A marker that is empty, is not a key of the store, or whose stream
    prefix is empty makes the replay answer the empty stream id without any
    call of [send]. *)
Theorem replay_unknown_marker {M : Type} {collation : JS.Collation}
    (events : EventStore.Events M) (lastEventId : string) :
  lastEventId = "" \/
  JS.mapHas lastEventId events = false \/
  EventStore.getStreamIdFromEventId lastEventId = "" ->
  EventStore.replayEventsAfter events lastEventId = ("", []).
Proof.
  unfold EventStore.replayEventsAfter. intros [->|[H|H]].
  - reflexivity.
  - rewrite H. now rewrite orb_true_r.
  - rewrite H. simpl. now destruct (_ || _).
Qed.

Lemma replay_unknown_marker_witness :
  let collation : JS.Collation := JS.codeUnits in
  let events :=
    [ ("_GET_stream_1700000000000_ab12cd34",
       EventStore.mkEvent "_GET_stream" 7%nat 1700000000000);
      ("s1_1700000000001_zz00yy11", EventStore.mkEvent "s1" 8%nat 1700000000001) ] in
  EventStore.replayEventsAfter events "" = ("", []) /\
  EventStore.replayEventsAfter events
    "s1_1600000000000_never000" = ("", []) /\
  EventStore.replayEventsAfter events
    "_GET_stream_1700000000000_ab12cd34" = ("", []).
Proof.
  cbv zeta. split; [|split].
  - apply replay_unknown_marker. left. reflexivity.
  - apply replay_unknown_marker. right. left. reflexivity.
  - apply replay_unknown_marker. right. right. reflexivity.
Defined.

(** C1 (as amended).  Let the stream id be non-empty and free of underscores,
    and let the identifiers of the stream's stored events increase strictly in
    arrival order under the comparison the replay sorts by, the host's
    [localeCompare], a consistent comparison function.  Then replaying after
    the identifier of the event at position [k], an identifier made for this
    stream, sends exactly the later events of the stream, in arrival order and
    nothing of another stream, and answers the stream id. *)
Theorem replay_after_marker {M : Type} {collation : JS.Collation}
    (events : EventStore.Events M) (sid : string)
    (k : nat) (marker : string * EventStore.StoredEvent M) (now : Z) (suffix : string) :
  JS.Consistent collation ->
  List.NoDup (JS.keys events) ->
  sid <> "" ->
  JS.includes "_" sid = false ->
  Sorted EventStore.idBefore (EventStore.streamEvents sid events) ->
  nth_error (EventStore.streamEvents sid events) k = Some marker ->
  fst marker = EventStore.generateEventId sid now suffix ->
  EventStore.replayEventsAfter events (fst marker) =
    (sid, List.map EventStore.delivery
            (skipn (S k) (EventStore.streamEvents sid events))).
Proof.
  intros Hcollation Hnd Hne Hclean Hsorted Hk Hid.
  unfold EventStore.replayEventsAfter.
  assert (Hin : In marker events).
  { apply nth_error_In in Hk. unfold EventStore.streamEvents in Hk.
    now apply filter_In in Hk as [? _]. }
  destruct marker as [i e]. simpl fst in *.
  rewrite (mapHas_In i e events Hin).
  destruct (String.eqb_spec i "") as [E|_].
  { exfalso. rewrite Hid in E. now apply generateEventId_nonempty in E. }
  simpl.
  assert (Hsid : EventStore.getStreamIdFromEventId i = sid).
  { rewrite Hid. now apply event_id_stream. }
  rewrite Hsid.
  destruct (String.eqb_spec sid "") as [E|_]; [contradiction|].
  f_equal.
  rewrite replayLoop_filter.
  rewrite (filter_sort EventStore.byEventId (byEventId_total Hcollation)
             (byEventId_trans Hcollation)).
  fold (EventStore.streamEvents sid events).
  rewrite (sort_already_sorted EventStore.byEventId)
    by now apply sorted_idBefore_notAfter.
  apply (replayLoop_at sid _ k (i, e)).
  - unfold EventStore.streamEvents. apply List.Forall_forall. intros x Hx.
    now apply filter_In in Hx as [_ ?].
  - now apply keys_filter_NoDup.
  - exact Hk.
Qed.

Lemma replay_after_marker_witness :
  let collation : JS.Collation := JS.codeUnits in
  let events :=
    [ ("s1_1700000000000_ab12cd34", EventStore.mkEvent "s1" 10%nat 1700000000000);
      ("s2_1700000000000_zz00zz00", EventStore.mkEvent "s2" 20%nat 1700000000000);
      ("s1_1700000000000_ab12cd35", EventStore.mkEvent "s1" 11%nat 1700000000000);
      ("s2_1700000000001_aa00aa00", EventStore.mkEvent "s2" 21%nat 1700000000001);
      ("s1_1700000000002_00000000", EventStore.mkEvent "s1" 12%nat 1700000000002) ] in
  EventStore.replayEventsAfter events
    "s1_1700000000000_ab12cd34" =
    ("s1", [ ("s1_1700000000000_ab12cd35", 11%nat); ("s1_1700000000002_00000000", 12%nat) ]).
Proof.
  cbv zeta.
  refine (replay_after_marker (collation := JS.codeUnits) _ "s1" 0
            ("s1_1700000000000_ab12cd34", EventStore.mkEvent "s1" 10%nat 1700000000000)
            1700000000000 "ab12cd34" _ _ _ _ _ _ _).
  - exact codeUnits_consistent.
  - repeat (apply List.NoDup_cons; [simpl; intuition discriminate|]).
    apply List.NoDup_nil.
  - discriminate.
  - reflexivity.
  - repeat (apply Sorted_cons; [|first [apply HdRel_nil | apply HdRel_cons; reflexivity]]).
    apply Sorted_nil.
  - reflexivity.
  - reflexivity.
Defined.

(** C1 (as stated) fails, whatever the collation.  A stream whose id begins
    with an underscore: its two events are stored in arrival order, yet the
    replay after the first answers the empty stream id and sends nothing.  And
    two events stored for one stream within the same millisecond: under every
    consistent collation that tells their identifiers apart, one of the two
    arrival orders is replayed against arrival, the replay after the first
    event sending nothing. *)
Lemma replay_arrival_order_counterexample :
  let first := EventStore.mkHost 1700000000000 1700000000000 1700000000000 "b" in
  let second := EventStore.mkHost 1700000000000 1700000000000 1700000000000 "a" in
  let later := EventStore.mkHost 1700000000005 1700000000005 1700000000005 "c" in
  (exists events e1 e2,
     EventStore.storeEvent [] "_GET_stream" 1%nat first = Some ([e1], fst e1) /\
     EventStore.storeEvent [e1] "_GET_stream" 2%nat later = Some (events, fst e2) /\
     EventStore.streamEvents "_GET_stream" events = [e1; e2] /\
     forall collation : JS.Collation,
       EventStore.replayEventsAfter events (fst e1) = ("", []) /\
       EventStore.replayEventsAfter events (fst e1) <>
         ("_GET_stream", List.map EventStore.delivery [e2])) /\
  (exists forth back b a,
     EventStore.storeEvent [] "s" 1%nat first = Some ([b], fst b) /\
     EventStore.storeEvent [b] "s" 2%nat second = Some (forth, fst a) /\
     EventStore.streamEvents "s" forth = [b; a] /\
     EventStore.storeEvent [] "s" 2%nat second = Some ([a], fst a) /\
     EventStore.storeEvent [a] "s" 1%nat first = Some (back, fst b) /\
     EventStore.streamEvents "s" back = [a; b] /\
     forall collation : JS.Collation,
       JS.Consistent collation ->
       JS.localeCompare (fst b) (fst a) <> 0%Z ->
       EventStore.replayEventsAfter forth (fst b) = ("s", []) \/
       EventStore.replayEventsAfter back (fst a) = ("s", [])).
Proof.
  cbv zeta. split.
  - exists [ ("_GET_stream_1700000000000_b",
              EventStore.mkEvent "_GET_stream" 1%nat 1700000000000);
             ("_GET_stream_1700000000005_c",
              EventStore.mkEvent "_GET_stream" 2%nat 1700000000005) ],
           ("_GET_stream_1700000000000_b",
            EventStore.mkEvent "_GET_stream" 1%nat 1700000000000),
           ("_GET_stream_1700000000005_c",
            EventStore.mkEvent "_GET_stream" 2%nat 1700000000005).
    repeat split; try (vm_compute; reflexivity). discriminate.
  - exists [ ("s_1700000000000_b", EventStore.mkEvent "s" 1%nat 1700000000000);
             ("s_1700000000000_a", EventStore.mkEvent "s" 2%nat 1700000000000) ],
           [ ("s_1700000000000_a", EventStore.mkEvent "s" 2%nat 1700000000000);
             ("s_1700000000000_b", EventStore.mkEvent "s" 1%nat 1700000000000) ],
           ("s_1700000000000_b", EventStore.mkEvent "s" 1%nat 1700000000000),
           ("s_1700000000000_a", EventStore.mkEvent "s" 2%nat 1700000000000).
    repeat split; try (vm_compute; reflexivity).
    intros collation [Hswap _] Hapart.
    unfold EventStore.replayEventsAfter. simpl.
    unfold EventStore.byEventId. simpl. simpl in Hapart.
    pose proof (Hswap "s_1700000000000_b" "s_1700000000000_a") as Hopposite.
    assert (H : (0 < JS.localeCompare "s_1700000000000_b" "s_1700000000000_a")%Z \/
                (0 < JS.localeCompare "s_1700000000000_a" "s_1700000000000_b")%Z)
      by lia.
    clear Hopposite Hapart. destruct H as [H|H]; [left|right].
    + destruct (Z.leb_spec (JS.localeCompare "s_1700000000000_b" "s_1700000000000_a") 0);
        [lia|reflexivity].
    + destruct (Z.leb_spec (JS.localeCompare "s_1700000000000_a" "s_1700000000000_b") 0);
        [lia|reflexivity].
Qed.

(** ** Eviction *)

Section MapFacts.
Import JS.
Context {V : Type}.
Implicit Types (m : OrderedMap V).

Lemma mapGet_mapSet_same (k : string) (v : V) m : mapGet k (mapSet k v m) = Some v.
Proof.
  induction m as [|[k' v'] rest IH]; simpl.
  - now rewrite String.eqb_refl.
  - destruct (String.eqb k' k) eqn:E; simpl.
    + now rewrite String.eqb_refl.
    + now rewrite E.
Qed.

Lemma mapGet_mapSet_other (k k' : string) (v : V) m :
  k <> k' -> mapGet k' (mapSet k v m) = mapGet k' m.
Proof.
  intros Hne. induction m as [|[j w] rest IH]; simpl.
  - destruct (String.eqb_spec k k'); [contradiction|reflexivity].
  - destruct (String.eqb_spec j k) as [->|Hj]; simpl.
    + destruct (String.eqb_spec k k'); [contradiction|reflexivity].
    + now rewrite IH.
Qed.

Lemma keys_mapSet_In (k j : string) (v : V) m :
  In j (keys (mapSet k v m)) <-> j = k \/ In j (keys m).
Proof.
  unfold keys. induction m as [|[i w] rest IH]; simpl.
  - intuition.
  - destruct (String.eqb_spec i k) as [->|Hi]; simpl; [intuition|].
    rewrite IH. intuition.
Qed.

Lemma keys_mapSet_NoDup (k : string) (v : V) m :
  List.NoDup (keys m) -> List.NoDup (keys (mapSet k v m)).
Proof.
  induction m as [|[i w] rest IH]; simpl; intros H.
  - constructor; [simpl; tauto|constructor].
  - apply NoDup_cons_iff in H as [Hi Hrest].
    destruct (String.eqb_spec i k) as [->|Hne]; simpl.
    + now constructor.
    + constructor; [|now apply IH].
      intros Hin. apply (keys_mapSet_In k i v rest) in Hin as [E|Hin]; auto.
Qed.

Lemma mapGet_In (k : string) (v : V) m :
  List.NoDup (keys m) -> In (k, v) m -> mapGet k m = Some v.
Proof.
  induction m as [|[i w] rest IH]; simpl; intros Hnd Hin; [tauto|].
  apply NoDup_cons_iff in Hnd as [Hi Hrest].
  destruct Hin as [E|Hin].
  - inversion E; subst. now rewrite String.eqb_refl.
  - destruct (String.eqb_spec i k) as [->|_]; [|auto].
    exfalso. apply Hi. unfold keys. apply in_map_iff. now exists (k, v).
Qed.

Lemma mapGet_None_keys (k : string) m : mapGet k m = None -> ~ In k (keys m).
Proof.
  induction m as [|[i w] rest IH]; simpl; [tauto|].
  destruct (String.eqb_spec i k) as [->|Hne]; [discriminate|].
  intros H [E|Hin]; [contradiction|]. now apply IH.
Qed.

Lemma mapGet_Some_In (k : string) (v : V) m : mapGet k m = Some v -> In (k, v) m.
Proof.
  induction m as [|[i w] rest IH]; simpl; [discriminate|].
  destruct (String.eqb_spec i k) as [->|Hne].
  - intros E. inversion E. now left.
  - intros H. right. now apply IH.
Qed.

Lemma hasKey_In (k : string) m : hasKey k m = true <-> In k (keys m).
Proof.
  unfold hasKey. rewrite existsb_exists. split.
  - intros [j [Hj E]]. apply String.eqb_eq in E. now subst.
  - intros H. exists k. split; [assumption|apply String.eqb_refl].
Qed.

Lemma hasKey_false (k : string) m : hasKey k m = false <-> ~ In k (keys m).
Proof.
  rewrite <- hasKey_In. destruct (hasKey k m); intuition congruence.
Qed.

Lemma hasKey_cons (k : string) (entry : string * V) m :
  hasKey k (entry :: m) = String.eqb k (fst entry) || hasKey k m.
Proof. reflexivity. Qed.

Lemma mapDelete_filter (k : string) m :
  List.NoDup (keys m) ->
  mapDelete k m = List.filter (fun entry => negb (String.eqb (fst entry) k)) m.
Proof.
  induction m as [|[i w] rest IH]; simpl; intros H; [reflexivity|].
  apply NoDup_cons_iff in H as [Hi Hrest].
  destruct (String.eqb_spec i k) as [->|Hne]; simpl.
  - symmetry. rewrite <- (List.filter_ext_in (fun _ => true)).
    + clear. induction rest as [|x rest IH]; simpl; congruence.
    + intros [j u] Hin. simpl. destruct (String.eqb_spec j k) as [->|_]; [|reflexivity].
      exfalso. apply Hi. unfold keys. apply in_map_iff. now exists (k, u).
  - now rewrite IH.
Qed.

Lemma mapSet_fresh (k : string) (v : V) m :
  mapHas k m = false -> mapSet k v m = (m ++ [(k, v)])%list.
Proof.
  unfold mapHas. induction m as [|[i w] rest IH]; simpl; [reflexivity|].
  destruct (String.eqb i k); [discriminate|]. intros H. now rewrite IH.
Qed.

End MapFacts.

Section ListFacts.
Context {A : Type}.

Lemma filter_all (p : A -> bool) (l : list A) :
  (forall x, In x l -> p x = true) -> List.filter p l = l.
Proof.
  induction l as [|x l IH]; simpl; intros H; [reflexivity|].
  rewrite (H x) by now left. f_equal. apply IH. intros y Hy. apply H. now right.
Qed.

Lemma filter_swap (p q : A -> bool) (l : list A) :
  List.filter p (List.filter q l) = List.filter q (List.filter p l).
Proof.
  induction l as [|x l IH]; simpl; [reflexivity|].
  destruct (q x) eqn:Q, (p x) eqn:P; simpl; rewrite ?Q, ?P, IH; reflexivity.
Qed.

Lemma filter_and (p q : A -> bool) (l : list A) :
  List.filter p (List.filter q l) = List.filter (fun x => q x && p x) l.
Proof.
  induction l as [|x l IH]; simpl; [reflexivity|].
  destruct (q x); simpl; [destruct (p x)|]; rewrite IH; reflexivity.
Qed.

Lemma In_firstn (n : nat) (l : list A) (x : A) : In x (firstn n l) -> In x l.
Proof.
  intros H. rewrite <- (firstn_skipn n l). apply in_or_app. now left.
Qed.

Lemma In_skipn (n : nat) (l : list A) (x : A) : In x (skipn n l) -> In x l.
Proof.
  intros H. rewrite <- (firstn_skipn n l). apply in_or_app. now right.
Qed.

Lemma filter_length_le (p : A -> bool) (l : list A) :
  List.length (List.filter p l) <= List.length l.
Proof.
  induction l as [|x l IH]; simpl; [lia|]. destruct (p x); simpl; lia.
Qed.

End ListFacts.

Section EvictionFacts.
Import JS EventStore.
Context {M : Type}.
Implicit Types (events kept : Events M) (counts : OrderedMap nat).

Lemma sweepAges_kept (now : Z) events counts :
  fst (sweepAges now events counts) = retained now events.
Proof.
  revert counts. induction events as [|[i e] rest IH]; intros counts; simpl;
    [reflexivity|].
  unfold retained. simpl. destruct (expired now e); simpl; [apply IH|].
  specialize (IH (mapSet (streamId e)
                    (match mapGet (streamId e) counts with
                     | Some c => c | None => 0 end + 1) counts)).
  destruct (sweepAges now rest _) as [kept counts']. simpl in *. now rewrite IH.
Qed.

Lemma countOf_cons (s : string) (entry : string * StoredEvent M) events :
  countOf s (entry :: events) =
  (if String.eqb (streamId (snd entry)) s then 1 else 0) + countOf s events.
Proof.
  unfold countOf, streamEvents. simpl. unfold ofStream at 1.
  now destruct (String.eqb (streamId (snd entry)) s).
Qed.

Lemma sweepAges_counts (now : Z) events counts :
  List.NoDup (keys counts) ->
  List.NoDup (keys (snd (sweepAges now events counts))) /\
  forall s,
    default 0 (mapGet s (snd (sweepAges now events counts))) =
    default 0 (mapGet s counts) + countOf s (retained now events).
Proof.
  revert counts. induction events as [|[i e] rest IH]; intros counts Hnd; simpl.
  - split; [assumption|]. intros s. unfold countOf. simpl. lia.
  - unfold retained. simpl. destruct (expired now e) eqn:X; simpl.
    + apply IH, Hnd.
    + set (c := match mapGet (streamId e) counts with Some c => c | None => 0 end).
      specialize (IH (mapSet (streamId e) (c + 1) counts)
                     (keys_mapSet_NoDup _ _ _ Hnd)).
      destruct (sweepAges now rest _) as [kept counts'] eqn:E. simpl in *.
      destruct IH as [Hnd' Hget]. split; [assumption|]. intros s.
      rewrite Hget. fold (retained now rest). rewrite countOf_cons. simpl.
      destruct (String.eqb_spec (streamId e) s) as [<-|Hne].
      * rewrite mapGet_mapSet_same. simpl. subst c.
        destruct (mapGet (streamId e) counts); simpl; lia.
      * rewrite mapGet_mapSet_other by assumption. lia.
Qed.

Lemma deleteOldest_filter (n : nat) (oldest events : Events M) :
  n <= List.length oldest ->
  List.NoDup (keys events) ->
  deleteOldest n oldest events =
  Some (List.filter (fun entry => negb (hasKey (fst entry) (firstn n oldest))) events).
Proof.
  revert oldest events. induction n as [|n IH]; intros oldest events Hlen Hnd; simpl.
  - now rewrite filter_all.
  - destruct oldest as [|[i e] rest]; simpl in Hlen; [lia|].
    rewrite IH; [|lia|].
    + f_equal. rewrite mapDelete_filter by assumption. rewrite filter_and.
      apply List.filter_ext. intros [j u]. simpl. rewrite hasKey_cons. simpl.
      rewrite negb_orb. rewrite (String.eqb_sym j i). reflexivity.
    + rewrite mapDelete_filter by assumption. now apply keys_filter_NoDup.
Qed.

Lemma surplus_empty (s : string) events :
  countOf s events <= maxEventsPerStream -> surplus s events = [].
Proof.
  intros H. unfold surplus.
  replace (countOf s events - maxEventsPerStream) with 0 by lia. reflexivity.
Qed.

Lemma trimmed_within_cap (s : string) events :
  countOf s events <= maxEventsPerStream -> trimmed s events = events.
Proof.
  intros H. unfold trimmed. rewrite surplus_empty by assumption.
  now apply filter_all.
Qed.

Lemma trimStream_trimmed (s : string) events :
  List.NoDup (keys events) ->
  trimStream events s (countOf s events) = Some (trimmed s events).
Proof.
  intros Hnd. unfold trimStream.
  destruct (Nat.ltb_spec maxEventsPerStream (countOf s events)) as [Hlt|Hle].
  - rewrite deleteOldest_filter; [reflexivity| |assumption].
    rewrite (Permutation_length (sort_perm byTimestamp _)).
    unfold countOf, streamEvents in *. lia.
  - now rewrite trimmed_within_cap.
Qed.

Lemma surplus_of_stream (s : string) events (entry : string * StoredEvent M) :
  In entry (surplus s events) -> In entry events /\ ofStream s entry = true.
Proof.
  unfold surplus. intros H. apply In_firstn in H.
  apply (Permutation_in _ (sort_perm byTimestamp _)) in H.
  unfold streamEvents in H. now apply filter_In in H.
Qed.

Lemma keys_In_unique events (a b : string * StoredEvent M) :
  List.NoDup (keys events) -> In a events -> In b events -> fst a = fst b -> a = b.
Proof.
  induction events as [|x rest IH]; simpl; intros Hnd Ha Hb E; [tauto|].
  apply NoDup_cons_iff in Hnd as [Hx Hrest].
  assert (Hk : forall y, In y rest -> fst y <> fst x).
  { intros y Hy Ey. apply Hx. rewrite <- Ey. unfold keys. now apply in_map. }
  destruct Ha as [<-|Ha], Hb as [<-|Hb]; auto.
  - exfalso. now apply (Hk b).
  - exfalso. apply (Hk a); auto.
Qed.

Lemma trimmed_other_stream (s s' : string) events :
  List.NoDup (keys events) -> s' <> s ->
  streamEvents s' (trimmed s events) = streamEvents s' events.
Proof.
  intros Hnd Hne. unfold streamEvents, trimmed. rewrite filter_swap.
  apply filter_all. intros x Hx. apply filter_In in Hx as [Hin Hs'].
  apply negb_true_iff, hasKey_false. intros Hk.
  apply in_map_iff in Hk as [y [Ey Hy]].
  apply surplus_of_stream in Hy as [Hy Hs].
  assert (y = x) by (eapply keys_In_unique; eauto). subst y.
  unfold ofStream in *. apply String.eqb_eq in Hs, Hs'. congruence.
Qed.

Lemma trimmed_NoDup (s : string) events :
  List.NoDup (keys events) -> List.NoDup (keys (trimmed s events)).
Proof. apply keys_filter_NoDup. Qed.

Lemma trimmed_incl (s : string) events (x : string * StoredEvent M) :
  In x (trimmed s events) -> In x events.
Proof. unfold trimmed. intros H. now apply filter_In in H. Qed.

Lemma drop_leading_keys (n : nat) (l : Events M) :
  List.NoDup (keys l) ->
  List.filter (fun entry => negb (hasKey (fst entry) (firstn n l))) l = skipn n l.
Proof.
  revert l. induction n as [|n IH]; intros l Hnd.
  - simpl. now apply filter_all.
  - destruct l as [|x rest]; [reflexivity|].
    simpl in Hnd. apply NoDup_cons_iff in Hnd as [Hx Hrest].
    simpl firstn. simpl skipn. simpl List.filter.
    rewrite hasKey_cons, String.eqb_refl. simpl.
    rewrite <- (IH rest Hrest). apply List.filter_ext_in.
    intros y Hy. rewrite hasKey_cons.
    destruct (String.eqb_spec (fst y) (fst x)) as [E|_]; [|reflexivity].
    exfalso. apply Hx. rewrite <- E. unfold keys. now apply in_map.
Qed.

(** Oldest first, the stream keeps what lies behind its surplus. *)
Lemma trimmed_stream_sorted (s : string) events :
  List.NoDup (keys events) ->
  sort byTimestamp (streamEvents s (trimmed s events)) =
  skipn (countOf s events - maxEventsPerStream)
        (sort byTimestamp (streamEvents s events)).
Proof.
  intros Hnd. unfold streamEvents at 1. unfold trimmed. rewrite filter_swap.
  fold (streamEvents s events).
  rewrite <- (filter_sort byTimestamp byTimestamp_total byTimestamp_trans).
  unfold surplus. apply drop_leading_keys.
  eapply Permutation_NoDup.
  - apply Permutation_map. symmetry. apply sort_perm.
  - apply (keys_filter_NoDup _ _ Hnd).
Qed.

Lemma trimmed_count (s : string) events :
  List.NoDup (keys events) ->
  countOf s (trimmed s events) = Nat.min (countOf s events) maxEventsPerStream.
Proof.
  intros Hnd. unfold countOf at 1.
  rewrite <- (Permutation_length (sort_perm byTimestamp _)).
  rewrite trimmed_stream_sorted by assumption.
  rewrite length_skipn, (Permutation_length (sort_perm byTimestamp _)).
  unfold countOf, streamEvents. lia.
Qed.

Lemma surplus_congr (s : string) events kept :
  streamEvents s kept = streamEvents s events -> surplus s kept = surplus s events.
Proof. unfold surplus, countOf. now intros ->. Qed.

Lemma streamEvents_trimmed (s : string) events :
  streamEvents s (trimmed s events) =
  List.filter (fun entry => negb (hasKey (fst entry) (surplus s events)))
              (streamEvents s events).
Proof. unfold streamEvents, trimmed. apply filter_swap. Qed.

Lemma trimStreams_spec counts events :
  List.NoDup (keys counts) ->
  List.NoDup (keys events) ->
  (forall s c, In (s, c) counts -> c = countOf s events) ->
  exists kept,
    trimStreams counts events = Some kept /\
    List.NoDup (keys kept) /\
    forall s, streamEvents s kept =
              streamEvents s (if hasKey s counts then trimmed s events else events).
Proof.
  revert events. induction counts as [|[s0 c0] rest IH]; intros events Hc He Hcount.
  - exists events. simpl. auto.
  - simpl in Hc. apply NoDup_cons_iff in Hc as [Hs0 Hrest].
    simpl. rewrite (Hcount s0 c0) by now left.
    rewrite trimStream_trimmed by assumption.
    destruct (IH (trimmed s0 events) Hrest (trimmed_NoDup s0 events He))
      as [kept [Hrun [Hnd Hstreams]]].
    { intros s c Hin. unfold countOf. rewrite trimmed_other_stream; auto.
      - apply Hcount. now right.
      - intros ->. apply Hs0. unfold keys. apply in_map_iff. now exists (s0, c). }
    exists kept. split; [assumption|]. split; [assumption|].
    intros s. rewrite Hstreams, hasKey_cons. simpl.
    destruct (String.eqb_spec s s0) as [->|Hne]; simpl.
    + apply hasKey_false in Hs0. now rewrite Hs0.
    + destruct (hasKey s rest).
      * rewrite !streamEvents_trimmed.
        rewrite (surplus_congr s events (trimmed s0 events))
          by now apply trimmed_other_stream.
        now rewrite trimmed_other_stream.
      * now apply trimmed_other_stream.
Qed.

Lemma cleanupOldEvents_spec (now : Z) events :
  List.NoDup (keys events) ->
  exists kept,
    cleanupOldEvents now events = Some kept /\
    List.NoDup (keys kept) /\
    forall s, streamEvents s kept = streamEvents s (trimmed s (retained now events)).
Proof.
  intros Hnd. unfold cleanupOldEvents.
  pose proof (sweepAges_kept now events []) as Hkept.
  destruct (sweepAges_counts now events [] (List.NoDup_nil _)) as [Hc Hget].
  destruct (sweepAges now events []) as [kept counts]. simpl in *. subst kept.
  destruct (trimStreams_spec counts (retained now events) Hc) as [kept [Hrun [Hk Hs]]].
  - now apply keys_filter_NoDup.
  - intros s c Hin. specialize (Hget s).
    rewrite (mapGet_In s c counts Hc Hin) in Hget. simpl in Hget. lia.
  - exists kept. split; [assumption|]. split; [assumption|].
    intros s. rewrite Hs. destruct (hasKey s counts) eqn:E; [reflexivity|].
    rewrite trimmed_within_cap; [reflexivity|].
    specialize (Hget s). apply hasKey_false in E.
    destruct (mapGet s counts) as [c|] eqn:G.
    + exfalso. apply E. apply mapGet_Some_In in G. unfold keys.
      apply in_map_iff. now exists (s, c).
    + simpl in Hget. rewrite <- Hget. apply Nat.le_0_l.
Qed.

Lemma storeEvent_spec events (sid : string) (msg : M) (h : Host) :
  List.NoDup (keys events) ->
  exists kept,
    storeEvent events sid msg h =
      Some (kept, generateEventId sid (idClock h) (randomSuffix h)) /\
    List.NoDup (keys kept) /\
    forall s,
      streamEvents s kept =
      streamEvents s
        (trimmed s
           (retained (sweepClock h)
              (mapSet (generateEventId sid (idClock h) (randomSuffix h))
                      (mkEvent sid msg (stampClock h)) events))).
Proof.
  intros Hnd. unfold storeEvent.
  destruct (cleanupOldEvents_spec (sweepClock h)
              (mapSet (generateEventId sid (idClock h) (randomSuffix h))
                      (mkEvent sid msg (stampClock h)) events))
    as [kept [Hrun [Hk Hs]]].
  - now apply keys_mapSet_NoDup.
  - exists kept. rewrite Hrun. auto.
Qed.

Lemma stream_member (entry : string * StoredEvent M) events :
  In entry events -> In entry (streamEvents (streamId (snd entry)) events).
Proof.
  intros H. unfold streamEvents. apply filter_In. split; [assumption|].
  unfold ofStream. apply String.eqb_refl.
Qed.

End EvictionFacts.

Section StoreFacts.
Import JS EventStore.
Context {M : Type} {collation : Collation}.
Implicit Types (events kept : Events M).

Lemma mapSet_In (k : string) (v : StoredEvent M) events (x : string * StoredEvent M) :
  In x (mapSet k v events) -> x = (k, v) \/ In x events.
Proof.
  induction events as [|[i w] rest IH]; simpl.
  - intuition.
  - destruct (String.eqb i k); simpl; intuition.
Qed.

Lemma sorted_split_order (R : string * StoredEvent M -> string * StoredEvent M -> Prop)
    (n : nat) (l : Events M) (a b : string * StoredEvent M) :
  StronglySorted R l -> In a (firstn n l) -> In b (skipn n l) -> R a b.
Proof.
  revert l. induction n as [|n IH]; intros l Hs Ha Hb; simpl in Ha; [tauto|].
  destruct l as [|x rest]; simpl in *; [tauto|].
  inversion Hs as [|? ? Hrest Hall]; subst.
  destruct Ha as [<-|Ha].
  - rewrite List.Forall_forall in Hall. apply Hall. eapply In_skipn; eauto.
  - now apply (IH rest).
Qed.

Lemma retained_In (now : Z) events (x : string * StoredEvent M) :
  In x (retained now events) <->
  In x events /\ (now - timestamp (snd x) <= maxAge)%Z.
Proof.
  unfold retained. rewrite filter_In. unfold expired.
  destruct (Z.gtb_spec (now - timestamp (snd x)) maxAge); simpl;
    intuition (try lia; try discriminate).
Qed.

Lemma stored_within_window events (sid : string) (msg : M) (h : Host) kept (id : string)
    (x : string * StoredEvent M) :
  List.NoDup (keys events) ->
  storeEvent events sid msg h = Some (kept, id) ->
  In x kept ->
  In x (mapSet (generateEventId sid (idClock h) (randomSuffix h))
               (mkEvent sid msg (stampClock h)) events) /\
  (sweepClock h - timestamp (snd x) <= maxAge)%Z.
Proof.
  intros Hnd Hrun Hin.
  destruct (storeEvent_spec events sid msg h Hnd) as [kept' [Hrun' [_ Hs]]].
  rewrite Hrun in Hrun'. inversion Hrun'; subst kept'. clear Hrun'.
  apply stream_member in Hin. rewrite Hs in Hin.
  unfold streamEvents in Hin. apply filter_In in Hin as [Hin _].
  apply trimmed_incl in Hin. now apply retained_In in Hin.
Qed.

Lemma replay_from_store events (last : string) (d : string * M) :
  In d (snd (replayEventsAfter events last)) ->
  exists entry, In entry events /\ d = delivery entry.
Proof.
  unfold replayEventsAfter.
  destruct (String.eqb last "" || negb (mapHas last events)); simpl; [tauto|].
  destruct (String.eqb (getStreamIdFromEventId last) ""); simpl; [tauto|].
  intros H. apply replayLoop_from_store in H as [entry [Hin [E _]]].
  exists entry. split; [|assumption].
  eapply Permutation_in; [apply sort_perm|eassumption].
Qed.

Lemma storeEvent_keys events (sid : string) (msg : M) (h : Host) kept (id k : string) :
  List.NoDup (keys events) ->
  storeEvent events sid msg h = Some (kept, id) ->
  In k (keys kept) ->
  k = generateEventId sid (idClock h) (randomSuffix h) \/ In k (keys events).
Proof.
  intros Hnd Hrun Hk. unfold keys in Hk. apply in_map_iff in Hk as [x [<- Hx]].
  destruct (stored_within_window events sid msg h kept id x Hnd Hrun Hx) as [Hset _].
  apply mapSet_In in Hset as [->|Hin]; [now left|].
  right. unfold keys. now apply in_map.
Qed.

(** A sequence of stores returns, and brings no key but those it makes. *)
Lemma storeEvents_keys (requests : list (string * M * Host)) events (k : string) :
  List.NoDup (keys events) ->
  ~ In k (keys events) ->
  Forall (fun request =>
            generateEventId (fst (fst request)) (idClock (snd request))
                            (randomSuffix (snd request)) <> k) requests ->
  exists later,
    storeEvents events requests = Some later /\
    List.NoDup (keys later) /\ ~ In k (keys later).
Proof.
  revert events. induction requests as [|[[sid msg] h] rest IH];
    intros events Hnd Hk Hall; simpl.
  - eauto.
  - inversion Hall as [|? ? Hhead Hrest]; subst. simpl in Hhead.
    destruct (storeEvent_spec events sid msg h Hnd) as [kept [Hrun [Hkept _]]].
    rewrite Hrun. apply IH; [assumption| |assumption].
    intros Hin. apply (storeEvent_keys events sid msg h kept _ k Hnd Hrun) in Hin.
    destruct Hin as [E|Hin]; [now apply Hhead|now apply Hk].
Qed.

Lemma replay_keys events (last k : string) :
  In k (List.map fst (snd (replayEventsAfter events last))) -> In k (keys events).
Proof.
  intros H. apply in_map_iff in H as [d [<- Hd]].
  apply replay_from_store in Hd as [entry [Hentry ->]].
  unfold keys. apply in_map_iff. exists entry. split; [reflexivity|assumption].
Qed.

End StoreFacts.

(** C2 (as amended).  [storeEvent] always returns, and afterwards no stream
    holds more than the cap.  With [unexpired] the entries, the new one
    included, that the age rule leaves: a stream holds the smaller of its
    unexpired count and the cap; a stream within the cap keeps all its
    unexpired entries; oldest timestamp first, a stream keeps what lies behind
    its surplus, so whatever was dropped is no younger than whatever stays; and
    a stream other than the written one that was within the cap keeps exactly
    its entries that have not expired. *)
Theorem store_keeps_stream_cap {M : Type} (events : EventStore.Events M)
    (sid : string) (msg : M) (h : EventStore.Host) :
  List.NoDup (JS.keys events) ->
  let eventId :=
    EventStore.generateEventId sid (EventStore.idClock h) (EventStore.randomSuffix h) in
  let unexpired :=
    EventStore.retained (EventStore.sweepClock h)
      (JS.mapSet eventId (EventStore.mkEvent sid msg (EventStore.stampClock h)) events) in
  exists kept,
    EventStore.storeEvent events sid msg h = Some (kept, eventId) /\
    forall s,
      EventStore.countOf s kept <= EventStore.maxEventsPerStream /\
      EventStore.countOf s kept =
        Nat.min (EventStore.countOf s unexpired) EventStore.maxEventsPerStream /\
      (EventStore.countOf s unexpired <= EventStore.maxEventsPerStream ->
         EventStore.streamEvents s kept = EventStore.streamEvents s unexpired) /\
      JS.sort EventStore.byTimestamp (EventStore.streamEvents s kept) =
        skipn (EventStore.countOf s unexpired - EventStore.maxEventsPerStream)
              (JS.sort EventStore.byTimestamp (EventStore.streamEvents s unexpired)) /\
      (forall old new,
         In old (EventStore.surplus s unexpired) ->
         In new (EventStore.streamEvents s kept) ->
         (EventStore.timestamp (snd old) <= EventStore.timestamp (snd new))%Z) /\
      (s <> sid ->
       JS.mapHas eventId events = false ->
       EventStore.countOf s events <= EventStore.maxEventsPerStream ->
       EventStore.streamEvents s kept =
         EventStore.retained (EventStore.sweepClock h) (EventStore.streamEvents s events)).
Proof.
  intros Hnd eventId unexpired.
  destruct (storeEvent_spec events sid msg h Hnd) as [kept [Hrun [Hk Hs]]].
  fold eventId in Hrun, Hs. fold unexpired in Hs.
  assert (Hu : List.NoDup (JS.keys unexpired)).
  { apply keys_filter_NoDup. now apply keys_mapSet_NoDup. }
  assert (Hcount : forall s, EventStore.countOf s kept =
            Nat.min (EventStore.countOf s unexpired) EventStore.maxEventsPerStream).
  { intros s. unfold EventStore.countOf at 1. rewrite Hs.
    now apply trimmed_count. }
  assert (Hsorted : forall s,
            JS.sort EventStore.byTimestamp (EventStore.streamEvents s kept) =
            skipn (EventStore.countOf s unexpired - EventStore.maxEventsPerStream)
              (JS.sort EventStore.byTimestamp (EventStore.streamEvents s unexpired))).
  { intros s. rewrite Hs. now apply trimmed_stream_sorted. }
  assert (Hwithin : forall s,
            EventStore.countOf s unexpired <= EventStore.maxEventsPerStream ->
            EventStore.streamEvents s kept = EventStore.streamEvents s unexpired).
  { intros s Hle. rewrite Hs. now rewrite trimmed_within_cap. }
  exists kept. split; [exact Hrun|]. intros s.
  split; [rewrite Hcount; lia|].
  split; [apply Hcount|].
  split; [apply Hwithin|].
  split; [apply Hsorted|].
  split.
  - intros old new Hold Hnew.
    apply (Permutation_in _ (Permutation_sym (sort_perm EventStore.byTimestamp _)))
      in Hnew.
    rewrite Hsorted in Hnew.
    pose proof (sorted_split_order (JS.notAfter EventStore.byTimestamp) _ _ old new
                  (sort_sorted EventStore.byTimestamp byTimestamp_total
                     byTimestamp_trans _) Hold Hnew) as H.
    unfold JS.notAfter, EventStore.byTimestamp in H. lia.
  - intros Hne Hfresh Hcap.
    assert (E : EventStore.streamEvents s unexpired =
                EventStore.retained (EventStore.sweepClock h)
                  (EventStore.streamEvents s events)).
    { unfold unexpired. rewrite (mapSet_fresh _ _ _ Hfresh).
      unfold EventStore.retained, EventStore.streamEvents.
      rewrite filter_swap, List.filter_app. simpl.
      unfold EventStore.ofStream at 2. simpl.
      destruct (String.eqb_spec sid s) as [E|_]; [congruence|].
      now rewrite app_nil_r. }
    rewrite Hwithin; [exact E|].
    unfold EventStore.countOf at 1. rewrite E.
    unfold EventStore.retained.
    etransitivity; [apply filter_length_le|exact Hcap].
Qed.

Lemma store_keeps_stream_cap_witness :
  let events :=
    [ ("s1_1700000000000_aa", EventStore.mkEvent "s1" 1%nat 1700000000000);
      ("s2_1700000000001_bb", EventStore.mkEvent "s2" 2%nat 1700000000001) ] in
  let h := EventStore.mkHost 1700000000002 1700000000002 1700000000003 "cc" in
  exists kept,
    EventStore.storeEvent events "s1" 3%nat h = Some (kept, "s1_1700000000002_cc") /\
    (forall s, EventStore.countOf s kept <= EventStore.maxEventsPerStream) /\
    EventStore.streamEvents "s2" kept =
      [ ("s2_1700000000001_bb", EventStore.mkEvent "s2" 2%nat 1700000000001) ].
Proof.
  cbv zeta.
  destruct (store_keeps_stream_cap
              [ ("s1_1700000000000_aa", EventStore.mkEvent "s1" 1%nat 1700000000000);
                ("s2_1700000000001_bb", EventStore.mkEvent "s2" 2%nat 1700000000001) ]
              "s1" 3%nat
              (EventStore.mkHost 1700000000002 1700000000002 1700000000003 "cc"))
    as [kept [Hrun Hall]].
  - repeat (apply List.NoDup_cons; [simpl; intuition discriminate|]).
    apply List.NoDup_nil.
  - exists kept. split; [exact Hrun|]. split.
    + intros s. apply (Hall s).
    + destruct (Hall "s2") as [_ [_ [_ [_ [_ Hother]]]]].
      rewrite Hother; [reflexivity|discriminate|reflexivity|].
      unfold EventStore.countOf, EventStore.maxEventsPerStream. simpl. lia.
Defined.

(** *** Stores that evict nothing *)

Section AppendFacts.
Import JS EventStore.
Context {M : Type}.
Implicit Types (events : Events M) (requests : list (string * M * Host)).

Lemma string_compare_lt_trans (a b c : string) :
  String.compare a b = Lt -> String.compare b c = Lt -> String.compare a c = Lt.
Proof.
  intros Hab Hbc.
  pose proof (string_compare_not_gt_trans a b c) as T.
  destruct (String.compare a c) eqn:E.
  - apply String.compare_eq_iff in E. subst c.
    rewrite String.compare_antisym, Hab in Hbc. discriminate.
  - reflexivity.
  - exfalso. apply T; congruence.
Qed.

Lemma increasing_below (a : string) (l : list string) :
  increasing (a :: l) = true -> Forall (fun b => String.compare a b = Lt) l.
Proof.
  revert a. induction l as [|b l IH]; intros a H; [constructor|].
  simpl in H. apply andb_prop in H as [Hab Hrest].
  unfold String.ltb in Hab. destruct (String.compare a b) eqn:E; try discriminate.
  constructor; [assumption|].
  eapply List.Forall_impl; [|exact (IH b Hrest)].
  intros c Hbc. simpl in Hbc. eapply string_compare_lt_trans; eauto.
Qed.

Lemma increasing_NoDup (l : list string) : increasing l = true -> List.NoDup l.
Proof.
  induction l as [|a l IH]; intros H; [constructor|].
  constructor.
  - intros Hin. pose proof (increasing_below a l H) as Hall.
    rewrite List.Forall_forall in Hall. specialize (Hall a Hin).
    rewrite string_compare_refl in Hall. discriminate.
  - apply IH. destruct l as [|b l]; [reflexivity|].
    simpl in H. now apply andb_prop in H as [_ H].
Qed.

Lemma countOf_app (s : string) events (more : Events M) :
  countOf s (events ++ more)%list = countOf s events + countOf s more.
Proof.
  unfold countOf, streamEvents. now rewrite List.filter_app, List.length_app.
Qed.

Lemma trimStreams_within_cap (counts : OrderedMap nat) events :
  (forall s c, In (s, c) counts -> c <= maxEventsPerStream) ->
  trimStreams counts events = Some events.
Proof.
  induction counts as [|[s c] rest IH]; intros H; simpl; [reflexivity|].
  unfold trimStream.
  destruct (Nat.ltb_spec maxEventsPerStream c) as [Hlt|_].
  - specialize (H s c (or_introl eq_refl)). lia.
  - apply IH. intros s' c' Hin. apply (H s'). now right.
Qed.

Lemma cleanupOldEvents_idle (now : Z) events :
  (forall x, In x events -> (now - timestamp (snd x) <= maxAge)%Z) ->
  (forall s, countOf s events <= maxEventsPerStream) ->
  cleanupOldEvents now events = Some events.
Proof.
  intros Hage Hcap. unfold cleanupOldEvents.
  pose proof (sweepAges_kept now events []) as Hkept.
  destruct (sweepAges_counts now events [] (List.NoDup_nil _)) as [Hc Hget].
  destruct (sweepAges now events []) as [kept counts]. simpl in *.
  assert (E : retained now events = events).
  { apply filter_all. intros x Hx. apply negb_true_iff. unfold expired.
    specialize (Hage x Hx). destruct (Z.gtb_spec (now - timestamp (snd x)) maxAge);
      [lia|reflexivity]. }
  rewrite E in *. subst kept. apply trimStreams_within_cap.
  intros s c Hin. specialize (Hget s).
  rewrite (mapGet_In s c counts Hc Hin) in Hget. simpl in Hget.
  rewrite Hget. apply Hcap.
Qed.

Lemma storeEvents_idle requests events (lo hi : Z) :
  List.NoDup (keys (events ++ List.map entryOf requests)%list) ->
  (hi - lo <= maxAge)%Z ->
  (forall x, In x (events ++ List.map entryOf requests)%list -> (lo <= timestamp (snd x))%Z) ->
  (forall r, In r requests -> (sweepClock (snd r) <= hi)%Z) ->
  (forall s, countOf s (events ++ List.map entryOf requests)%list <= maxEventsPerStream) ->
  storeEvents events requests = Some (events ++ List.map entryOf requests)%list.
Proof.
  revert events. induction requests as [|[[sid msg] h] rest IH];
    intros events Hnd Hspan Hlo Hhi Hcap; simpl.
  - now rewrite app_nil_r.
  - change (List.map entryOf (((sid, msg), h) :: rest))
      with (entryOf (sid, msg, h) :: List.map entryOf rest) in *.
    assert (Hassoc : forall more : Events M,
              (events ++ entryOf (sid, msg, h) :: more
               = (events ++ [entryOf (sid, msg, h)]) ++ more)%list).
    { intros more. now rewrite <- app_assoc. }
    rewrite Hassoc in Hnd, Hlo, Hcap |- *.
    unfold storeEvent.
    assert (Hfresh : mapHas (generateEventId sid (idClock h) (randomSuffix h)) events
                     = false).
    { unfold mapHas.
      destruct (mapGet _ events) as [v|] eqn:G; [|reflexivity]. exfalso.
      apply mapGet_Some_In in G. unfold keys in Hnd.
      rewrite !List.map_app in Hnd. rewrite <- app_assoc in Hnd.
      apply NoDup_remove_2 in Hnd. apply Hnd. apply in_or_app. left.
      apply in_map_iff. eexists. split; [|exact G]. reflexivity. }
    rewrite (mapSet_fresh _ _ _ Hfresh).
    change (generateEventId sid (idClock h) (randomSuffix h), mkEvent sid msg (stampClock h))
      with (entryOf (sid, msg, h)).
    rewrite cleanupOldEvents_idle.
    + apply IH; auto. intros r Hr. apply Hhi. now right.
    + intros x Hx. simpl.
      assert (lo <= timestamp (snd x))%Z by (apply Hlo, in_or_app; now left).
      assert (sweepClock h <= hi)%Z by (apply (Hhi (sid, msg, h)); now left).
      lia.
    + intros s. specialize (Hcap s). rewrite countOf_app in Hcap. lia.
Qed.

(** After a store, a stream holds the smaller of its unexpired count and
    the cap. *)
Lemma storeEvent_counts events (sid : string) (msg : M) (h : Host) :
  List.NoDup (keys events) ->
  exists kept,
    storeEvent events sid msg h =
      Some (kept, generateEventId sid (idClock h) (randomSuffix h)) /\
    forall s,
      countOf s kept =
      Nat.min
        (countOf s (retained (sweepClock h)
                      (mapSet (generateEventId sid (idClock h) (randomSuffix h))
                              (mkEvent sid msg (stampClock h)) events)))
        maxEventsPerStream.
Proof.
  intros Hnd.
  destruct (storeEvent_spec events sid msg h Hnd) as [kept [Hrun [_ Hs]]].
  exists kept. split; [assumption|]. intros s.
  unfold countOf at 1. rewrite Hs. apply trimmed_count.
  apply keys_filter_NoDup. now apply keys_mapSet_NoDup.
Qed.

End AppendFacts.

(** C2 (as stated) fails.  After one event of stream [b] and a thousand of
    stream [a] within the hour, the store that pushes [a] past the cap comes
    one millisecond after [b]'s event left the retention window: [a] is cut
    back to the cap and the event of [b], another stream, is gone.  And 1001
    stores to one stream, more than the cap, of which the first two have left
    the window at the last, leave 999 events, not the cap's worth. *)
Lemma cap_eviction_counterexample :
  (exists events kept eventId,
     EventStore.storeEvents [] Scenario.burst = Some events /\
     EventStore.countOf "a" events = 1000 /\
     EventStore.countOf "b" events = 1 /\
     EventStore.storeEvent events "a" 1001
       (Scenario.hostAt (Scenario.epoch + 3600001)) = Some (kept, eventId) /\
     EventStore.countOf "a" kept = 1000 /\
     EventStore.countOf "b" kept = 0) /\
  (exists events kept eventId,
     EventStore.storeEvents [] Scenario.thin = Some events /\
     EventStore.countOf "a" events = 1000 /\
     EventStore.storeEvent events "a" 1001
       (Scenario.hostAt (Scenario.epoch + 3600002)) = Some (kept, eventId) /\
     EventStore.countOf "a" kept = 999).
Proof.
  split.
  - assert (Hnd : List.NoDup (JS.keys (List.map EventStore.entryOf Scenario.burst))).
    { unfold Scenario.burst.
      change (JS.keys (List.map EventStore.entryOf
                         (("b", 0, Scenario.hostAt Scenario.epoch) :: Scenario.steady)))
        with (fst (EventStore.entryOf ("b", 0, Scenario.hostAt Scenario.epoch))
                :: JS.keys (List.map EventStore.entryOf Scenario.steady)).
      apply List.NoDup_cons.
      - apply hasKey_false. vm_compute. reflexivity.
      - apply increasing_NoDup. vm_compute. reflexivity. }
    destruct (storeEvent_counts (List.map EventStore.entryOf Scenario.burst) "a" 1001
                (Scenario.hostAt (Scenario.epoch + 3600001)) Hnd)
      as [kept [Hrun Hcount]].
    exists (List.map EventStore.entryOf Scenario.burst), kept,
      (EventStore.generateEventId "a" (Scenario.epoch + 3600001) "r").
    split; [|split; [|split; [|split; [|split]]]].
    + apply (storeEvents_idle Scenario.burst [] Scenario.epoch
               (Scenario.epoch + 3600000)).
      * exact Hnd.
      * vm_compute. discriminate.
      * intros x Hx. apply Z.leb_le. revert x Hx.
        apply (proj1 (forallb_forall
                 (fun x => (Scenario.epoch <=? EventStore.timestamp (snd x))%Z) _)).
        vm_compute. reflexivity.
      * intros r Hr. apply Z.leb_le. revert r Hr.
        apply (proj1 (forallb_forall
                 (fun r => (EventStore.sweepClock (snd r)
                              <=? Scenario.epoch + 3600000)%Z) _)).
        vm_compute. reflexivity.
      * intros s. unfold Scenario.burst.
        change (([] ++ List.map EventStore.entryOf
                   (("b", 0, Scenario.hostAt Scenario.epoch) :: Scenario.steady))%list)
          with (EventStore.entryOf ("b", 0, Scenario.hostAt Scenario.epoch)
                  :: List.map EventStore.entryOf Scenario.steady).
        rewrite countOf_cons.
        destruct (String.eqb_spec
                    (EventStore.streamId
                       (snd (EventStore.entryOf ("b", 0, Scenario.hostAt Scenario.epoch))))
                    s) as [<-|_].
        -- replace (EventStore.countOf _ _) with 0 by (vm_compute; reflexivity).
           vm_compute. repeat constructor.
        -- etransitivity; [apply filter_length_le|]. vm_compute. constructor.
    + vm_compute. reflexivity.
    + vm_compute. reflexivity.
    + exact Hrun.
    + rewrite Hcount. vm_compute. reflexivity.
    + rewrite Hcount. vm_compute. reflexivity.
  - assert (Hnd : List.NoDup (JS.keys (List.map EventStore.entryOf Scenario.thin))).
    { apply increasing_NoDup. vm_compute. reflexivity. }
    destruct (storeEvent_counts (List.map EventStore.entryOf Scenario.thin) "a" 1001
                (Scenario.hostAt (Scenario.epoch + 3600002)) Hnd)
      as [kept [Hrun Hcount]].
    exists (List.map EventStore.entryOf Scenario.thin), kept,
      (EventStore.generateEventId "a" (Scenario.epoch + 3600002) "r").
    split; [|split; [|split]].
    + apply (storeEvents_idle Scenario.thin [] Scenario.epoch
               (Scenario.epoch + 3600000)).
      * exact Hnd.
      * vm_compute. discriminate.
      * intros x Hx. apply Z.leb_le. revert x Hx.
        apply (proj1 (forallb_forall
                 (fun x => (Scenario.epoch <=? EventStore.timestamp (snd x))%Z) _)).
        vm_compute. reflexivity.
      * intros r Hr. apply Z.leb_le. revert r Hr.
        apply (proj1 (forallb_forall
                 (fun r => (EventStore.sweepClock (snd r)
                              <=? Scenario.epoch + 3600000)%Z) _)).
        vm_compute. reflexivity.
      * intros s. etransitivity; [apply filter_length_le|]. vm_compute. constructor.
    + vm_compute. reflexivity.
    + exact Hrun.
    + rewrite Hcount. vm_compute. reflexivity.
Qed.

(** C4.  An entry older than the retention window when [storeEvent] sweeps is
    gone afterwards, whatever its stream holds: [storeEvent] returns, the entry
    is not in the store, every entry left is within the window, so is every
    entry a replay then sends, and unless the new event took over its key, the
    key stays out of the store and out of what a replay sends through any
    further stores that do not make that key again. *)
Theorem store_evicts_expired {M : Type} {collation : JS.Collation}
    (events : EventStore.Events M)
    (sid : string) (msg : M) (h : EventStore.Host)
    (eventId : string) (e : EventStore.StoredEvent M) :
  List.NoDup (JS.keys events) ->
  In (eventId, e) events ->
  (EventStore.sweepClock h - EventStore.timestamp e > EventStore.maxAge)%Z ->
  let newId :=
    EventStore.generateEventId sid (EventStore.idClock h) (EventStore.randomSuffix h) in
  exists kept,
    EventStore.storeEvent events sid msg h = Some (kept, newId) /\
    ~ In (eventId, e) kept /\
    (forall entry, In entry kept ->
       (EventStore.sweepClock h - EventStore.timestamp (snd entry)
          <= EventStore.maxAge)%Z) /\
    (forall lastEventId sentItem,
       In sentItem (snd (EventStore.replayEventsAfter kept lastEventId)) ->
       exists entry,
         In entry kept /\ sentItem = EventStore.delivery entry /\
         (EventStore.sweepClock h - EventStore.timestamp (snd entry)
            <= EventStore.maxAge)%Z) /\
    (eventId <> newId ->
       forall requests,
         Forall (fun request =>
                   EventStore.generateEventId (fst (fst request))
                     (EventStore.idClock (snd request))
                     (EventStore.randomSuffix (snd request)) <> eventId) requests ->
         exists later,
           EventStore.storeEvents kept requests = Some later /\
           ~ In eventId (JS.keys later) /\
           forall lastEventId,
             ~ In eventId
                 (List.map fst (snd (EventStore.replayEventsAfter later lastEventId)))).
Proof.
  intros Hnd Hin Hold newId.
  destruct (storeEvent_spec events sid msg h Hnd) as [kept [Hrun [Hk Hs]]].
  fold newId in Hrun.
  assert (Hwin : forall entry, In entry kept ->
            In entry (JS.mapSet newId
                        (EventStore.mkEvent sid msg (EventStore.stampClock h)) events) /\
            (EventStore.sweepClock h - EventStore.timestamp (snd entry)
               <= EventStore.maxAge)%Z).
  { intros entry Hentry.
    now apply (stored_within_window events sid msg h kept newId entry Hnd Hrun). }
  assert (Hkey : eventId <> newId -> ~ In eventId (JS.keys kept)).
  { intros Hne Hkeys. unfold JS.keys in Hkeys.
    apply in_map_iff in Hkeys as [entry [Ekey Hentry]].
    destruct (Hwin entry Hentry) as [Hset Hage].
    apply mapSet_In in Hset as [E|Hold'].
    - subst entry. simpl in Ekey. congruence.
    - assert (entry = (eventId, e))
        by exact (keys_In_unique events entry (eventId, e) Hnd Hold' Hin Ekey).
      subst entry. simpl in Hage. lia. }
  exists kept. split; [exact Hrun|]. split; [|split; [|split]].
  - intros Hkept. apply Hwin in Hkept as [_ Hage]. simpl in Hage. lia.
  - intros entry Hentry. now apply Hwin.
  - intros lastEventId sentItem Hsent.
    apply replay_from_store in Hsent as [entry [Hentry E]].
    exists entry. split; [assumption|]. split; [assumption|]. now apply Hwin.
  - intros Hne requests Hfresh.
    destruct (storeEvents_keys requests kept eventId Hk (Hkey Hne) Hfresh)
      as [later [Hlater [_ Hgone]]].
    exists later. split; [assumption|]. split; [assumption|].
    intros lastEventId Hsent. apply Hgone. eapply replay_keys; eauto.
Qed.

Lemma store_evicts_expired_witness :
  let collation : JS.Collation := JS.codeUnits in
  let old := ("s1_1700000000000_aa", EventStore.mkEvent "s1" 1%nat 1700000000000) in
  let events :=
    [ old; ("s1_1700003000000_bb", EventStore.mkEvent "s1" 2%nat 1700003000000) ] in
  let h := EventStore.mkHost 1700003600001 1700003600001 1700003600001 "cc" in
  exists kept,
    EventStore.storeEvent events "s2" 3%nat h = Some (kept, "s2_1700003600001_cc") /\
    ~ In old kept /\
    exists later,
      EventStore.storeEvents kept [] = Some later /\
      forall lastEventId,
        ~ In (fst old)
            (List.map fst
               (snd (EventStore.replayEventsAfter later lastEventId))).
Proof.
  cbv zeta.
  destruct (store_evicts_expired (collation := JS.codeUnits)
              [ ("s1_1700000000000_aa", EventStore.mkEvent "s1" 1%nat 1700000000000);
                ("s1_1700003000000_bb", EventStore.mkEvent "s1" 2%nat 1700003000000) ]
              "s2" 3%nat
              (EventStore.mkHost 1700003600001 1700003600001 1700003600001 "cc")
              "s1_1700000000000_aa" (EventStore.mkEvent "s1" 1%nat 1700000000000))
    as [kept [Hrun [Hgone [_ [_ Hkey]]]]].
  - repeat (apply List.NoDup_cons; [simpl; intuition discriminate|]).
    apply List.NoDup_nil.
  - left. reflexivity.
  - reflexivity.
  - exists kept. split; [exact Hrun|]. split; [exact Hgone|].
    destruct (Hkey ltac:(discriminate) [] (List.Forall_nil _))
      as [later [Hlater [_ Hsent]]].
    exists later. split; [exact Hlater|exact Hsent].
Defined.

(** ** Session registry *)

Section RegistryFacts.
Import JS Server.

Lemma includes_append (c : ascii) (a b : string) :
  includes c (a ++ b) = includes c a || includes c b.
Proof.
  induction a as [|d a IH]; [reflexivity|].
  rewrite append_cons. simpl. rewrite IH. now rewrite orb_assoc.
Qed.

Lemma includes_head (c : ascii) (s : string) : includes c (String c s) = true.
Proof. unfold includes. now rewrite Ascii.eqb_refl. Qed.

Lemma uuidToString_hyphen (u : UUID) : includes "-" (uuidToString u) = true.
Proof.
  unfold uuidToString. cbv zeta. rewrite includes_append.
  apply orb_true_iff. right. rewrite append_cons. apply includes_head.
Qed.

(** A session id drawn from [randomUUID()] never names an inherited
    property, so assigning it creates an own property. *)
Lemma uuidToString_own (u : UUID) :
  existsb (String.eqb (uuidToString u)) objectPrototypeKeys = false.
Proof.
  pose proof (uuidToString_hyphen u) as H.
  destruct (existsb _ _) eqn:E; [|reflexivity].
  apply existsb_exists in E as [name [Hin Heq]].
  apply String.eqb_eq in Heq. rewrite Heq in H.
  simpl in Hin. repeat (destruct Hin as [<-|Hin]; [discriminate H|]).
  contradiction.
Qed.

Lemma paired_empty : Paired emptyRegistry.
Proof. intros sid. simpl. rewrite !lookup_empty. split; intros [? ?]; discriminate. Qed.

Lemma paired_sessionInitialized (id : string) (t : StreamableTransport)
    (store : StoreRef) (reg : Registry) :
  Paired reg -> Paired (sessionInitialized id t store reg).
Proof.
  intros H sid. simpl. destruct (decide (id = sid)) as [->|Hne].
  - rewrite !lookup_insert_eq. split; eauto.
  - rewrite !lookup_insert_ne by assumption. apply H.
Qed.

Lemma paired_deleteSession (key : string) (reg : Registry) :
  Paired reg -> Paired (deleteSession key reg).
Proof.
  intros H sid. simpl. destruct (decide (key = sid)) as [->|Hne].
  - rewrite !lookup_delete_eq. split; intros [? ?]; discriminate.
  - rewrite !lookup_delete_ne by assumption. apply H.
Qed.

Lemma paired_onclose (t : StreamableTransport) (reg : Registry) :
  Paired reg -> Paired (onclose t reg).
Proof.
  intros H. unfold onclose. destruct (_ && _); [|assumption].
  now apply paired_deleteSession.
Qed.

Lemma paired_step (reg reg' : Registry) : Step reg reg' -> Paired reg -> Paired reg'.
Proof.
  intros [] H.
  - exact H.
  - now apply paired_sessionInitialized.
  - now apply paired_onclose.
  - now apply paired_deleteSession.
  - exact H.
  - exact H.
Qed.

Lemma catchPost_registry (r : Exchange * Completion) :
  registry (fst (catchPost r)) = registry (fst r).
Proof.
  destruct r as [x []]; simpl; [reflexivity|]. now destruct (headersSent x).
Qed.

Lemma runEngine_registry (run : EngineRun) (x : Exchange) :
  registry (fst (runEngine run x)) = registry x.
Proof. unfold runEngine. simpl. now destruct (writesHead run). Qed.

Lemma handled_steps (reg reg' : Registry) : Handled reg reg' -> rtc Step reg reg'.
Proof.
  intros [].
  - unfold postMcp. rewrite catchPost_registry.
    destruct (truthyString sessionId && _).
    + destruct (objectGet _ _); [rewrite runEngine_registry|..]; apply rtc_refl.
    + destruct (negb (truthyString sessionId) && isInitialize); [|apply rtc_refl].
      destruct connectFaults.
      * simpl. apply rtc_once. constructor.
      * unfold handshake. rewrite runEngine_registry.
        destruct (initializedAs hs) as [u|]; simpl.
        -- eapply rtc_l; [apply StepAllocate|]. apply rtc_once.
           apply (StepInitialized (allocateStore reg0) u (storesAllocated reg0)).
        -- apply rtc_once. constructor.
  - unfold getMcp. destruct (_ || _); [apply rtc_refl|].
    destruct (objectGet _ _); [rewrite runEngine_registry|..]; apply rtc_refl.
  - unfold deleteMcp. destruct (negb (truthyString sessionId)); [apply rtc_refl|].
    destruct (negb (truthy _)); [apply rtc_refl|].
    unfold terminate. simpl.
    destruct (objectGet (streamable reg0) (default "" sessionId)) as [t|name|].
    + destruct close; simpl.
      * eapply rtc_l; [apply (StepClosed reg0 t)|]. apply rtc_once. constructor.
      * apply rtc_refl.
      * apply rtc_once. constructor.
    + simpl. apply rtc_once. constructor.
    + simpl. apply rtc_once. constructor.
  - unfold getSse. rewrite runEngine_registry. simpl. apply rtc_once. constructor.
  - unfold postMessages.
    destruct (objectGet _ _); [rewrite runEngine_registry|..]; apply rtc_refl.
  - apply rtc_once. constructor.
  - apply rtc_once. constructor.
Qed.

(** A transport is registered under its own session id, which is not
    empty. *)
Lemma reachable_named (reg : Registry) :
  Reachable reg ->
  forall (id : string) (t : StreamableTransport),
    streamable reg !! id = Some t -> sessionIdOf t = Some id /\ id <> "".
Proof.
  unfold Reachable.
  apply (rtc_ind_r (fun r => forall id t, streamable r !! id = Some t ->
                               sessionIdOf t = Some id /\ id <> "")).
  - intros id t H. simpl in H. now rewrite lookup_empty in H.
  - intros r1 r2 _ Hstep IH id t. destruct Hstep as [r|r u store|r t0|r sid|r u|r k];
      simpl; try apply IH.
    + destruct (decide (id = uuidToString u)) as [->|Hne].
      * rewrite lookup_insert_eq. intros [= <-]. split; [reflexivity|].
        intros E. pose proof (uuidToString_hyphen u) as Hh. rewrite E in Hh.
        discriminate.
      * rewrite lookup_insert_ne by congruence. apply IH.
    + unfold onclose. destruct (truthyString (sessionIdOf t0) && _); [|apply IH].
      simpl. intros H. apply lookup_delete_Some in H as [_ H]. now apply IH.
    + intros H. apply lookup_delete_Some in H as [_ H]. now apply IH.
Qed.

(** An initialization the engine accepts under [u] leaves the transport and
    its event store registered under [u]. *)
Lemma postMcp_registers (reg : Registry) (sessionId : option string) (u : UUID)
    (eng run : EngineRun) :
  truthyString sessionId = false ->
  registry (fst (postMcp reg sessionId true false (mkHandshake (Some u) eng) run)) =
  sessionInitialized (uuidToString u)
    (mkTransport (Some (uuidToString u)) (storesAllocated reg)) (storesAllocated reg)
    (allocateStore reg).
Proof.
  intros Hnone. unfold postMcp. rewrite catchPost_registry, Hnone. simpl.
  now destruct (writesHead eng).
Qed.

End RegistryFacts.

(** C10.  In every registry reached through the synchronous blocks that
    touch it (session initialised, transport closed, session deleted, legacy
    stream opened or closed), a session id has a transport exactly when it has
    an event store, and every handler run, whatever the request and the
    engine do, leads from reached registries to reached registries.  The two
    entries are registered together: an initialization that the engine
    accepts under the session id [u] leaves both the transport and its event
    store under [u].  They are removed together: the on-close handler of a
    registered transport leaves neither entry, and so does a [DELETE /mcp]
    for a registered session, answered 200. *)
Theorem registry_paired (reg : Server.Registry) :
  Server.Reachable reg ->
  (Server.Paired reg /\
   forall reg', Server.Handled reg reg' -> Server.Reachable reg' /\ Server.Paired reg') /\
  (forall (sessionId : option string) (u : Server.UUID) (eng run : Server.EngineRun),
     JS.truthyString sessionId = false ->
     let id := Server.uuidToString u in
     let opened :=
       Server.registry
         (fst (Server.postMcp reg sessionId true false
                 (Server.mkHandshake (Some u) eng) run)) in
     Server.streamable opened !! id =
       Some (Server.mkTransport (Some id) (Server.storesAllocated reg)) /\
     Server.eventStores opened !! id = Some (Server.storesAllocated reg)) /\
  (forall (id : string) (t : Server.StreamableTransport),
     Server.streamable reg !! id = Some t ->
     Server.streamable (Server.onclose t reg) !! id = None /\
     Server.eventStores (Server.onclose t reg) !! id = None) /\
  (forall (id : string) (t : Server.StreamableTransport),
     Server.streamable reg !! id = Some t ->
     let closed := fst (Server.deleteMcp reg (Some id) Server.Closes) in
     Server.sent closed = [Server.Reply 200 Server.JsonRpcTerminated] /\
     Server.streamable (Server.registry closed) !! id = None /\
     Server.eventStores (Server.registry closed) !! id = None).
Proof.
  assert (Hinv : forall r, Server.Reachable r -> Server.Paired r).
  { unfold Server.Reachable. apply (rtc_ind_r Server.Paired).
    - apply paired_empty.
    - intros r1 r2 _ Hstep IH. eapply paired_step; eauto. }
  intros Hreach. split; [|split; [|split]].
  - split; [now apply Hinv|].
    intros reg' Hh.
    assert (Hr : Server.Reachable reg').
    { unfold Server.Reachable in *. etransitivity; [exact Hreach|].
      now apply handled_steps. }
    split; [exact Hr|now apply Hinv].
  - intros sessionId u eng run Hnone id opened. unfold opened.
    rewrite postMcp_registers by exact Hnone. simpl.
    split; apply lookup_insert_eq.
  - intros id t Hsome.
    destruct (reachable_named reg Hreach id t Hsome) as [Hid Hne].
    unfold Server.onclose. rewrite Hid. simpl.
    destruct (String.eqb_spec id "") as [E|_]; [contradiction|]. simpl.
    unfold JS.objectGet. rewrite Hsome. simpl.
    split; apply lookup_delete_eq.
  - intros id t Hsome closed.
    destruct (reachable_named reg Hreach id t Hsome) as [Hid Hne].
    unfold closed, Server.deleteMcp. simpl.
    destruct (String.eqb_spec id "") as [E|_]; [contradiction|]. simpl.
    unfold Server.terminate. simpl. unfold JS.objectGet. rewrite Hsome. simpl.
    split; [reflexivity|]. split; apply lookup_delete_eq.
Qed.

Lemma registry_paired_witness :
  let u := Server.mkUUID 24197857200151252728969465429440056815%N in
  let id := Server.uuidToString u in
  let run := Server.mkRun true false in
  let opened :=
    Server.registry
      (fst (Server.postMcp Server.emptyRegistry None true false
              (Server.mkHandshake (Some u) run) run)) in
  let t := Server.mkTransport (Some id) 0 in
  Server.streamable opened !! id = Some t /\
  Server.eventStores opened !! id = Some 0 /\
  Server.Paired opened /\
  (Server.streamable (Server.onclose t opened) !! id = None /\
   Server.eventStores (Server.onclose t opened) !! id = None) /\
  (Server.sent (fst (Server.deleteMcp opened (Some id) Server.Closes)) =
     [Server.Reply 200 Server.JsonRpcTerminated] /\
   Server.streamable
     (Server.registry (fst (Server.deleteMcp opened (Some id) Server.Closes))) !! id = None /\
   Server.eventStores
     (Server.registry (fst (Server.deleteMcp opened (Some id) Server.Closes))) !! id = None).
Proof.
  cbv zeta.
  destruct (registry_paired Server.emptyRegistry (rtc_refl _ _))
    as [_ [Hopens _]].
  destruct (Hopens None (Server.mkUUID 24197857200151252728969465429440056815%N)
              (Server.mkRun true false) (Server.mkRun true false) eq_refl)
    as [Htransport Hstore].
  destruct (registry_paired
              (Server.registry
                 (fst (Server.postMcp Server.emptyRegistry None true false
                         (Server.mkHandshake
                            (Some (Server.mkUUID 24197857200151252728969465429440056815%N))
                            (Server.mkRun true false))
                         (Server.mkRun true false)))))
    as [[Hpaired _] [_ [Hclose Hdelete]]].
  - apply handled_steps. constructor.
  - split; [exact Htransport|]. split; [exact Hstore|]. split; [exact Hpaired|].
    split; [exact (Hclose _ _ Htransport)|exact (Hdelete _ _ Htransport)].
Defined.

(** ** The handlers on well-formed and on inherited keys *)

Section HandlerFacts.
Import JS Server.

Lemma objectGet_unknown {T : Type} (obj : gmap string T) (key : string) :
  obj !! key = None ->
  existsb (String.eqb key) objectPrototypeKeys = false ->
  objectGet obj key = Undefined.
Proof. intros H1 H2. unfold objectGet. now rewrite H1, H2. Qed.

Lemma objectGet_own {T : Type} (obj : gmap string T) (key : string) (t : T) :
  obj !! key = Some t -> objectGet obj key = Own t.
Proof. intros H. unfold objectGet. now rewrite H. Qed.

(** [POST /mcp] allocates a store and a transport exactly when the session
    id is missing or empty and the payload is an initialization request. *)
Lemma postMcp_allocates (reg : Registry) (sessionId : option string)
    (isInitialize connectFaults : bool) (hs : Handshake) (run : EngineRun) :
  storesAllocated
    (registry (fst (postMcp reg sessionId isInitialize connectFaults hs run))) =
  if negb (truthyString sessionId) && isInitialize
  then S (storesAllocated reg) else storesAllocated reg.
Proof.
  unfold postMcp. rewrite catchPost_registry.
  destruct (truthyString sessionId) eqn:T; simpl.
  - destruct (truthy _); simpl; [|reflexivity].
    destruct (objectGet _ _); [rewrite runEngine_registry|..]; reflexivity.
  - destruct isInitialize; simpl; [|reflexivity].
    destruct connectFaults; [reflexivity|].
    unfold handshake. rewrite runEngine_registry.
    now destruct (initializedAs hs).
Qed.

(** An unknown session id that names no inherited property, or a missing
    session id with another payload than an initialization, is refused with
    the 400 envelope and leaves the registry alone. *)
Lemma postMcp_refused (reg : Registry) (sessionId : option string)
    (isInitialize connectFaults : bool) (hs : Handshake) (run : EngineRun) :
  (truthyString sessionId = true /\
   streamable reg !! default "" sessionId = None /\
   existsb (String.eqb (default "" sessionId)) objectPrototypeKeys = false) \/
  (truthyString sessionId = false /\ isInitialize = false) ->
  postMcp reg sessionId isInitialize connectFaults hs run =
    (send badRequestNoSession (start reg), Returned).
Proof.
  unfold postMcp. intros [[T [Hnone Hown]]|[T ->]]; rewrite T; simpl.
  - now rewrite (objectGet_unknown _ _ Hnone Hown).
  - reflexivity.
Qed.

(** [POST /mcp] answers once, provided an engine call that returns has
    written the response head. *)
Lemma postMcp_single_response (reg : Registry) (sessionId : option string)
    (isInitialize connectFaults : bool) (hs : Handshake) (run : EngineRun) :
  (faults run = false -> writesHead run = true) ->
  (faults (engine hs) = false -> writesHead (engine hs) = true) ->
  exists r,
    sent (fst (postMcp reg sessionId isInitialize connectFaults hs run)) = [r] /\
    snd (postMcp reg sessionId isInitialize connectFaults hs run) = Returned.
Proof.
  intros Hrun Hhs. unfold postMcp.
  destruct (truthyString sessionId && _).
  - destruct (objectGet _ _) as [t|name|].
    + unfold runEngine. destruct (faults run) eqn:F, (writesHead run) eqn:W;
        simpl; eauto. specialize (Hrun eq_refl). discriminate.
    + simpl. eauto.
    + simpl. eauto.
  - destruct (negb (truthyString sessionId) && isInitialize); [|simpl; eauto].
    destruct connectFaults; [simpl; eauto|].
    unfold handshake, runEngine.
    destruct (faults (engine hs)) eqn:F, (writesHead (engine hs)) eqn:W;
      destruct (initializedAs hs); simpl; eauto;
      specialize (Hhs eq_refl); discriminate.
Qed.

(** [DELETE /mcp] answers once and never throws. *)
Lemma deleteMcp_single_response (reg : Registry) (sessionId : option string)
    (close : CloseRun) :
  exists r,
    sent (fst (deleteMcp reg sessionId close)) = [r] /\
    snd (deleteMcp reg sessionId close) = Returned.
Proof.
  unfold deleteMcp. destruct (negb (truthyString sessionId)); [simpl; eauto|].
  destruct (negb (truthy _)); [simpl; eauto|].
  unfold terminate. destruct (objectGet _ _); [destruct close|..]; simpl; eauto.
Qed.

(** [DELETE /mcp] without a session id: 400, registry untouched. *)
Lemma deleteMcp_no_session_id (reg : Registry) (sessionId : option string)
    (close : CloseRun) :
  truthyString sessionId = false ->
  deleteMcp reg sessionId close =
    (send (Reply 400 (JsonRpcError (-32000) "Bad Request: No session ID provided" false))
       (start reg),
     Returned).
Proof. intros H. unfold deleteMcp. now rewrite H. Qed.

(** [DELETE /mcp] on a session id that is neither registered nor the name
    of an inherited property: 404, registry untouched. *)
Lemma deleteMcp_not_found (reg : Registry) (sid : string) (close : CloseRun) :
  sid <> "" ->
  streamable reg !! sid = None ->
  existsb (String.eqb sid) objectPrototypeKeys = false ->
  deleteMcp reg (Some sid) close =
    (send (Reply 404 (JsonRpcError (-32001) "Session not found" false)) (start reg),
     Returned).
Proof.
  intros Hne Hnone Hown. unfold deleteMcp. simpl.
  destruct (String.eqb_spec sid "") as [E|_]; [contradiction|]. simpl.
  now rewrite (objectGet_unknown _ _ Hnone Hown).
Qed.

(** [DELETE /mcp] on a registered session whose closure completes: 200 and
    both entries are gone; for a closure that faults, 500. *)
Lemma deleteMcp_registered (reg : Registry) (sid : string) (t : StreamableTransport)
    (close : CloseRun) :
  sid <> "" ->
  streamable reg !! sid = Some t ->
  match close with
  | Closes =>
      sent (fst (deleteMcp reg (Some sid) close)) = [Reply 200 JsonRpcTerminated] /\
      streamable (registry (fst (deleteMcp reg (Some sid) close))) !! sid = None /\
      eventStores (registry (fst (deleteMcp reg (Some sid) close))) !! sid = None
  | _ =>
      sent (fst (deleteMcp reg (Some sid) close)) =
        [Reply 500 (JsonRpcError (-32603)
                      "Internal server error during session termination" false)]
  end.
Proof.
  intros Hne Hsome. unfold deleteMcp. simpl.
  destruct (String.eqb_spec sid "") as [E|_]; [contradiction|]. simpl.
  unfold terminate. simpl. rewrite (objectGet_own _ _ _ Hsome). simpl.
  destruct close; simpl; try reflexivity.
  split; [reflexivity|]. now rewrite !lookup_delete_eq.
Qed.

(** [POST /messages] with a registered stream delivers to it; with a key
    that is neither registered nor inherited it answers 400 in plain text and
    leaves the registry alone. *)
Lemma postMessages_dispatch (reg : Registry) (sessionId : option string)
    (run : EngineRun) :
  (forall t, sse reg !! queryKey sessionId = Some t ->
     postMessages reg sessionId run =
       runEngine run (call (HandlePostMessage t) (start reg))) /\
  (sse reg !! queryKey sessionId = None ->
   existsb (String.eqb (queryKey sessionId)) objectPrototypeKeys = false ->
     postMessages reg sessionId run =
       (send (Reply 400 (PlainText "No transport found for sessionId")) (start reg),
        Returned)).
Proof.
  unfold postMessages. split.
  - intros t H. now rewrite (objectGet_own _ _ _ H).
  - intros H1 H2. now rewrite (objectGet_unknown _ _ H1 H2).
Qed.

End HandlerFacts.

(** C5 (the code at the failing input).  A [POST /mcp] whose session id is
    [constructor], a name every plain object inherits, is not in the registry;
    yet the handler takes it for an existing session, the call of
    [handleRequest] on the inherited value throws, and the answer is the 500
    envelope with code -32603 instead of the 400 envelope with code -32000.
    No store is allocated. *)
Theorem post_mcp_inherited_session_id (isInitialize connectFaults : bool)
    (hs : Server.Handshake) (run : Server.EngineRun) :
  Server.streamable Server.emptyRegistry !! "constructor" = None /\
  Server.postMcp Server.emptyRegistry (Some "constructor") isInitialize connectFaults
                 hs run =
    (Server.send
       (Server.Reply 500 (Server.JsonRpcError (-32603) "Internal server error" true))
       (Server.start Server.emptyRegistry),
     Server.Returned).
Proof. split; reflexivity. Qed.

(** C6 (the code at the failing input).  A [DELETE /mcp] whose session id is
    [constructor] names no registered session; yet the handler passes the
    not-found test on the inherited value and answers 200 with
    [terminated: true] instead of 404 with code -32001, every time it is
    asked. *)
Theorem delete_mcp_inherited_session_id (close : Server.CloseRun) :
  Server.streamable Server.emptyRegistry !! "constructor" = None /\
  Server.deleteMcp Server.emptyRegistry (Some "constructor") close =
    (Server.send (Server.Reply 200 Server.JsonRpcTerminated)
       (Server.start Server.emptyRegistry),
     Server.Returned).
Proof. split; [reflexivity|]. destruct close; reflexivity. Qed.

(** [GET /mcp] has no [try]: when the transport of a registered session
    throws before it wrote anything, and when the session id is an inherited
    name such as [constructor], the handler itself writes no response and
    ends by the exception; what the client then receives is left to the
    framework that called the handler. *)
Lemma getMcp_unguarded :
  let id := Server.uuidToString (Server.mkUUID 24197857200151252728969465429440056815%N) in
  let t := Server.mkTransport (Some id) 0 in
  let reg := Server.sessionInitialized id t 0 (Server.allocateStore Server.emptyRegistry) in
  (Server.sent (fst (Server.getMcp reg (Some id) (Server.mkRun false true))) = [] /\
   Server.calls (fst (Server.getMcp reg (Some id) (Server.mkRun false true))) =
     [Server.HandleRequest t] /\
   snd (Server.getMcp reg (Some id) (Server.mkRun false true)) = Server.Threw) /\
  (forall run,
     Server.sent (fst (Server.getMcp Server.emptyRegistry (Some "constructor") run)) = [] /\
     snd (Server.getMcp Server.emptyRegistry (Some "constructor") run) = Server.Threw).
Proof.
  cbv zeta. split.
  - vm_compute. repeat split.
  - intros run. split; reflexivity.
Qed.

(** C8 (the code at the failing input).  A [POST /messages] whose
    [sessionId] is [constructor] matches no registered stream; yet the handler
    finds the inherited value, the call of [handlePostMessage] on it throws,
    and no 400 is written. *)
Theorem post_messages_inherited_session_id (run : Server.EngineRun) :
  Server.sse Server.emptyRegistry !! "constructor" = None /\
  Server.postMessages Server.emptyRegistry (Some "constructor") run =
    (Server.start Server.emptyRegistry, Server.Threw).
Proof. split; reflexivity. Qed.

(** * Further properties of the code *)

(** ** More on replay *)

Section ReplayShape.
Import JS EventStore.
Context {M : Type} {collation : Collation}.
Implicit Types (events entries : Events M).

Lemma replayLoop_of_stream (sid last : string) entries (found : bool) (d : string * M) :
  In d (replayLoop sid last entries found) ->
  exists entry,
    In entry entries /\ d = delivery entry /\
    streamId (snd entry) = sid /\ fst entry <> last.
Proof.
  revert found. induction entries as [|[i e] rest IH]; intros found; simpl; [tauto|].
  destruct (String.eqb_spec (streamId e) sid) as [Hs|Hs]; simpl.
  - destruct (String.eqb_spec i last) as [->|Hne].
    + intros H. destruct (IH _ H) as [x [? ?]]. eauto.
    + destruct found; simpl.
      * intros [<-|H]; [exists (i, e); auto|].
        destruct (IH _ H) as [x [? ?]]. eauto.
      * intros H. destruct (IH _ H) as [x [? ?]]. eauto.
  - intros H. destruct (IH _ H) as [x [? ?]]. eauto.
Qed.

Lemma replayLoop_Forall (P : string -> Prop) (sid last : string) entries (found : bool) :
  Forall P (keys entries) ->
  Forall P (List.map fst (replayLoop sid last entries found)).
Proof.
  revert found. induction entries as [|[i e] rest IH]; intros found H; simpl;
    [constructor|].
  unfold keys in H. simpl in H. inversion H as [|? ? Hi Hrest]; subst.
  destruct (negb (String.eqb (streamId e) sid)); [now apply IH|].
  destruct (String.eqb i last); [now apply IH|].
  destruct found; [|now apply IH].
  simpl. constructor; [assumption|now apply IH].
Qed.

Lemma replayLoop_sorted (R : string -> string -> Prop) (sid last : string) entries
    (found : bool) :
  StronglySorted R (keys entries) ->
  StronglySorted R (List.map fst (replayLoop sid last entries found)).
Proof.
  revert found. induction entries as [|[i e] rest IH]; intros found H; simpl;
    [constructor|].
  unfold keys in H. simpl in H. inversion H as [|? ? Hrest Hall]; subst.
  destruct (negb (String.eqb (streamId e) sid)); [now apply IH|].
  destruct (String.eqb i last); [now apply IH|].
  destruct found; [|now apply IH].
  simpl. constructor; [now apply IH|]. now apply replayLoop_Forall.
Qed.

Lemma sorted_keys (entries : Events M) :
  StronglySorted (notAfter byEventId) entries ->
  StronglySorted (fun a b => (localeCompare a b <= 0)%Z) (keys entries).
Proof.
  induction 1 as [|x l Hs IH Hall]; simpl; constructor; [assumption|].
  unfold keys. apply List.Forall_map. eapply List.Forall_impl; [|exact Hall].
  intros y Hy. exact Hy.
Qed.

Lemma mapHas_keys (k : string) events : mapHas k events = true <-> In k (keys events).
Proof.
  unfold mapHas. split.
  - destruct (mapGet k events) as [v|] eqn:G; [|discriminate]. intros _.
    apply mapGet_Some_In in G. unfold keys. apply in_map_iff. now exists (k, v).
  - intros H. destruct (mapGet k events) eqn:G; [reflexivity|].
    now apply mapGet_None_keys in G.
Qed.

Lemma In_nth_error_pos (l : Events M) (x : string * StoredEvent M) :
  In x l -> exists k, nth_error l k = Some x.
Proof.
  induction l as [|y l IH]; simpl; [tauto|].
  intros [->|H]; [now exists 0|].
  destruct (IH H) as [k Hk]. now exists (S k).
Qed.

End ReplayShape.

(** X1.  Whatever [replayEventsAfter] hands to [send] is the id and message
    of a stored event whose stream is the text before the first underscore of
    the marker, and it is never the marker itself. *)
Theorem replay_stays_in_stream {M : Type} {collation : JS.Collation}
    (events : EventStore.Events M)
    (lastEventId : string) (sent : string * M) :
  In sent (snd (EventStore.replayEventsAfter events lastEventId)) ->
  exists entry,
    In entry events /\ sent = EventStore.delivery entry /\
    EventStore.streamId (snd entry) = EventStore.getStreamIdFromEventId lastEventId /\
    fst entry <> lastEventId.
Proof.
  unfold EventStore.replayEventsAfter.
  destruct (String.eqb lastEventId "" || negb (JS.mapHas lastEventId events));
    simpl; [tauto|].
  destruct (String.eqb (EventStore.getStreamIdFromEventId lastEventId) "");
    simpl; [tauto|].
  intros H. apply replayLoop_of_stream in H as [entry [Hin [E [Hs Hne]]]].
  exists entry. repeat split; auto.
  eapply Permutation_in; [apply sort_perm|eassumption].
Qed.

(** X2.  [replayEventsAfter] sends in ascending order of event id under the
    host's [localeCompare], a consistent comparison function: no identifier
    is sent before one that collates in front of it, for every store and
    every marker. *)
Theorem replay_in_id_order {M : Type} {collation : JS.Collation}
    (events : EventStore.Events M) (lastEventId : string) :
  JS.Consistent collation ->
  StronglySorted (fun a b => (JS.localeCompare a b <= 0)%Z)
    (List.map fst (snd (EventStore.replayEventsAfter events lastEventId))).
Proof.
  intros Hcollation. unfold EventStore.replayEventsAfter.
  destruct (String.eqb lastEventId "" || negb (JS.mapHas lastEventId events));
    simpl; [constructor|].
  destruct (String.eqb (EventStore.getStreamIdFromEventId lastEventId) "");
    simpl; [constructor|].
  apply replayLoop_sorted. apply sorted_keys.
  apply sort_sorted;
    [apply (byEventId_total Hcollation)|apply (byEventId_trans Hcollation)].
Qed.

Section ReplayExact.
Import JS EventStore.
Context {M : Type} {collation : Collation}.
Implicit Types (events entries : Events M).

Lemma replay_found events (last : string) :
  mapHas last events = true ->
  getStreamIdFromEventId last <> "" ->
  replayEventsAfter events last =
    (getStreamIdFromEventId last,
     replayLoop (getStreamIdFromEventId last) last (sort byEventId events) false).
Proof.
  intros Hhas Hsid. unfold replayEventsAfter. rewrite Hhas.
  destruct (String.eqb_spec last "") as [->|_]; [now contradiction Hsid|].
  simpl. destruct (String.eqb_spec (getStreamIdFromEventId last) "");
    [contradiction|reflexivity].
Qed.

Lemma replay_resolved events (last : string) :
  Consistent collation ->
  mapHas last events = true ->
  getStreamIdFromEventId last <> "" ->
  replayEventsAfter events last =
    (getStreamIdFromEventId last,
     replayLoop (getStreamIdFromEventId last) last
       (sort byEventId (streamEvents (getStreamIdFromEventId last) events)) false).
Proof.
  intros Hcollation Hhas Hsid. rewrite replay_found by assumption.
  f_equal. rewrite replayLoop_filter.
  now rewrite (filter_sort byEventId (byEventId_total Hcollation)
                 (byEventId_trans Hcollation)).
Qed.

End ReplayExact.

(** X3.  Let the host's [localeCompare] be a consistent comparison function,
    the keys of the store distinct, the marker stored under the stream its id
    names, and no other identifier of that stream collate equal to the
    marker.  Then the replay answers that stream and sends exactly the events
    of the stream whose id collates behind the marker. *)
Theorem replay_exactly_later {M : Type} {collation : JS.Collation}
    (events : EventStore.Events M)
    (lastEventId : string) (marked : EventStore.StoredEvent M) :
  JS.Consistent collation ->
  List.NoDup (JS.keys events) ->
  In (lastEventId, marked) events ->
  EventStore.streamId marked = EventStore.getStreamIdFromEventId lastEventId ->
  EventStore.streamId marked <> "" ->
  (forall eventId e,
     In (eventId, e) events ->
     EventStore.streamId e = EventStore.streamId marked ->
     JS.localeCompare lastEventId eventId = 0%Z -> eventId = lastEventId) ->
  fst (EventStore.replayEventsAfter events lastEventId) = EventStore.streamId marked /\
  forall (eventId : string) (msg : M),
    In (eventId, msg) (snd (EventStore.replayEventsAfter events lastEventId)) <->
    exists e,
      In (eventId, e) events /\
      EventStore.streamId e = EventStore.streamId marked /\
      EventStore.message e = msg /\
      (JS.localeCompare lastEventId eventId < 0)%Z.
Proof.
  intros Hcollation Hnd Hin Hstream Hne Htie.
  set (sid := EventStore.getStreamIdFromEventId lastEventId) in *.
  rewrite replay_resolved;
    [|exact Hcollation|eapply mapHas_In; eauto|fold sid; congruence].
  fold sid. simpl. split; [congruence|].
  set (sorted := JS.sort EventStore.byEventId (EventStore.streamEvents sid events)).
  assert (Hperm : Permutation sorted (EventStore.streamEvents sid events))
    by apply sort_perm.
  assert (Hsorted : StronglySorted (JS.notAfter EventStore.byEventId) sorted)
    by (apply sort_sorted;
        [apply (byEventId_total Hcollation)|apply (byEventId_trans Hcollation)]).
  assert (Hkeys : List.NoDup (JS.keys sorted)).
  { eapply Permutation_NoDup.
    - apply Permutation_map. symmetry. exact Hperm.
    - now apply keys_filter_NoDup. }
  assert (Hmem : forall x, In x sorted <->
                   In x events /\ EventStore.streamId (snd x) = sid).
  { intros x. split.
    - intros Hx. apply (Permutation_in _ Hperm) in Hx.
      unfold EventStore.streamEvents in Hx. apply filter_In in Hx as [? Hs].
      unfold EventStore.ofStream in Hs. apply String.eqb_eq in Hs. auto.
    - intros [Hx Hs]. apply (Permutation_in _ (Permutation_sym Hperm)).
      unfold EventStore.streamEvents. apply filter_In. split; [assumption|].
      unfold EventStore.ofStream. now apply String.eqb_eq. }
  assert (Hmarked : In (lastEventId, marked) sorted) by (apply Hmem; auto).
  destruct (In_nth_error_pos sorted _ Hmarked) as [k Hk].
  assert (Hloop : EventStore.replayLoop sid lastEventId sorted false =
                  List.map EventStore.delivery (skipn (S k) sorted)).
  { apply (replayLoop_at sid sorted k (lastEventId, marked)); auto.
    apply List.Forall_forall. intros x Hx. apply Hmem in Hx as [_ Hs].
    unfold EventStore.ofStream. now apply String.eqb_eq. }
  rewrite Hloop.
  assert (Hlen : k < List.length sorted) by (apply nth_error_Some; congruence).
  assert (Hskip : In (lastEventId, marked) (skipn k sorted)).
  { rewrite <- (firstn_skipn_middle k sorted Hk) at 1.
    rewrite skipn_app, length_firstn.
    apply in_or_app. right.
    replace (k - Nat.min k (List.length sorted)) with 0 by lia. now left. }
  assert (Hfirst : In (lastEventId, marked) (firstn (S k) sorted)).
  { rewrite <- (firstn_skipn_middle k sorted Hk) at 1.
    rewrite firstn_app, firstn_firstn.
    apply in_or_app. right.
    rewrite length_firstn.
    replace (S k - Nat.min k (List.length sorted)) with 1 by lia.
    now left. }
  destruct Hcollation as [Hswap _].
  intros eventId msg. split.
  - intros Hsent. apply in_map_iff in Hsent as [[i e] [Ed Hx]].
    unfold EventStore.delivery in Ed. simpl in Ed. inversion Ed; subst i msg.
    assert (Hx' : In (eventId, e) sorted) by (eapply In_skipn; eauto).
    exists e. destruct (proj1 (Hmem _) Hx') as [Hev Hs]. simpl in Hs.
    repeat split; auto; [congruence|].
    assert (Hle : JS.notAfter EventStore.byEventId (lastEventId, marked) (eventId, e))
      by (eapply sorted_split_order; eauto).
    unfold JS.notAfter, EventStore.byEventId in Hle. simpl in Hle.
    assert (Hdiff : eventId <> lastEventId).
    { intros ->.
      assert (E : (lastEventId, e) = (lastEventId, marked))
        by (eapply keys_In_unique; eauto).
      inversion E; subst e.
      (* the marker cannot sit behind itself *)
      clear - Hkeys Hk Hx.
      assert (Hsplit := firstn_skipn_middle k sorted Hk).
      rewrite <- Hsplit in Hkeys. unfold JS.keys in Hkeys.
      rewrite List.map_app in Hkeys. simpl in Hkeys.
      apply NoDup_remove_2 in Hkeys. apply Hkeys. apply in_or_app. right.
      apply in_map_iff. now exists (lastEventId, marked). }
    assert (Hnot : JS.localeCompare lastEventId eventId <> 0%Z).
    { intros E. apply Hdiff. apply (Htie eventId e); [assumption|congruence|exact E]. }
    lia.
  - intros [e [Hev [Hs [Hm Hlt]]]].
    assert (Hx : In (eventId, e) sorted) by (apply Hmem; simpl; split; congruence).
    apply in_map_iff. exists (eventId, e).
    split; [unfold EventStore.delivery; simpl; now rewrite Hm|].
    rewrite <- (firstn_skipn (S k) sorted) in Hx.
    apply in_app_or in Hx as [Hx|Hx]; [exfalso|assumption].
    rewrite <- (firstn_skipn_middle k sorted Hk) in Hx at 1.
    rewrite firstn_app, firstn_firstn, length_firstn in Hx.
    replace (Nat.min (S k) k) with k in Hx by lia.
    replace (S k - Nat.min k (List.length sorted)) with 1 in Hx by lia.
    simpl in Hx. rewrite firstn_O in Hx.
    pose proof (Hswap lastEventId eventId) as Hopposite.
    apply in_app_or in Hx as [Hx|[Hx|[]]].
    + pose proof (sorted_split_order _ k sorted _ _ Hsorted Hx Hskip) as Hle.
      unfold JS.notAfter, EventStore.byEventId in Hle. simpl in Hle. lia.
    + inversion Hx; subst. lia.
Qed.

(** X4.  The replay depends on the store only through the presence of the
    marker and the events of the marker's stream: under a consistent
    [localeCompare], two stores that agree on these replay alike, whatever
    other streams they hold. *)
Theorem replay_ignores_other_streams {M : Type} {collation : JS.Collation}
    (events others : EventStore.Events M)
    (lastEventId : string) :
  JS.Consistent collation ->
  JS.mapHas lastEventId events = JS.mapHas lastEventId others ->
  EventStore.streamEvents (EventStore.getStreamIdFromEventId lastEventId) events =
  EventStore.streamEvents (EventStore.getStreamIdFromEventId lastEventId) others ->
  EventStore.replayEventsAfter events lastEventId =
  EventStore.replayEventsAfter others lastEventId.
Proof.
  intros Hcollation Hhas Hstream. unfold EventStore.replayEventsAfter. rewrite Hhas.
  destruct (String.eqb lastEventId "" || negb (JS.mapHas lastEventId others));
    [reflexivity|].
  destruct (String.eqb (EventStore.getStreamIdFromEventId lastEventId) "");
    [reflexivity|].
  f_equal. rewrite replayLoop_filter.
  rewrite (replayLoop_filter _ _ (JS.sort EventStore.byEventId others)).
  rewrite !(filter_sort EventStore.byEventId (byEventId_total Hcollation)
              (byEventId_trans Hcollation)).
  unfold EventStore.streamEvents in Hstream. now rewrite Hstream.
Qed.

Lemma replay_stays_in_stream_witness :
  let events :=
    [ ("s1_1700000000000_aa", EventStore.mkEvent "s1" 1%nat 1700000000000);
      ("s2_1700000000001_bb", EventStore.mkEvent "s2" 2%nat 1700000000001);
      ("s1_1700000000002_cc", EventStore.mkEvent "s1" 3%nat 1700000000002) ] in
  exists entry,
    In entry events /\
    ("s1_1700000000002_cc", 3%nat) = EventStore.delivery entry /\
    EventStore.streamId (snd entry) =
      EventStore.getStreamIdFromEventId "s1_1700000000000_aa" /\
    fst entry <> "s1_1700000000000_aa".
Proof.
  cbv zeta.
  apply (replay_stays_in_stream (collation := JS.codeUnits)
           _ "s1_1700000000000_aa" ("s1_1700000000002_cc", 3%nat)).
  vm_compute. left. reflexivity.
Defined.

Lemma replay_exactly_later_witness :
  let collation : JS.Collation := JS.codeUnits in
  let events :=
    [ ("s1_1700000000002_cc", EventStore.mkEvent "s1" 3%nat 1700000000002);
      ("s2_1700000000001_bb", EventStore.mkEvent "s2" 2%nat 1700000000001);
      ("s1_1700000000000_aa", EventStore.mkEvent "s1" 1%nat 1700000000000) ] in
  fst (EventStore.replayEventsAfter events "s1_1700000000000_aa") = "s1" /\
  forall (eventId : string) (msg : nat),
    In (eventId, msg) (snd (EventStore.replayEventsAfter events "s1_1700000000000_aa")) <->
    exists e,
      In (eventId, e) events /\ EventStore.streamId e = "s1" /\
      EventStore.message e = msg /\
      (JS.localeCompare "s1_1700000000000_aa" eventId < 0)%Z.
Proof.
  cbv zeta.
  refine (replay_exactly_later (collation := JS.codeUnits) _ "s1_1700000000000_aa"
            (EventStore.mkEvent "s1" 1%nat 1700000000000) _ _ _ _ _ _).
  - exact codeUnits_consistent.
  - repeat (apply List.NoDup_cons; [simpl; intuition discriminate|]).
    apply List.NoDup_nil.
  - simpl. auto.
  - reflexivity.
  - discriminate.
  - intros eventId e _ _ Htie. unfold JS.localeCompare, JS.codeUnits in Htie.
    destruct (String.compare "s1_1700000000000_aa" eventId) eqn:E; try discriminate.
    symmetry. now apply String.compare_eq_iff.
Defined.

Lemma replay_ignores_other_streams_witness :
  let collation : JS.Collation := JS.codeUnits in
  let mine := ("s1_1700000000000_aa", EventStore.mkEvent "s1" 1%nat 1700000000000) in
  let later := ("s1_1700000000002_cc", EventStore.mkEvent "s1" 3%nat 1700000000002) in
  let other := ("s2_1700000000001_bb", EventStore.mkEvent "s2" 2%nat 1700000000001) in
  EventStore.replayEventsAfter [mine; other; later] "s1_1700000000000_aa" =
  EventStore.replayEventsAfter [mine; later] "s1_1700000000000_aa".
Proof.
  cbv zeta. apply replay_ignores_other_streams;
    [exact codeUnits_consistent|reflexivity|reflexivity].
Defined.

Lemma replay_in_id_order_witness :
  let collation : JS.Collation := JS.codeUnits in
  let events :=
    [ ("s1_1700000000002_cc", EventStore.mkEvent "s1" 3%nat 1700000000002);
      ("s1_1700000000001_bb", EventStore.mkEvent "s1" 2%nat 1700000000001);
      ("s1_1700000000000_aa", EventStore.mkEvent "s1" 1%nat 1700000000000) ] in
  snd (EventStore.replayEventsAfter events "s1_1700000000000_aa") =
    [ ("s1_1700000000001_bb", 2%nat); ("s1_1700000000002_cc", 3%nat) ] /\
  StronglySorted (fun a b => (JS.localeCompare a b <= 0)%Z)
    (List.map fst (snd (EventStore.replayEventsAfter events "s1_1700000000000_aa"))).
Proof.
  cbv zeta. split; [reflexivity|].
  apply (replay_in_id_order (collation := JS.codeUnits)).
  exact codeUnits_consistent.
Defined.

(** ** More on eviction *)

Section EvictionShape.
Import JS EventStore Sessions.
Context {M : Type}.
Implicit Types (events kept : Events M).

Lemma filter_sublist (p : string * StoredEvent M -> bool) events :
  sublist (List.filter p events) events.
Proof.
  induction events as [|x rest IH]; simpl; [constructor|].
  destruct (p x); now constructor.
Qed.

Lemma mapDelete_sublist (k : string) events : sublist (mapDelete k events) events.
Proof.
  induction events as [|[i e] rest IH]; simpl; [constructor|].
  destruct (String.eqb i k); [now constructor|now constructor].
Qed.

Lemma deleteOldest_sublist (n : nat) (oldest events kept : Events M) :
  deleteOldest n oldest events = Some kept -> sublist kept events.
Proof.
  revert oldest events. induction n as [|n IH]; intros oldest events; simpl.
  - intros [= <-]. reflexivity.
  - destruct oldest as [|[i e] rest]; [discriminate|].
    intros H. apply IH in H. etransitivity; [exact H|apply mapDelete_sublist].
Qed.

Lemma trimStreams_sublist (counts : OrderedMap nat) events kept :
  trimStreams counts events = Some kept -> sublist kept events.
Proof.
  revert events. induction counts as [|[s c] rest IH]; intros events; simpl.
  - intros [= <-]. reflexivity.
  - destruct (trimStream events s c) as [events'|] eqn:T; [|discriminate].
    intros H. apply IH in H. etransitivity; [exact H|].
    unfold trimStream in T. destruct (_ <? _)%nat.
    + now apply deleteOldest_sublist in T.
    + inversion T. reflexivity.
Qed.

Lemma cleanupOldEvents_sublist (now : Z) events kept :
  cleanupOldEvents now events = Some kept -> sublist kept events.
Proof.
  unfold cleanupOldEvents.
  pose proof (sweepAges_kept now events []) as Hkept.
  destruct (sweepAges now events []) as [swept counts]. simpl in Hkept. subst swept.
  intros H. apply trimStreams_sublist in H.
  etransitivity; [exact H|apply filter_sublist].
Qed.

Lemma stream_indicator (t : string) (streams : list string) :
  List.NoDup streams -> In t streams ->
  list_sum (List.map (fun s => if String.eqb t s then 1 else 0) streams) = 1.
Proof.
  induction streams as [|s rest IH]; simpl; intros Hnd Hin; [tauto|].
  apply NoDup_cons_iff in Hnd as [Hs Hrest].
  destruct (String.eqb_spec t s) as [->|Hne].
  - f_equal. clear IH Hin. induction rest as [|r rest IH]; simpl; [reflexivity|].
    simpl in Hs. destruct (String.eqb_spec s r) as [->|_]; [tauto|].
    apply IH; [tauto|]. now apply NoDup_cons_iff in Hrest.
  - destruct Hin as [->|Hin]; [contradiction|]. now apply IH.
Qed.

Lemma length_by_stream events (streams : list string) :
  List.NoDup streams ->
  (forall x, In x events -> In (streamId (snd x)) streams) ->
  List.length events = list_sum (List.map (fun s => countOf s events) streams).
Proof.
  intros Hnd. induction events as [|x rest IH]; intros Hall.
  - simpl. clear. induction streams as [|s streams IHs]; simpl; [reflexivity|].
    exact IHs.
  - simpl List.length. rewrite IH by (intros y Hy; apply Hall; now right).
    transitivity
      (list_sum (List.map (fun s => if String.eqb (streamId (snd x)) s then 1 else 0)
                   streams)
       + list_sum (List.map (fun s => countOf s rest) streams)).
    { rewrite (stream_indicator (streamId (snd x)) streams Hnd)
        by (apply Hall; now left). reflexivity. }
    clear. induction streams as [|s streams IHs]; simpl; [reflexivity|].
    rewrite countOf_cons. lia.
Qed.

Lemma list_sum_bound (f : string -> nat) (c : nat) (streams : list string) :
  (forall s, f s <= c) -> list_sum (List.map f streams) <= c * List.length streams.
Proof.
  intros H. induction streams as [|s rest IH]; simpl; [lia|].
  specialize (H s). lia.
Qed.

End EvictionShape.

(** X5.  When the generated id is new, no stored event has expired and no
    stream is past the cap, [storeEvent] appends the event at the end and
    removes nothing. *)
Theorem store_appends_when_idle {M : Type} (events : EventStore.Events M)
    (sid : string) (msg : M) (h : EventStore.Host) :
  let entry := EventStore.entryOf (sid, msg, h) in
  JS.mapHas (fst entry) events = false ->
  (forall x, In x (events ++ [entry])%list ->
     (EventStore.sweepClock h - EventStore.timestamp (snd x) <= EventStore.maxAge)%Z) ->
  (forall s, EventStore.countOf s (events ++ [entry])%list
               <= EventStore.maxEventsPerStream) ->
  EventStore.storeEvent events sid msg h = Some ((events ++ [entry])%list, fst entry).
Proof.
  intros entry Hfresh Hage Hcap. unfold EventStore.storeEvent.
  unfold entry, EventStore.entryOf in *. simpl in *.
  rewrite (mapSet_fresh _ _ _ Hfresh).
  now rewrite cleanupOldEvents_idle.
Qed.

Lemma store_appends_when_idle_witness :
  let events :=
    [ ("s1_1700000000000_aa", EventStore.mkEvent "s1" 1%nat 1700000000000);
      ("s2_1700000000001_bb", EventStore.mkEvent "s2" 2%nat 1700000000001) ] in
  EventStore.storeEvent events "s1" 3%nat
    (EventStore.mkHost 1700000000002 1700000000002 1700000000003 "cc") =
  Some ((events ++ [ ("s1_1700000000002_cc",
                      EventStore.mkEvent "s1" 3%nat 1700000000002) ])%list,
        "s1_1700000000002_cc").
Proof.
  cbv zeta.
  refine (store_appends_when_idle _ "s1" 3%nat
            (EventStore.mkHost 1700000000002 1700000000002 1700000000003 "cc") _ _ _).
  - reflexivity.
  - intros x Hx. simpl in Hx.
    destruct Hx as [<-|[<-|[<-|[]]]]; vm_compute; discriminate.
  - intros s. etransitivity; [apply filter_length_le|].
    unfold EventStore.maxEventsPerStream. simpl. lia.
Defined.

(** X6.  [storeEvent] neither reorders nor invents: what it leaves is a
    subsequence, in insertion order, of the store with the new event set. *)
Theorem store_keeps_order {M : Type} (events : EventStore.Events M)
    (sid : string) (msg : M) (h : EventStore.Host) :
  List.NoDup (JS.keys events) ->
  exists kept,
    EventStore.storeEvent events sid msg h =
      Some (kept, fst (EventStore.entryOf (sid, msg, h))) /\
    sublist kept
      (JS.mapSet (fst (EventStore.entryOf (sid, msg, h)))
                 (snd (EventStore.entryOf (sid, msg, h))) events).
Proof.
  intros Hnd. destruct (storeEvent_spec events sid msg h Hnd) as [kept [Hrun _]].
  exists kept. split; [exact Hrun|].
  unfold EventStore.storeEvent in Hrun. simpl.
  destruct (EventStore.cleanupOldEvents _ _) as [kept'|] eqn:C; [|discriminate].
  inversion Hrun; subst kept'. now apply cleanupOldEvents_sublist in C.
Qed.

Lemma store_keeps_order_witness :
  let events :=
    [ ("s1_1700000000000_aa", EventStore.mkEvent "s1" 1%nat 1700000000000);
      ("s2_1700003000000_bb", EventStore.mkEvent "s2" 2%nat 1700003000000) ] in
  let h := EventStore.mkHost 1700003600001 1700003600001 1700003600001 "cc" in
  exists kept,
    EventStore.storeEvent events "s1" 3%nat h = Some (kept, "s1_1700003600001_cc") /\
    sublist kept
      (events ++ [ ("s1_1700003600001_cc",
                    EventStore.mkEvent "s1" 3%nat 1700003600001) ])%list.
Proof.
  cbv zeta.
  refine (store_keeps_order _ "s1" 3%nat
            (EventStore.mkHost 1700003600001 1700003600001 1700003600001 "cc") _).
  repeat (apply List.NoDup_cons; [simpl; intuition discriminate|]).
  apply List.NoDup_nil.
Defined.

(** X7.  After [storeEvent], [getEventCount] is at most the cap times the
    number of streams present in the store. *)
Theorem store_bounds_event_count {M : Type} (events : EventStore.Events M)
    (sid : string) (msg : M) (h : EventStore.Host) :
  List.NoDup (JS.keys events) ->
  exists kept,
    EventStore.storeEvent events sid msg h =
      Some (kept, fst (EventStore.entryOf (sid, msg, h))) /\
    EventStore.getEventCount kept
      <= EventStore.maxEventsPerStream * List.length (Sessions.streamsOf kept).
Proof.
  intros Hnd. destruct (storeEvent_counts events sid msg h Hnd) as [kept [Hrun Hcount]].
  exists kept. split; [exact Hrun|].
  unfold EventStore.getEventCount.
  rewrite (length_by_stream kept (Sessions.streamsOf kept)).
  - apply list_sum_bound. intros s. rewrite Hcount. lia.
  - apply NoDup_nodup.
  - intros x Hx. unfold Sessions.streamsOf. apply nodup_In.
    apply in_map_iff. now exists x.
Qed.

Lemma store_bounds_event_count_witness :
  let events :=
    [ ("s1_1700000000000_aa", EventStore.mkEvent "s1" 1%nat 1700000000000);
      ("s2_1700000000001_bb", EventStore.mkEvent "s2" 2%nat 1700000000001) ] in
  let h := EventStore.mkHost 1700000000002 1700000000002 1700000000003 "cc" in
  exists kept,
    EventStore.storeEvent events "s1" 3%nat h = Some (kept, "s1_1700000000002_cc") /\
    EventStore.getEventCount kept
      <= EventStore.maxEventsPerStream * List.length (Sessions.streamsOf kept).
Proof.
  cbv zeta.
  refine (store_bounds_event_count _ "s1" 3%nat
            (EventStore.mkHost 1700000000002 1700000000002 1700000000003 "cc") _).
  repeat (apply List.NoDup_cons; [simpl; intuition discriminate|]).
  apply List.NoDup_nil.
Defined.

(** X8.  An event that has expired when [storeEvent] runs is no resumption
    marker afterwards: the replay from it answers the empty stream and sends
    nothing. *)
Theorem expired_marker_cannot_resume {M : Type} {collation : JS.Collation}
    (events : EventStore.Events M)
    (sid : string) (msg : M) (h : EventStore.Host)
    (eventId : string) (e : EventStore.StoredEvent M) :
  List.NoDup (JS.keys events) ->
  In (eventId, e) events ->
  (EventStore.sweepClock h - EventStore.timestamp e > EventStore.maxAge)%Z ->
  eventId <> fst (EventStore.entryOf (sid, msg, h)) ->
  exists kept,
    EventStore.storeEvent events sid msg h =
      Some (kept, fst (EventStore.entryOf (sid, msg, h))) /\
    EventStore.replayEventsAfter kept eventId = ("", []).
Proof.
  intros Hnd Hin Hold Hne.
  destruct (storeEvent_spec events sid msg h Hnd) as [kept [Hrun _]].
  exists kept. split; [exact Hrun|].
  assert (Hgone : JS.mapHas eventId kept = false).
  { destruct (JS.mapHas eventId kept) eqn:Hhas; [|reflexivity]. exfalso.
    apply mapHas_keys in Hhas. unfold JS.keys in Hhas.
    apply in_map_iff in Hhas as [x [Ex Hx]].
    destruct (stored_within_window events sid msg h kept _ x Hnd Hrun Hx)
      as [Hset Hage].
    apply mapSet_In in Hset as [->|Hprev].
    - simpl in Ex. simpl in Hne. congruence.
    - assert (x = (eventId, e))
        by exact (keys_In_unique events x (eventId, e) Hnd Hprev Hin Ex).
      subst x. simpl in Hage. lia. }
  unfold EventStore.replayEventsAfter. rewrite Hgone. now rewrite orb_true_r.
Qed.

Lemma expired_marker_cannot_resume_witness :
  let collation : JS.Collation := JS.codeUnits in
  let events :=
    [ ("s1_1700000000000_aa", EventStore.mkEvent "s1" 1%nat 1700000000000);
      ("s1_1700003000000_bb", EventStore.mkEvent "s1" 2%nat 1700003000000) ] in
  let h := EventStore.mkHost 1700003600001 1700003600001 1700003600001 "cc" in
  exists kept,
    EventStore.storeEvent events "s1" 3%nat h = Some (kept, "s1_1700003600001_cc") /\
    EventStore.replayEventsAfter kept "s1_1700000000000_aa" = ("", []).
Proof.
  cbv zeta.
  refine (expired_marker_cannot_resume _ "s1" 3%nat
            (EventStore.mkHost 1700003600001 1700003600001 1700003600001 "cc")
            "s1_1700000000000_aa" (EventStore.mkEvent "s1" 1%nat 1700000000000)
            _ _ _ _).
  - repeat (apply List.NoDup_cons; [simpl; intuition discriminate|]).
    apply List.NoDup_nil.
  - left. reflexivity.
  - reflexivity.
  - discriminate.
Defined.

(** ** Sessions over their lifetime *)

Section SessionFacts.
Import JS Server Sessions.

Lemma uuidToString_nonempty (u : UUID) : uuidToString u <> "".
Proof.
  intros E. pose proof (uuidToString_hyphen u) as H. rewrite E in H. discriminate.
Qed.

Lemma truthyString_uuid (u : UUID) : truthyString (Some (uuidToString u)) = true.
Proof.
  simpl. destruct (String.eqb_spec (uuidToString u) ""); [|reflexivity].
  now apply uuidToString_nonempty in e.
Qed.

Lemma kept_allocateStore (reg : Registry) :
  Owned reg /\ Allocated reg /\ Unshared reg ->
  Owned (allocateStore reg) /\ Allocated (allocateStore reg) /\ Unshared (allocateStore reg).
Proof.
  intros [Ho [Hb Hu]]. split; [|split].
  - intros id t H. destruct (Ho id t H) as [? [? [? ?]]]. simpl. auto with lia.
  - intros id store H. specialize (Hb id store H). simpl. lia.
  - exact Hu.
Qed.

Lemma kept_sessionInitialized (u : UUID) (store : StoreRef) (reg : Registry) :
  (forall id' store', eventStores reg !! id' = Some store' -> store' < store) ->
  store < storesAllocated reg ->
  Owned reg /\ Allocated reg /\ Unshared reg ->
  let next := sessionInitialized (uuidToString u)
                (mkTransport (Some (uuidToString u)) store) store reg in
  Owned next /\ Allocated next /\ Unshared next.
Proof.
  intros Hfresh Hlt [Ho [Hb Hu]] next. subst next. split; [|split].
  - intros id t. simpl. destruct (decide (uuidToString u = id)) as [<-|Hne].
    + rewrite !lookup_insert_eq. intros [= <-]. simpl. eauto.
    + rewrite !lookup_insert_ne by assumption. apply Ho.
  - intros id s. simpl. destruct (decide (uuidToString u = id)) as [<-|Hne].
    + rewrite lookup_insert_eq. now intros [= <-].
    + rewrite lookup_insert_ne by assumption. apply Hb.
  - intros id1 id2 s. simpl.
    destruct (decide (uuidToString u = id1)) as [<-|H1];
      destruct (decide (uuidToString u = id2)) as [<-|H2];
      rewrite ?lookup_insert_eq, ?lookup_insert_ne by assumption; auto.
    + intros [= <-] H. apply Hfresh in H. lia.
    + intros H [= <-]. apply Hfresh in H. lia.
    + apply Hu.
Qed.

Lemma kept_deleteSession (key : string) (reg : Registry) :
  Owned reg /\ Allocated reg /\ Unshared reg ->
  Owned (deleteSession key reg) /\ Allocated (deleteSession key reg)
  /\ Unshared (deleteSession key reg).
Proof.
  intros [Ho [Hb Hu]]. split; [|split].
  - intros id t. simpl. destruct (decide (key = id)) as [<-|Hne].
    + rewrite lookup_delete_eq. discriminate.
    + rewrite !lookup_delete_ne by assumption. apply Ho.
  - intros id s. simpl. destruct (decide (key = id)) as [<-|Hne].
    + rewrite lookup_delete_eq. discriminate.
    + rewrite lookup_delete_ne by assumption. apply Hb.
  - intros id1 id2 s. simpl.
    destruct (decide (key = id1)) as [<-|H1]; [rewrite lookup_delete_eq; discriminate|].
    destruct (decide (key = id2)) as [<-|H2]; [rewrite lookup_delete_eq; discriminate|].
    rewrite !lookup_delete_ne by assumption. apply Hu.
Qed.

Lemma kept_onclose (t : StreamableTransport) (reg : Registry) :
  Owned reg /\ Allocated reg /\ Unshared reg ->
  Owned (onclose t reg) /\ Allocated (onclose t reg) /\ Unshared (onclose t reg).
Proof.
  intros H. unfold onclose. destruct (_ && _); [|assumption].
  now apply kept_deleteSession.
Qed.

Lemma kept_handled (reg reg' : Registry) :
  Handled reg reg' ->
  Owned reg /\ Allocated reg /\ Unshared reg ->
  Owned reg' /\ Allocated reg' /\ Unshared reg'.
Proof.
  intros [] Hk.
  - unfold postMcp. rewrite catchPost_registry.
    destruct (truthyString sessionId && _).
    + destruct (objectGet _ _); [rewrite runEngine_registry|..]; exact Hk.
    + destruct (negb (truthyString sessionId) && isInitialize); [|exact Hk].
      destruct connectFaults.
      * simpl. now apply kept_allocateStore.
      * unfold handshake. rewrite runEngine_registry.
        destruct (initializedAs hs) as [u|]; simpl.
        -- apply (kept_sessionInitialized u (storesAllocated reg0) (allocateStore reg0)).
           ++ intros id' store' H. simpl in H. destruct Hk as [_ [Hb _]].
              exact (Hb id' store' H).
           ++ simpl. lia.
           ++ now apply kept_allocateStore.
        -- now apply kept_allocateStore.
  - unfold getMcp. destruct (_ || _); [exact Hk|].
    destruct (objectGet _ _); [rewrite runEngine_registry|..]; exact Hk.
  - unfold deleteMcp. destruct (negb (truthyString sessionId)); [exact Hk|].
    destruct (negb (truthy _)); [exact Hk|].
    unfold terminate. simpl.
    destruct (objectGet (streamable reg0) (default "" sessionId)) as [t|name|].
    + destruct close; simpl.
      * now apply kept_deleteSession, kept_onclose.
      * exact Hk.
      * now apply kept_onclose.
    + simpl. now apply kept_deleteSession.
    + simpl. now apply kept_deleteSession.
  - unfold getSse. rewrite runEngine_registry. exact Hk.
  - unfold postMessages.
    destruct (objectGet _ _); [rewrite runEngine_registry|..]; exact Hk.
  - now apply kept_onclose.
  - exact Hk.
Qed.

Lemma served_kept (reg : Registry) :
  Served reg -> Owned reg /\ Allocated reg /\ Unshared reg.
Proof.
  unfold Served. apply (rtc_ind_r (fun r => Owned r /\ Allocated r /\ Unshared r)).
  - split; [|split].
    + intros id t H. simpl in H. rewrite lookup_empty in H. discriminate.
    + intros id s H. simpl in H. rewrite lookup_empty in H. discriminate.
    + intros id1 id2 s H. simpl in H. rewrite lookup_empty in H. discriminate.
  - intros r1 r2 _ Hh IH. eapply kept_handled; eauto.
Qed.

Lemma objectGet_uuid_missing {T : Type} (obj : gmap string T) (u : UUID) :
  obj !! uuidToString u = None -> objectGet obj (uuidToString u) = Undefined.
Proof. intros H. apply objectGet_unknown; [assumption|apply uuidToString_own]. Qed.

End SessionFacts.

(** X9.  In every registry the handlers and close notifications lead to
    from the empty one, a registered transport sits under its own session id, a
    printed UUID, together with the event store it was constructed with, and
    no event store belongs to two sessions. *)
Theorem sessions_own_their_store (reg : Server.Registry) :
  Sessions.Served reg -> Sessions.Owned reg /\ Sessions.Unshared reg.
Proof. intros H. destruct (served_kept reg H) as [Ho [_ Hu]]. now split. Qed.

Lemma sessions_own_their_store_witness :
  let first := Server.mkUUID 24197857200151252728969465429440056815%N in
  let second := Server.mkUUID 1311768467463790320%N in
  let run := Server.mkRun true false in
  let one :=
    Server.registry
      (fst (Server.postMcp Server.emptyRegistry None true false
              (Server.mkHandshake (Some first) run) run)) in
  let two :=
    Server.registry
      (fst (Server.postMcp one None true false
              (Server.mkHandshake (Some second) run) run)) in
  Sessions.Owned two /\ Sessions.Unshared two.
Proof.
  cbv zeta. apply sessions_own_their_store.
  unfold Sessions.Served.
  eapply rtc_l; [constructor|]. apply rtc_once. constructor.
Defined.



(** X11.  Only the session life cycle writes the registry: a [POST /mcp]
    that carries a session id or is no initialize request, a [GET /mcp] and a
    [POST /messages] leave it as it was, whatever their outcome. *)
Theorem registry_changes_only_on_lifecycle (reg : Server.Registry)
    (sessionId : option string) (isInitialize connectFaults : bool)
    (hs : Server.Handshake) (run : Server.EngineRun) :
  (JS.truthyString sessionId = true \/ isInitialize = false ->
   Server.registry
     (fst (Server.postMcp reg sessionId isInitialize connectFaults hs run)) = reg) /\
  Server.registry (fst (Server.getMcp reg sessionId run)) = reg /\
  Server.registry (fst (Server.postMessages reg sessionId run)) = reg.
Proof.
  split; [|split].
  - intros H. unfold Server.postMcp. rewrite catchPost_registry.
    destruct (JS.truthyString sessionId) eqn:T; simpl.
    + destruct (JS.truthy _); simpl; [|reflexivity].
      destruct (JS.objectGet _ _); [rewrite runEngine_registry|..]; reflexivity.
    + destruct H as [H| ->]; [discriminate|reflexivity].
  - unfold Server.getMcp. destruct (_ || _); [reflexivity|].
    destruct (JS.objectGet _ _); [rewrite runEngine_registry|..]; reflexivity.
  - unfold Server.postMessages.
    destruct (JS.objectGet _ _); [rewrite runEngine_registry|..]; reflexivity.
Qed.

Lemma registry_changes_only_on_lifecycle_witness :
  let u := Server.mkUUID 24197857200151252728969465429440056815%N in
  let run := Server.mkRun true false in
  let opened :=
    Server.registry
      (fst (Server.postMcp Server.emptyRegistry None true false
              (Server.mkHandshake (Some u) run) run)) in
  Server.registry
    (fst (Server.postMcp opened (Some (Server.uuidToString u)) true false
            (Server.mkHandshake (Some (Server.mkUUID 7%N)) run) run)) = opened.
Proof.
  cbv zeta.
  apply (proj1 (registry_changes_only_on_lifecycle _ _ true false _ _)).
  left. vm_compute. reflexivity.
Defined.

(** X12.  Terminating a registered session by [DELETE /mcp] answers 200,
    and the same request again answers 404 "Session not found". *)
Theorem terminate_twice (reg : Server.Registry) (u : Server.UUID)
    (t : Server.StreamableTransport) (again : Server.CloseRun) :
  let id := Server.uuidToString u in
  Server.streamable reg !! id = Some t ->
  let first := fst (Server.deleteMcp reg (Some id) Server.Closes) in
  Server.sent first = [Server.Reply 200 Server.JsonRpcTerminated] /\
  Server.deleteMcp (Server.registry first) (Some id) again =
    (Server.send
       (Server.Reply 404 (Server.JsonRpcError (-32001) "Session not found" false))
       (Server.start (Server.registry first)),
     Server.Returned).
Proof.
  intros id Hsome first.
  pose proof (deleteMcp_registered reg id t Server.Closes
                (uuidToString_nonempty u) Hsome) as [Hsent [Hgone _]].
  split; [exact Hsent|].
  apply deleteMcp_not_found; [apply uuidToString_nonempty|exact Hgone|].
  apply uuidToString_own.
Qed.

Lemma terminate_twice_witness :
  let u := Server.mkUUID 24197857200151252728969465429440056815%N in
  let run := Server.mkRun true false in
  let opened :=
    Server.registry
      (fst (Server.postMcp Server.emptyRegistry None true false
              (Server.mkHandshake (Some u) run) run)) in
  let first := fst (Server.deleteMcp opened (Some (Server.uuidToString u)) Server.Closes) in
  Server.sent first = [Server.Reply 200 Server.JsonRpcTerminated] /\
  Server.sent
    (fst (Server.deleteMcp (Server.registry first) (Some (Server.uuidToString u))
            Server.Closes)) =
  [Server.Reply 404 (Server.JsonRpcError (-32001) "Session not found" false)].
Proof.
  cbv zeta.
  destruct (terminate_twice
              (Server.registry
                 (fst (Server.postMcp Server.emptyRegistry None true false
                         (Server.mkHandshake
                            (Some (Server.mkUUID 24197857200151252728969465429440056815%N))
                            (Server.mkRun true false))
                         (Server.mkRun true false))))
              (Server.mkUUID 24197857200151252728969465429440056815%N)
              (Server.mkTransport
                 (Some (Server.uuidToString
                          (Server.mkUUID 24197857200151252728969465429440056815%N))) 0)
              Server.Closes) as [H200 H404].
  - vm_compute. reflexivity.
  - split; [exact H200|]. now rewrite H404.
Defined.

(** X13.  A [DELETE /mcp] touches no session but the one it names: every
    other key of both maps, and the legacy streams, stay as they were. *)
Theorem delete_leaves_other_sessions (reg : Server.Registry) (key other : string)
    (close : Server.CloseRun) :
  Sessions.Served reg ->
  other <> key ->
  let after := Server.registry (fst (Server.deleteMcp reg (Some key) close)) in
  Server.streamable after !! other = Server.streamable reg !! other /\
  Server.eventStores after !! other = Server.eventStores reg !! other /\
  Server.sse after = Server.sse reg.
Proof.
  intros Hserved Hne after. destruct (served_kept reg Hserved) as [Ho _].
  unfold after, Server.deleteMcp.
  destruct (negb (JS.truthyString (Some key))); [simpl; auto|].
  destruct (negb (JS.truthy _)); [simpl; auto|].
  unfold Server.terminate. simpl.
  destruct (JS.objectGet (Server.streamable reg) key) as [t|name|] eqn:G.
  - assert (Ht : Server.streamable reg !! key = Some t).
    { unfold JS.objectGet in G. destruct (Server.streamable reg !! key) eqn:L.
      - now inversion G.
      - destruct (existsb _ _); discriminate. }
    destruct (Ho key t Ht) as [_ [Hsid _]].
    assert (Hclose : Server.onclose t reg = Server.deleteSession key reg \/
                     Server.onclose t reg = reg).
    { unfold Server.onclose. rewrite Hsid. simpl default.
      destruct (_ && _); auto. }
    destruct close; simpl.
    + destruct Hclose as [-> | ->]; simpl;
        rewrite ?lookup_delete_ne by congruence; auto.
    + auto.
    + destruct Hclose as [-> | ->]; simpl;
        rewrite ?lookup_delete_ne by congruence; auto.
  - simpl. rewrite ?lookup_delete_ne by congruence. auto.
  - simpl. rewrite ?lookup_delete_ne by congruence. auto.
Qed.

Lemma delete_leaves_other_sessions_witness :
  let first := Server.mkUUID 24197857200151252728969465429440056815%N in
  let second := Server.mkUUID 1311768467463790320%N in
  let run := Server.mkRun true false in
  let one :=
    Server.registry
      (fst (Server.postMcp Server.emptyRegistry None true false
              (Server.mkHandshake (Some first) run) run)) in
  let two :=
    Server.registry
      (fst (Server.postMcp one None true false
              (Server.mkHandshake (Some second) run) run)) in
  let after :=
    Server.registry
      (fst (Server.deleteMcp two (Some (Server.uuidToString first)) Server.Closes)) in
  Server.streamable after !! Server.uuidToString second =
    Server.streamable two !! Server.uuidToString second /\
  Server.eventStores after !! Server.uuidToString second =
    Server.eventStores two !! Server.uuidToString second /\
  Server.sse after = Server.sse two.
Proof.
  cbv zeta. apply delete_leaves_other_sessions.
  - unfold Sessions.Served.
    eapply rtc_l; [constructor|]. apply rtc_once. constructor.
  - vm_compute. discriminate.
Defined.

(** X14.  Once the transport of a session has closed, the session id is in
    neither map, a [POST /mcp] carrying it is answered 400 "No valid session
    ID provided" and a [GET /mcp] is answered 400 "Session ID required". *)
Theorem closed_session_is_refused (reg : Server.Registry) (id : string)
    (t : Server.StreamableTransport) :
  Sessions.Served reg ->
  Server.streamable reg !! id = Some t ->
  let closed := Server.onclose t reg in
  Server.streamable closed !! id = None /\
  Server.eventStores closed !! id = None /\
  (forall isInitialize connectFaults hs run,
     Server.postMcp closed (Some id) isInitialize connectFaults hs run =
       (Server.send Server.badRequestNoSession (Server.start closed), Server.Returned)) /\
  (forall run,
     Server.getMcp closed (Some id) run =
       (Server.send (Server.Reply 400 (Server.PlainText "Session ID required"))
          (Server.start closed),
        Server.Returned)).
Proof.
  intros Hserved Hsome closed. destruct (served_kept reg Hserved) as [Ho _].
  destruct (Ho id t Hsome) as [[u ->] [Hsid _]].
  assert (Hclosed : closed = Server.deleteSession (Server.uuidToString u) reg).
  { unfold closed, Server.onclose. rewrite Hsid. rewrite truthyString_uuid.
    simpl default. now rewrite (objectGet_own _ _ _ Hsome). }
  assert (Hgone : Server.streamable closed !! Server.uuidToString u = None)
    by (rewrite Hclosed; simpl; apply lookup_delete_eq).
  split; [exact Hgone|]. split; [rewrite Hclosed; simpl; apply lookup_delete_eq|].
  split.
  - intros isInitialize connectFaults hs run. apply postMcp_refused. left.
    split; [apply truthyString_uuid|]. split; [exact Hgone|apply uuidToString_own].
  - intros run. unfold Server.getMcp. rewrite truthyString_uuid. simpl default.
    now rewrite (objectGet_uuid_missing _ _ Hgone).
Qed.

Lemma closed_session_is_refused_witness :
  let u := Server.mkUUID 24197857200151252728969465429440056815%N in
  let run := Server.mkRun true false in
  let t := Server.mkTransport (Some (Server.uuidToString u)) 0 in
  let opened :=
    Server.registry
      (fst (Server.postMcp Server.emptyRegistry None true false
              (Server.mkHandshake (Some u) run) run)) in
  Server.sent
    (fst (Server.postMcp (Server.onclose t opened) (Some (Server.uuidToString u))
            false false (Server.mkHandshake None run) run)) =
  [Server.badRequestNoSession].
Proof.
  cbv zeta.
  destruct (closed_session_is_refused
              (Server.registry
                 (fst (Server.postMcp Server.emptyRegistry None true false
                         (Server.mkHandshake
                            (Some (Server.mkUUID 24197857200151252728969465429440056815%N))
                            (Server.mkRun true false))
                         (Server.mkRun true false))))
              (Server.uuidToString
                 (Server.mkUUID 24197857200151252728969465429440056815%N))
              (Server.mkTransport
                 (Some (Server.uuidToString
                          (Server.mkUUID 24197857200151252728969465429440056815%N))) 0))
    as [_ [_ [Hpost _]]].
  - unfold Sessions.Served. apply rtc_once. constructor.
  - vm_compute. reflexivity.
  - now rewrite Hpost.
Defined.

(** X15.  [GET /mcp] answers 400 "Session ID required" when the session id
    is missing, empty, or names neither a registered session nor a property
    of [Object.prototype]; for a registered session it hands the request to
    that session's transport and writes nothing itself. *)
Theorem get_mcp_dispatch (reg : Server.Registry) (sessionId : option string)
    (run : Server.EngineRun) :
  (JS.truthyString sessionId = false \/
   (Server.streamable reg !! default "" sessionId = None /\
    existsb (String.eqb (default "" sessionId)) JS.objectPrototypeKeys = false) ->
   Server.getMcp reg sessionId run =
     (Server.send (Server.Reply 400 (Server.PlainText "Session ID required"))
        (Server.start reg),
      Server.Returned)) /\
  (forall t,
     JS.truthyString sessionId = true ->
     Server.streamable reg !! default "" sessionId = Some t ->
     Server.getMcp reg sessionId run =
       Server.runEngine run (Server.call (Server.HandleRequest t) (Server.start reg))).
Proof.
  unfold Server.getMcp. split.
  - intros [H|[Hnone Hown]].
    + now rewrite H.
    + rewrite (objectGet_unknown _ _ Hnone Hown). simpl. now rewrite orb_true_r.
  - intros t Htruthy Hsome. rewrite Htruthy, (objectGet_own _ _ _ Hsome). reflexivity.
Qed.

Lemma get_mcp_dispatch_witness :
  let u := Server.mkUUID 24197857200151252728969465429440056815%N in
  let run := Server.mkRun true false in
  let opened :=
    Server.registry
      (fst (Server.postMcp Server.emptyRegistry None true false
              (Server.mkHandshake (Some u) run) run)) in
  Server.sent (fst (Server.getMcp opened (Some "") run)) =
    [Server.Reply 400 (Server.PlainText "Session ID required")] /\
  Server.calls (fst (Server.getMcp opened (Some (Server.uuidToString u)) run)) =
    [Server.HandleRequest (Server.mkTransport (Some (Server.uuidToString u)) 0)].
Proof.
  cbv zeta. split.
  - rewrite (proj1 (get_mcp_dispatch _ (Some "") _)); [reflexivity|].
    left. reflexivity.
  - rewrite (proj2 (get_mcp_dispatch _ _ _)
               (Server.mkTransport
                  (Some (Server.uuidToString
                           (Server.mkUUID 24197857200151252728969465429440056815%N))) 0));
      [reflexivity|vm_compute; reflexivity|vm_compute; reflexivity].
Defined.

(** X16.  [GET /sse] registers the new stream under its session id without
    touching the streamable sessions; a [POST /messages] with that id reaches
    the stream's transport, and after the response has closed the same
    request is answered 400. *)
Theorem sse_stream_round_trip (reg : Server.Registry) (u : Server.UUID)
    (run next : Server.EngineRun) :
  let id := Server.uuidToString u in
  let opened := Server.registry (fst (Server.getSse reg u run)) in
  Server.sse opened !! id = Some (Server.mkSse id) /\
  Server.streamable opened = Server.streamable reg /\
  Server.eventStores opened = Server.eventStores reg /\
  Server.postMessages opened (Some id) next =
    Server.runEngine next
      (Server.call (Server.HandlePostMessage (Server.mkSse id)) (Server.start opened)) /\
  Server.postMessages (Server.sseClosed id opened) (Some id) next =
    (Server.send (Server.Reply 400 (Server.PlainText "No transport found for sessionId"))
       (Server.start (Server.sseClosed id opened)),
     Server.Returned).
Proof.
  intros id opened.
  assert (Hopened : opened = Server.sseOpened id (Server.mkSse id) reg).
  { unfold opened, Server.getSse. now rewrite runEngine_registry. }
  assert (Hin : Server.sse opened !! id = Some (Server.mkSse id))
    by (rewrite Hopened; simpl; apply lookup_insert_eq).
  split; [exact Hin|]. split; [now rewrite Hopened|]. split; [now rewrite Hopened|].
  split.
  - apply (proj1 (postMessages_dispatch opened (Some id) next)). exact Hin.
  - apply (proj2 (postMessages_dispatch _ (Some id) next)).
    + simpl. apply lookup_delete_eq.
    + apply uuidToString_own.
Qed.

(** ** Initial instructions *)

Section InstructionFacts.
Import JS Instructions.

Lemma startsWith_sound (pattern s rest : string) :
  startsWith pattern s = Some rest -> s = pattern ++ rest.
Proof.
  revert s. induction pattern as [|c pattern IH]; intros s; simpl.
  - now intros [= ->].
  - destruct s as [|d s]; [discriminate|].
    destruct (Ascii.eqb_spec c d) as [->|_]; [|discriminate].
    intros H. rewrite append_cons. f_equal. now apply IH.
Qed.

Lemma startsWith_append (pattern rest : string) :
  startsWith pattern (pattern ++ rest) = Some rest.
Proof.
  induction pattern as [|c pattern IH]; [reflexivity|].
  rewrite append_cons. simpl. now rewrite Ascii.eqb_refl.
Qed.

Lemma cut_sound (pattern s before behind : string) :
  cut pattern s = Some (before, behind) -> s = before ++ pattern ++ behind.
Proof.
  revert before. induction s as [|c s IH]; intros before; simpl.
  - destruct (startsWith pattern "") as [rest|] eqn:E; [|discriminate].
    intros [= <- <-]. now apply startsWith_sound in E.
  - destruct (startsWith pattern (String c s)) as [rest|] eqn:E.
    + intros [= <- <-]. now apply startsWith_sound in E.
    + destruct (cut pattern s) as [[b a]|]; [|discriminate].
      intros [= <- <-]. rewrite append_cons. f_equal. now apply IH.
Qed.

Lemma cut_unfold (pattern s : string) :
  cut pattern s =
  match startsWith pattern s with
  | Some rest => Some ("", rest)
  | None =>
      match s with
      | EmptyString => None
      | String c rest =>
          match cut pattern rest with
          | Some (before, behind) => Some (String c before, behind)
          | None => None
          end
      end
  end.
Proof. now destruct s. Qed.

Lemma cut_first (c : ascii) (pattern before behind : string) :
  includes c before = false ->
  cut (String c pattern) (before ++ String c pattern ++ behind) = Some (before, behind).
Proof.
  induction before as [|d before IH]; intros H.
  - rewrite append_empty, cut_unfold. now rewrite startsWith_append.
  - rewrite append_cons, cut_unfold. simpl in H.
    apply orb_false_elim in H as [Hd Hrest].
    simpl startsWith. rewrite Ascii.eqb_sym, Hd. now rewrite (IH Hrest).
Qed.

Lemma getSubstitution_plain (matched before behind replacement : string) :
  includes "$" replacement = false ->
  getSubstitution matched before behind replacement = replacement.
Proof.
  induction replacement as [|c tail IH]; simpl; [reflexivity|].
  intros H. apply orb_false_elim in H as [Hc Htail]. rewrite Hc.
  now rewrite (IH Htail).
Qed.

Lemma join_plain (names : list string) :
  Forall (fun name => includes "$" name = false) names ->
  includes "$" (join ", " names) = false.
Proof.
  unfold join. induction 1 as [|name rest Hname _ IH]; simpl; [reflexivity|].
  destruct rest as [|next rest]; [assumption|].
  rewrite !includes_append, Hname, IH. reflexivity.
Qed.

End InstructionFacts.

(** X17.  Instructions that do not contain [$api_types] are returned
    unchanged, whatever the type names. *)
Theorem instructions_without_placeholder (configured : string) (typeNames : list string) :
  (forall before behind, configured <> before ++ Instructions.placeholder ++ behind) ->
  Instructions.getInitialInstructions configured typeNames = configured.
Proof.
  intros H. unfold Instructions.getInitialInstructions, Instructions.replace.
  destruct (Instructions.cut _ _) as [[before behind]|] eqn:E; [|reflexivity].
  apply cut_sound in E. now apply H in E.
Qed.

(** X18.  When no [$] stands before the first [$api_types] and no type name
    holds a [$], exactly that first occurrence is replaced by the type names
    joined with a comma and a space; the text behind it, further
    placeholders included, is left alone. *)
Theorem instructions_fill_first_placeholder (before behind : string)
    (typeNames : list string) :
  JS.includes "$" before = false ->
  Forall (fun name => JS.includes "$" name = false) typeNames ->
  Instructions.getInitialInstructions
    (before ++ Instructions.placeholder ++ behind) typeNames =
  before ++ Instructions.join ", " typeNames ++ behind.
Proof.
  intros Hbefore Hnames.
  unfold Instructions.getInitialInstructions, Instructions.replace,
    Instructions.placeholder.
  rewrite (cut_first "$" "api_types" before behind Hbefore).
  now rewrite getSubstitution_plain by now apply join_plain.
Qed.

Lemma no_dollar_no_placeholder (configured : string) :
  JS.includes "$" configured = false ->
  forall before behind, configured <> before ++ Instructions.placeholder ++ behind.
Proof.
  intros H before behind E. rewrite E in H.
  rewrite includes_append, (includes_append "$" Instructions.placeholder) in H.
  simpl in H. rewrite orb_true_r in H. discriminate.
Qed.

Lemma instructions_without_placeholder_witness :
  Instructions.getInitialInstructions "Use the Penpot API." ["Shape"; "Board"] =
  "Use the Penpot API.".
Proof.
  apply instructions_without_placeholder.
  apply no_dollar_no_placeholder. reflexivity.
Defined.

Lemma instructions_fill_first_placeholder_witness :
  Instructions.getInitialInstructions
    "Types: $api_types. Write $api_types for the list." ["Shape"; "Board"] =
  "Types: Shape, Board. Write $api_types for the list.".
Proof.
  apply (instructions_fill_first_placeholder "Types: "
           ". Write $api_types for the list." ["Shape"; "Board"]).
  - reflexivity.
  - repeat constructor.
Defined.

(** ** The plugin page *)

Section PluginFacts.
Import Plugin.

Lemma updateConnectionStatus_fields (status : string) (ok : bool) (p : Page) :
  let q := updateConnectionStatus status ok p in
  ws q = ws p /\ pingInterval q = pingInterval p /\
  reconnectTimeout q = reconnectTimeout p /\ sockets q = sockets p /\
  socketsCreated q = socketsCreated p /\ intervals q = intervals p /\
  timeouts q = timeouts p /\ timersCreated q = timersCreated p /\
  protocol q = protocol p /\ host q = host p.
Proof.
  unfold updateConnectionStatus. destruct (statusElement p); simpl; repeat split.
Qed.

Lemma setReadyState_fields (s : nat) (state : ReadyState) (p : Page) :
  let q := setReadyState s state p in
  ws q = ws p /\ pingInterval q = pingInterval p /\
  reconnectTimeout q = reconnectTimeout p /\
  socketsCreated q = socketsCreated p /\ intervals q = intervals p /\
  timeouts q = timeouts p /\ timersCreated q = timersCreated p.
Proof.
  unfold setReadyState. destruct (sockets p !! s) as [[url st]|]; simpl; repeat split.
Qed.

Lemma stopPingInterval_stops (p : Page) :
  TimersTidy p ->
  let q := stopPingInterval p in
  truthyTimer (pingInterval q) = false /\ intervals q = ∅ /\
  timeouts q = timeouts p /\ reconnectTimeout q = reconnectTimeout p /\
  timersCreated q = timersCreated p /\ ws q = ws p /\ sockets q = sockets p /\
  socketsCreated q = socketsCreated p.
Proof.
  intros [Hi _]. unfold stopPingInterval.
  destruct (truthyTimer (pingInterval p)) eqn:T; simpl.
  - repeat split; try reflexivity. rewrite Hi. set_solver.
  - rewrite T. repeat split; try reflexivity. exact Hi.
Qed.

Lemma tidy_stopPingInterval (p : Page) : TimersTidy p -> TimersTidy (stopPingInterval p).
Proof.
  intros H. destruct (stopPingInterval_stops p H) as [T [I [O [R _]]]].
  destruct H as [_ Ht]. split.
  - now rewrite T, I.
  - now rewrite O, R.
Qed.

Lemma tidy_startPingInterval (p : Page) : TimersTidy p -> TimersTidy (startPingInterval p).
Proof.
  intros H. destruct (stopPingInterval_stops p H) as [T [I [O [R _]]]].
  destruct H as [_ Ht]. unfold startPingInterval. split; simpl.
  - rewrite I. set_solver.
  - now rewrite O, R.
Qed.

Lemma tidy_scheduleReconnect (p : Page) : TimersTidy p -> TimersTidy (scheduleReconnect p).
Proof.
  intros [Hi Ht]. unfold scheduleReconnect. split; simpl; [exact Hi|].
  destruct (truthyTimer (reconnectTimeout p)); set_solver.
Qed.

Lemma scheduleReconnect_pending (p : Page) :
  TimersTidy p -> timeouts (scheduleReconnect p) = {[ S (timersCreated p) ]}.
Proof.
  intros [_ Ht]. unfold scheduleReconnect. simpl.
  destruct (truthyTimer (reconnectTimeout p)); set_solver.
Qed.

Lemma tidy_updateConnectionStatus (status : string) (ok : bool) (p : Page) :
  TimersTidy p -> TimersTidy (updateConnectionStatus status ok p).
Proof.
  unfold TimersTidy, updateConnectionStatus. now destruct (statusElement p).
Qed.

Lemma tidy_setReadyState (s : nat) (state : ReadyState) (p : Page) :
  TimersTidy p -> TimersTidy (setReadyState s state p).
Proof.
  unfold TimersTidy, setReadyState. now destruct (sockets p !! s) as [[? ?]|].
Qed.

Lemma tidy_connectToMcpServer (constructThrows : bool) (p : Page) :
  TimersTidy p -> TimersTidy (connectToMcpServer constructThrows p).
Proof.
  intros H. unfold connectToMcpServer.
  destruct (isOpen p); [now apply tidy_updateConnectionStatus|].
  destruct constructThrows; now apply tidy_updateConnectionStatus.
Qed.

Lemma tidy_step (p : Page) (ev : Event) : TimersTidy p -> TimersTidy (fst (step p ev)).
Proof.
  intros H. destruct ev; simpl.
  - now apply tidy_connectToMcpServer.
  - unfold onopen. now apply tidy_startPingInterval, tidy_updateConnectionStatus,
      tidy_setReadyState.
  - exact H.
  - unfold onclose. apply tidy_scheduleReconnect.
    assert (Hs : TimersTidy (stopPingInterval
                   (updateConnectionStatus "Disconnected - reconnecting..." false
                      (setReadyState s CLOSED p))))
      by now apply tidy_stopPingInterval, tidy_updateConnectionStatus,
           tidy_setReadyState.
    exact Hs.
  - unfold onerror. now apply tidy_updateConnectionStatus.
  - exact H.
  - apply tidy_connectToMcpServer. destruct H as [Hi Ht]. split; simpl; [exact Hi|].
    set_solver.
  - unfold onWindowMessage. destruct data as [|source type theme response];
      [exact H|].
    destruct (isString "penpot" source); [exact H|].
    destruct (isString "task-response" type); exact H.
Qed.

Lemma reached_tidy (start p : Page) :
  TimersTidy start -> Reached start p -> TimersTidy p.
Proof.
  intros Hstart. induction 1 as [|p ev _ IH _]; [assumption|].
  now apply tidy_step.
Qed.

Lemma tidy_initial (protocol host : string) (themeParam : option string)
    (status : option Status) :
  TimersTidy (initial protocol host themeParam status).
Proof. split; simpl; set_solver. Qed.

End PluginFacts.

(** X19.  However the page is driven, at most one ping interval runs and
    at most one reconnect is pending: the running interval is the one held in
    [pingInterval], a pending timeout is the one held in [reconnectTimeout]. *)
Theorem timers_never_leak (protocol host : string) (themeParam : option string)
    (status : option Plugin.Status) (p : Plugin.Page) :
  Plugin.Reached (Plugin.initial protocol host themeParam status) p ->
  Plugin.TimersTidy p /\
  size (Plugin.intervals p) <= 1 /\
  size (Plugin.timeouts p) <= 1.
Proof.
  intros H.
  assert (Ht : Plugin.TimersTidy p)
    by (eapply reached_tidy; [apply tidy_initial|exact H]).
  split; [exact Ht|]. destruct Ht as [Hi Hp]. split.
  - rewrite Hi. destruct (Plugin.truthyTimer (Plugin.pingInterval p)).
    + rewrite size_singleton. lia.
    + rewrite size_empty. lia.
  - apply subseteq_size in Hp.
    destruct (Plugin.truthyTimer (Plugin.reconnectTimeout p)).
    + rewrite size_singleton in Hp. lia.
    + rewrite size_empty in Hp. lia.
Qed.

Lemma timers_never_leak_witness :
  let start := Plugin.initial "https:" "design.example" None None in
  let p :=
    fst (Plugin.step
           (fst (Plugin.step
                   (fst (Plugin.step (fst (Plugin.step start (Plugin.ClickConnect false)))
                           (Plugin.SocketOpened 0)))
                   (Plugin.SocketClosed 0)))
           (Plugin.ReconnectFires 2 false)) in
  Plugin.TimersTidy p /\ size (Plugin.intervals p) <= 1 /\ size (Plugin.timeouts p) <= 1.
Proof.
  cbv zeta. apply (timers_never_leak "https:" "design.example" None None).
  apply Plugin.ReachedStep; [apply Plugin.ReachedStep; [apply Plugin.ReachedStep;
    [apply Plugin.ReachedStep; [apply Plugin.ReachedStart|]|]|]|].
  - exact I.
  - vm_compute. reflexivity.
  - split; [vm_compute; eauto|vm_compute; discriminate].
  - vm_compute. set_solver.
Defined.

Section PluginCycle.
Import Plugin.

Lemma stopPingInterval_page (p : Page) :
  protocol (stopPingInterval p) = protocol p /\ host (stopPingInterval p) = host p.
Proof.
  unfold stopPingInterval. now destruct (truthyTimer (pingInterval p)).
Qed.

Lemma onclose_fields (p : Page) :
  TimersTidy p ->
  let q := onclose p in
  ws q = None /\ intervals q = ∅ /\
  timeouts q = {[ S (timersCreated p) ]} /\
  reconnectTimeout q = Some (S (timersCreated p)) /\
  sockets q = sockets p /\ socketsCreated q = socketsCreated p /\
  protocol q = protocol p /\ host q = host p.
Proof.
  intros Ht. unfold onclose.
  set (p1 := updateConnectionStatus "Disconnected - reconnecting..." false p).
  assert (Ht1 : TimersTidy p1) by now apply tidy_updateConnectionStatus.
  destruct (updateConnectionStatus_fields "Disconnected - reconnecting..." false p)
    as [_ [_ [_ [Hs [Hc [_ [_ [Hn [Hpr Hh]]]]]]]]]. fold p1 in Hs, Hc, Hn, Hpr, Hh.
  destruct (stopPingInterval_stops p1 Ht1) as [T [I [O [R [N [_ [S1 C1]]]]]]].
  destruct (stopPingInterval_page p1) as [P1 H1].
  pose proof (tidy_stopPingInterval p1 Ht1) as [A B].
  set (p2 := stopPingInterval p1) in *.
  assert (Ht2 : TimersTidy (setWs None p2)) by (split; assumption).
  pose proof (scheduleReconnect_pending (setWs None p2) Ht2) as Hpending.
  change (timersCreated (setWs None p2)) with (timersCreated p2) in Hpending.
  rewrite N, Hn in Hpending.
  split; [reflexivity|]. split; [exact I|]. split; [exact Hpending|].
  unfold scheduleReconnect; simpl.
  repeat split; congruence.
Qed.

Lemma setReadyState_tidy_fields (s : nat) (state : ReadyState) (p : Page) :
  let q := setReadyState s state p in
  protocol q = protocol p /\ host q = host p /\
  socketsCreated q = socketsCreated p /\ timersCreated q = timersCreated p.
Proof.
  unfold setReadyState. destruct (sockets p !! s) as [[url st]|]; simpl; repeat split.
Qed.

Lemma setReadyState_other (s other : nat) (state : ReadyState) (p : Page) :
  other <> s -> stateOf other (setReadyState s state p) = stateOf other p.
Proof.
  intros Hne. unfold stateOf, setReadyState.
  destruct (sockets p !! s) as [[url st]|]; simpl; [|reflexivity].
  now rewrite lookup_insert_ne by congruence.
Qed.

Lemma isOpen_spec (p : Page) :
  isOpen p = true <-> exists s, ws p = Some s /\ stateOf s p = Some OPEN.
Proof.
  unfold isOpen, stateOf. split.
  - destruct (ws p) as [s|]; [|discriminate].
    destruct (sockets p !! s) as [[url []]|] eqn:L; try discriminate.
    intros _. exists s. now rewrite L.
  - intros [s [-> H]]. destruct (sockets p !! s) as [[url st]|]; [|discriminate].
    simpl in H. now inversion H.
Qed.

Lemma isString_spec (text : string) (value : option Json) :
  isString text value = true <-> value = Some (JString text).
Proof.
  unfold isString. destruct value as [[]|]; split; try discriminate.
  - intros H. apply String.eqb_eq in H. now subst.
  - intros [= ->]. apply String.eqb_refl.
Qed.

Lemma connect_fresh (q : Page) :
  isOpen q = false ->
  let r := connectToMcpServer false q in
  ws r = Some (socketsCreated q) /\
  sockets r = <[ socketsCreated q := (wsUrl q, CONNECTING) ]> (sockets q) /\
  socketsCreated r = S (socketsCreated q) /\
  timeouts r = timeouts q /\ intervals r = intervals q /\
  pingInterval r = pingInterval q /\ reconnectTimeout r = reconnectTimeout q.
Proof.
  intros Hclosed. unfold connectToMcpServer. rewrite Hclosed.
  set (q1 := setWs _ _).
  destruct (updateConnectionStatus_fields "Connecting..." false q1)
    as [A [B [C [D [E [F [G _]]]]]]].
  cbv zeta. rewrite A, B, C, D, E, F, G. repeat split.
Qed.

End PluginCycle.

(** X20.  When a socket closes, the page forgets its socket, stops the ping
    and leaves exactly one reconnect pending; when that reconnect fires, a
    new socket to the page's [/ws] address is being connected and no timer is
    left. *)
Theorem reconnect_after_close (protocol host : string) (themeParam : option string)
    (status : option Plugin.Status) (p : Plugin.Page) (s : nat) :
  Plugin.Reached (Plugin.initial protocol host themeParam status) p ->
  let timer := S (Plugin.timersCreated p) in
  let closed := fst (Plugin.step p (Plugin.SocketClosed s)) in
  let again := fst (Plugin.step closed (Plugin.ReconnectFires timer false)) in
  (Plugin.ws closed = None /\
   Plugin.intervals closed = ∅ /\
   Plugin.timeouts closed = {[ timer ]}) /\
  (Plugin.ws again = Some (Plugin.socketsCreated p) /\
   Plugin.sockets again !! Plugin.socketsCreated p
     = Some (Plugin.wsUrl p, Plugin.CONNECTING) /\
   Plugin.timeouts again = ∅ /\
   Plugin.intervals again = ∅).
Proof.
  intros Hreached timer closed again.
  assert (Ht : Plugin.TimersTidy (Plugin.setReadyState s Plugin.CLOSED p)).
  { apply tidy_setReadyState. eapply reached_tidy; [apply tidy_initial|exact Hreached]. }
  destruct (setReadyState_tidy_fields s Plugin.CLOSED p) as [Hpr [Hh [Hc Hn]]].
  destruct (onclose_fields _ Ht) as [Hws [Hi [Hp [Hr [Hs [Hsc [Hpr' Hh']]]]]]].
  change (Plugin.onclose (Plugin.setReadyState s Plugin.CLOSED p)) with closed
    in Hws, Hi, Hp, Hr, Hs, Hsc, Hpr', Hh'.
  rewrite Hn in Hp. fold timer in Hp.
  split; [auto|].
  set (q := Plugin.setReconnect (Plugin.reconnectTimeout closed)
              (Plugin.timeouts closed ∖ {[timer]}) (Plugin.timersCreated closed) closed).
  assert (Hq : Plugin.isOpen q = false).
  { unfold Plugin.isOpen. change (Plugin.ws q) with (Plugin.ws closed).
    now rewrite Hws. }
  destruct (connect_fresh q Hq) as [A [B [_ [D [E _]]]]].
  change (Plugin.connectToMcpServer false q) with again in A, B, D, E.
  change (Plugin.socketsCreated q) with (Plugin.socketsCreated closed) in A, B.
  rewrite Hsc, Hc in A, B.
  split; [exact A|]. split.
  - rewrite B, lookup_insert_eq. unfold Plugin.wsUrl.
    change (Plugin.protocol q) with (Plugin.protocol closed).
    change (Plugin.host q) with (Plugin.host closed).
    now rewrite Hpr', Hh', Hpr, Hh.
  - split.
    + rewrite D. change (Plugin.timeouts q) with (Plugin.timeouts closed ∖ {[timer]}).
      rewrite Hp. set_solver.
    + rewrite E. exact Hi.
Qed.

Lemma reconnect_after_close_witness :
  let p := fst (Plugin.step
             (fst (Plugin.step (Plugin.initial "https:" "design.example" None None)
                     (Plugin.ClickConnect false)))
             (Plugin.SocketOpened 0)) in
  let closed := fst (Plugin.step p (Plugin.SocketClosed 0)) in
  let again := fst (Plugin.step closed (Plugin.ReconnectFires 2 false)) in
  (Plugin.ws closed = None /\
   Plugin.intervals closed = ∅ /\
   Plugin.timeouts closed = {[ 2 ]}) /\
  (Plugin.ws again = Some 1 /\
   Plugin.sockets again !! 1
     = Some ("wss://design.example/ws", Plugin.CONNECTING) /\
   Plugin.timeouts again = ∅ /\
   Plugin.intervals again = ∅).
Proof.
  cbv zeta.
  refine (reconnect_after_close "https:" "design.example" None None _ 0 _).
  apply Plugin.ReachedStep; [apply Plugin.ReachedStep; [apply Plugin.ReachedStart|]|].
  - exact I.
  - vm_compute. reflexivity.
Defined.

Section PluginTraffic.
Import Plugin.

Lemma onclose_other (stale other : nat) (p : Page) :
  other <> stale ->
  stateOf other (onclose (setReadyState stale CLOSED p)) = stateOf other p.
Proof.
  intros Hne. rewrite <- (setReadyState_other stale other CLOSED p Hne).
  unfold stateOf, onclose, scheduleReconnect, stopPingInterval, updateConnectionStatus.
  destruct (statusElement (setReadyState stale CLOSED p)); simpl;
    destruct (truthyTimer (pingInterval (setReadyState stale CLOSED p))); reflexivity.
Qed.

Lemma onclose_forgets (p : Page) : ws (onclose p) = None.
Proof. reflexivity. Qed.

Lemma sendIfOpen_closed (frame : Frame) (p : Page) : ws p = None -> sendIfOpen frame p = [].
Proof. intros H. unfold sendIfOpen, isOpen. now rewrite H. Qed.

Lemma sendIfOpen_In (frame : Frame) (p : Page) (out : Output) :
  In out (sendIfOpen frame p) ->
  exists s, out = Sent s frame /\ ws p = Some s /\ stateOf s p = Some OPEN.
Proof.
  unfold sendIfOpen. destruct (isOpen p) eqn:Hopen; [|intros []].
  apply isOpen_spec in Hopen. destruct Hopen as [s [Hws Hstate]].
  intros [<-|[]]. exists s. rewrite Hws. simpl. auto.
Qed.

Lemma typeOf_pong (m : Json) :
  isString "pong" (default None (typeOf m)) = true <->
  typeOf m = Some (Some (JString "pong")).
Proof.
  destruct (typeOf m) as [type|]; simpl.
  - rewrite isString_spec. split; congruence.
  - split; discriminate.
Qed.

End PluginTraffic.

(** X21.  The close of a socket other than the current one still clears
    [ws]: the current socket stays open, yet the ping stops and neither a ping
    nor a task response is sent any more, where it was sent before. *)
Theorem stale_close_forgets_live_socket (p : Plugin.Page) (stale current : nat)
    (frame : Plugin.Frame) :
  Plugin.TimersTidy p ->
  Plugin.ws p = Some current ->
  stale <> current ->
  Plugin.stateOf current p = Some Plugin.OPEN ->
  let q := fst (Plugin.step p (Plugin.SocketClosed stale)) in
  Plugin.sendIfOpen frame p = [Plugin.Sent current frame] /\
  Plugin.stateOf current q = Some Plugin.OPEN /\
  Plugin.ws q = None /\
  Plugin.intervals q = ∅ /\
  Plugin.sendIfOpen frame q = [].
Proof.
  intros Htidy Hws Hne Hopen q. split; [|split; [|split; [|split]]].
  - unfold Plugin.sendIfOpen.
    assert (Hp : Plugin.isOpen p = true) by (apply isOpen_spec; eauto).
    now rewrite Hp, Hws.
  - unfold q. simpl. rewrite onclose_other by congruence. exact Hopen.
  - reflexivity.
  - unfold q. simpl. apply onclose_fields. now apply tidy_setReadyState.
  - now apply sendIfOpen_closed.
Qed.

Lemma stale_close_forgets_live_socket_witness :
  let start := Plugin.initial "http:" "localhost:4400" None None in
  let p := fst (Plugin.step
             (fst (Plugin.step
                (fst (Plugin.step start (Plugin.ClickConnect false)))
                (Plugin.ClickConnect false)))
             (Plugin.SocketOpened 1)) in
  let q := fst (Plugin.step p (Plugin.SocketClosed 0)) in
  Plugin.Reached start p /\
  Plugin.enabled p (Plugin.SocketClosed 0) /\
  Plugin.sendIfOpen Plugin.Ping p = [Plugin.Sent 1 Plugin.Ping] /\
  Plugin.stateOf 1 q = Some Plugin.OPEN /\
  Plugin.ws q = None /\
  Plugin.intervals q = ∅ /\
  Plugin.sendIfOpen Plugin.Ping q = [].
Proof.
  cbv zeta.
  assert (Hreached :
    Plugin.Reached (Plugin.initial "http:" "localhost:4400" None None)
      (fst (Plugin.step
         (fst (Plugin.step
            (fst (Plugin.step (Plugin.initial "http:" "localhost:4400" None None)
                    (Plugin.ClickConnect false)))
            (Plugin.ClickConnect false)))
         (Plugin.SocketOpened 1)))).
  { repeat (apply Plugin.ReachedStep; [|first [exact I | vm_compute; reflexivity]]).
    apply Plugin.ReachedStart. }
  split; [exact Hreached|]. split.
  - split; [exists Plugin.CONNECTING; vm_compute; reflexivity|vm_compute; discriminate].
  - refine (stale_close_forgets_live_socket _ 0 1 Plugin.Ping _ _ _ _).
    + eapply reached_tidy; [apply tidy_initial|exact Hreached].
    + reflexivity.
    + lia.
    + vm_compute. reflexivity.
Defined.

(** X22.  A frame goes out only on the current socket and only while it is
    open, one frame per event: a ping on a tick of the interval, a task
    response on a window message of type [task-response] that does not come
    from [penpot]. *)
Theorem frames_only_on_open_socket (p : Plugin.Page) (ev : Plugin.Event) (s : nat)
    (frame : Plugin.Frame) :
  In (Plugin.Sent s frame) (snd (Plugin.step p ev)) ->
  Plugin.ws p = Some s /\ Plugin.stateOf s p = Some Plugin.OPEN /\
  snd (Plugin.step p ev) = [Plugin.Sent s frame] /\
  ((frame = Plugin.Ping /\ exists timer, ev = Plugin.PingTick timer) \/
   (exists source type theme response,
      frame = Plugin.TaskResponse response /\
      ev = Plugin.WindowMessage (Plugin.Data source type theme response) /\
      source <> Some (Plugin.JString "penpot") /\
      type = Some (Plugin.JString "task-response"))).
Proof.
  assert (Hone : forall f out, In out (Plugin.sendIfOpen f p) ->
                   Plugin.sendIfOpen f p = [out]).
  { intros f out. unfold Plugin.sendIfOpen.
    destruct (Plugin.isOpen p); [|intros []]. now intros [<-|[]]. }
  destruct ev as [b|s'|s' parsed|s'|s'|timer|timer b|data]; simpl;
    try (intros []).
  - unfold Plugin.onmessage. destruct parsed as [m|]; [|intros []].
    destruct (Plugin.typeOf m) as [type|]; [|intros []].
    destruct (Plugin.isString "pong" type); [intros []|].
    intros [H|[]]. discriminate.
  - intros Hin. pose proof (Hone _ _ Hin) as Hlist.
    apply sendIfOpen_In in Hin. destruct Hin as [s0 [[= -> ->] [Hws Hopen]]].
    repeat split; eauto.
  - unfold Plugin.onWindowMessage. destruct data as [|source type theme response];
      [intros []|].
    destruct (Plugin.isString "penpot" source) eqn:Hsource; [intros []|].
    destruct (Plugin.isString "task-response" type) eqn:Htype; [|intros []].
    simpl. unfold Plugin.sendTaskResponse. intros Hin.
    pose proof (Hone _ _ Hin) as Hlist.
    apply sendIfOpen_In in Hin. destruct Hin as [s0 [[= -> ->] [Hws Hopen]]].
    repeat split; auto. right. exists source, type, theme, response.
    repeat split.
    + intros Heq. apply isString_spec in Heq. congruence.
    + now apply isString_spec.
Qed.

Lemma frames_only_on_open_socket_witness :
  let p := fst (Plugin.step
             (fst (Plugin.step (Plugin.initial "https:" "design.example" None None)
                     (Plugin.ClickConnect false)))
             (Plugin.SocketOpened 0)) in
  let response := Some (Plugin.JObject [("id", Plugin.JString "t1");
                                        ("success", Plugin.JBool true)]) in
  let ev := Plugin.WindowMessage
              (Plugin.Data None (Some (Plugin.JString "task-response")) "undefined"
                 response) in
  In (Plugin.Sent 0 (Plugin.TaskResponse response)) (snd (Plugin.step p ev)) /\
  Plugin.ws p = Some 0 /\ Plugin.stateOf 0 p = Some Plugin.OPEN /\
  snd (Plugin.step p ev) = [Plugin.Sent 0 (Plugin.TaskResponse response)].
Proof.
  cbv zeta.
  assert (Hin : In (Plugin.Sent 0 (Plugin.TaskResponse
                      (Some (Plugin.JObject [("id", Plugin.JString "t1");
                                             ("success", Plugin.JBool true)]))))
                  (snd (Plugin.step
                     (fst (Plugin.step
                        (fst (Plugin.step
                           (Plugin.initial "https:" "design.example" None None)
                           (Plugin.ClickConnect false)))
                        (Plugin.SocketOpened 0)))
                     (Plugin.WindowMessage
                        (Plugin.Data None (Some (Plugin.JString "task-response"))
                           "undefined"
                           (Some (Plugin.JObject [("id", Plugin.JString "t1");
                                                  ("success", Plugin.JBool true)]))))))).
  { vm_compute. left. reflexivity. }
  split; [exact Hin|].
  destruct (frames_only_on_open_socket _ _ _ _ Hin) as [Hws [Hopen [Hlist _]]].
  auto.
Defined.

(** X23.  A message from the server never changes the page and sends
    nothing back; it is forwarded to the plugin exactly when it parses, is not
    [null] and its [type] is not the string [pong]. *)
Theorem socket_message_forwarding (p : Plugin.Page) (s : nat)
    (parsed : option Plugin.Json) (out : Plugin.Output) :
  fst (Plugin.step p (Plugin.SocketMessage s parsed)) = p /\
  (In out (snd (Plugin.step p (Plugin.SocketMessage s parsed))) <->
   exists message,
     out = Plugin.Posted message /\ parsed = Some message /\
     message <> Plugin.JNull /\
     (forall fields, message = Plugin.JObject fields ->
        Plugin.lastField "type" fields <> Some (Plugin.JString "pong"))).
Proof.
  split; [reflexivity|]. simpl. unfold Plugin.onmessage.
  destruct parsed as [m|].
  - destruct m as [|b|n|text|items|fields]; simpl.
    + split; [intros []|]. intros [m [_ [[= <-] [H _]]]]. now elim H.
    + split.
      * intros [<-|[]]. eexists. repeat split; discriminate.
      * intros [m [-> [[= <-] _]]]. now left.
    + split.
      * intros [<-|[]]. eexists. repeat split; discriminate.
      * intros [m [-> [[= <-] _]]]. now left.
    + split.
      * intros [<-|[]]. eexists. repeat split; discriminate.
      * intros [m [-> [[= <-] _]]]. now left.
    + split.
      * intros [<-|[]]. eexists. repeat split; discriminate.
      * intros [m [-> [[= <-] _]]]. now left.
    + destruct (Plugin.isString "pong" (Plugin.lastField "type" fields)) eqn:Hpong.
      * split; [intros []|]. intros [m [_ [[= <-] [_ H]]]].
        apply isString_spec in Hpong. now elim (H fields eq_refl).
      * split.
        -- intros [<-|[]]. eexists. repeat split; try discriminate.
           intros fields' [= <-] Heq. apply isString_spec in Heq. congruence.
        -- intros [m [-> [[= <-] _]]]. now left.
  - split; [intros []|]. intros [m [_ [H _]]]. discriminate.
Qed.

(** ** Storing, then resuming *)

Section ResumeFacts.
Import JS EventStore.
Context {M : Type} {collation : Collation}.
Implicit Types (events : Events M).

Lemma mapSet_holds (k : string) (v : StoredEvent M) events : In (k, v) (mapSet k v events).
Proof.
  induction events as [|[k' v'] rest IH]; simpl; [now left|].
  destruct (String.eqb k' k); [now left|now right].
Qed.

Lemma filter_mapSet_length (p : string * StoredEvent M -> bool) (k : string)
    (v : StoredEvent M) events :
  List.length (List.filter p (mapSet k v events))
    <= S (List.length (List.filter p events)).
Proof.
  induction events as [|[k' v'] rest IH]; simpl.
  - destruct (p (k, v)); simpl; lia.
  - destruct (String.eqb k' k); simpl.
    + destruct (p (k, v)), (p (k', v')); simpl; lia.
    + destruct (p (k', v')); simpl; lia.
Qed.

Lemma trimmed_within (s : string) events :
  countOf s events <= maxEventsPerStream -> trimmed s events = events.
Proof.
  intros Hcap. unfold trimmed, surplus.
  replace (countOf s events - maxEventsPerStream) with 0 by lia.
  now apply filter_all.
Qed.

Lemma stored_event_kept events (sid : string) (msg : M) (h : Host) :
  List.NoDup (keys events) ->
  (sweepClock h - stampClock h <= maxAge)%Z ->
  countOf sid events < maxEventsPerStream ->
  exists kept,
    storeEvent events sid msg h = Some (kept, fst (entryOf (sid, msg, h))) /\
    In (entryOf (sid, msg, h)) kept.
Proof.
  intros Hnd Hage Hcap.
  destruct (storeEvent_spec events sid msg h Hnd) as [kept [Hstore [_ Hstreams]]].
  exists kept. split; [exact Hstore|].
  set (id := generateEventId sid (idClock h) (randomSuffix h)) in *.
  set (ev := mkEvent sid msg (stampClock h)) in *.
  change (entryOf (sid, msg, h)) with (id, ev).
  set (kept0 := retained (sweepClock h) (mapSet id ev events)) in *.
  assert (Hin : In (id, ev) kept0).
  { apply retained_In. split; [apply mapSet_holds|]. exact Hage. }
  assert (Hcount : countOf sid kept0 <= maxEventsPerStream).
  { unfold kept0, countOf, streamEvents, retained. rewrite filter_and.
    pose proof (filter_mapSet_length
                  (fun x => negb (expired (sweepClock h) (snd x)) && ofStream sid x)
                  id ev events) as Hle.
    assert (Hsub : List.length
                     (List.filter
                        (fun x => negb (expired (sweepClock h) (snd x)) && ofStream sid x)
                        events)
                   <= countOf sid events).
    { rewrite <- filter_and. unfold countOf, streamEvents.
      rewrite filter_swap. apply filter_length_le. }
    lia. }
  assert (Hs : In (id, ev) (streamEvents sid kept)).
  { rewrite Hstreams, trimmed_within by exact Hcount.
    unfold streamEvents. apply filter_In. split; [exact Hin|].
    unfold ofStream. simpl. apply String.eqb_refl. }
  unfold streamEvents in Hs. now apply filter_In in Hs.
Qed.

End ResumeFacts.

(** X24.  The id [storeEvent] returns is a resumption marker at once: when
    the stream id is not empty and has no underscore, the event has not
    expired by the time of the cleanup and the stream was below the cap, the
    event is in the store under that id, and the replay from it answers the
    event's stream and sends only other stored events of that stream. *)
Theorem stored_event_resumes {M : Type} {collation : JS.Collation}
    (events : EventStore.Events M)
    (sid : string) (msg : M) (h : EventStore.Host) :
  List.NoDup (JS.keys events) ->
  sid <> "" ->
  JS.includes "_" sid = false ->
  (EventStore.sweepClock h - EventStore.stampClock h <= EventStore.maxAge)%Z ->
  EventStore.countOf sid events < EventStore.maxEventsPerStream ->
  exists kept eventId,
    EventStore.storeEvent events sid msg h = Some (kept, eventId) /\
    In (eventId, EventStore.mkEvent sid msg (EventStore.stampClock h)) kept /\
    fst (EventStore.replayEventsAfter kept eventId) = sid /\
    forall sent, In sent (snd (EventStore.replayEventsAfter kept eventId)) ->
      fst sent <> eventId /\
      exists e, In (fst sent, e) kept /\ EventStore.streamId e = sid /\
                EventStore.message e = snd sent.
Proof.
  intros Hnd Hne Hclean Hage Hcap.
  destruct (stored_event_kept events sid msg h Hnd Hage Hcap) as [kept [Hstore Hin]].
  exists kept, (fst (EventStore.entryOf (sid, msg, h))).
  split; [exact Hstore|]. split; [exact Hin|].
  assert (Hsid : EventStore.getStreamIdFromEventId
                   (fst (EventStore.entryOf (sid, msg, h))) = sid)
    by now apply event_id_stream.
  rewrite replay_found; [|eapply mapHas_In; exact Hin|congruence].
  rewrite Hsid. simpl. split; [reflexivity|].
  intros sent Hsent. apply replayLoop_of_stream in Hsent.
  destruct Hsent as [[k e] [Hk [-> [Hs Hdiff]]]]. simpl in *.
  split; [exact Hdiff|]. exists e. repeat split; auto.
  eapply Permutation_in; [apply sort_perm|exact Hk].
Qed.

Lemma stored_event_resumes_witness :
  let collation : JS.Collation := JS.codeUnits in
  let events :=
    [ ("s1_1700000000000_aa", EventStore.mkEvent "s1" 1%nat 1700000000000);
      ("s2_1700000000001_bb", EventStore.mkEvent "s2" 2%nat 1700000000001) ] in
  exists kept eventId,
    EventStore.storeEvent events "s1" 3%nat
      (EventStore.mkHost 1700000000002 1700000000002 1700000000003 "cc")
      = Some (kept, eventId) /\
    In (eventId, EventStore.mkEvent "s1" 3%nat 1700000000002) kept /\
    fst (EventStore.replayEventsAfter kept eventId) = "s1" /\
    forall sent, In sent (snd (EventStore.replayEventsAfter kept eventId)) ->
      fst sent <> eventId /\
      exists e, In (fst sent, e) kept /\ EventStore.streamId e = "s1" /\
                EventStore.message e = snd sent.
Proof.
  cbv zeta.
  refine (stored_event_resumes _ "s1" 3%nat
            (EventStore.mkHost 1700000000002 1700000000002 1700000000003 "cc")
            _ _ _ _ _).
  - repeat (apply List.NoDup_cons; [simpl; intuition discriminate|]).
    apply List.NoDup_nil.
  - discriminate.
  - reflexivity.
  - vm_compute. discriminate.
  - vm_compute. lia.
Defined.
